(** * flare-system-client: signing-policy store, retry harness, payload
      codec and submitter loops

    A shallow embedding of the Go sources
      - client/finalizer/signing_policy_storage.go
      - client/protocol/submitter.go, client/protocol/protocol_context.go
      - the registration client's [SigningPolicyHash]
      - the shared [ExecuteWithRetry]
    and the properties of them that the specification states.

    Conventions.  Go's fixed-width integers are [Z] with the wrap-around
    written out ([GoInt]); bytes are [Z] in [0, 256); a Go [map] is a
    [gmap]; a runtime panic is an explicit outcome of the function that
    can raise it; calls that leave the process (RPC, HTTP, signing,
    hashing) are parameters of the section that uses them. *)

From Stdlib Require Import ZArith Lia.
From Equations Require Import Equations.
From stdpp Require Import gmap strings list fin_maps pretty.

#[global] Set Warnings "-clear-no-such-hyp".
Open Scope Z_scope.

(** ** Go integer arithmetic *)
Module GoInt.

Definition min_int64 : Z := - 2 ^ 63.
Definition max_int64 : Z := 2 ^ 63 - 1.

(** Signed 64-bit wrap-around: the value an [int64] expression holds. *)
Definition wrap64 (x : Z) : Z := (x + 2 ^ 63) mod 2 ^ 64 - 2 ^ 63.

(** The conversions [uint32(x)], [uint16(x)] and [byte(x)]. *)
Definition uint32 (x : Z) : Z := x mod 2 ^ 32.
Definition uint16 (x : Z) : Z := x mod 2 ^ 16.
Definition uint8 (x : Z) : Z := x mod 2 ^ 8.

Definition in_int64 (x : Z) : Prop := min_int64 <= x <= max_int64.
Definition in_uint32 (x : Z) : Prop := 0 <= x < 2 ^ 32.

(** [cmp.Compare(x, y)] on integers. *)
Definition Compare (x y : Z) : Z :=
  if decide (x < y) then -1 else if decide (x = y) then 0 else 1.

End GoInt.

(** ** Go's [sort.Find]

    The binary search of the Go standard library, which
    [findByVotingRoundId] calls:
<<
    i, j := 0, n
    for i < j {
        h := int(uint(i+j) >> 1)
        if cmp(h) > 0 { i = h + 1 } else { j = h }
    }
    return i, i < n && cmp(i) == 0
>>
    The comparison is a closure that indexes a slice, so it may panic:
    [None] is that panic. *)
Module GoSort.

Equations? Find_loop (cmp : nat -> option Z) (i j : nat) : option nat
  by wf (j - i)%nat lt :=
Find_loop cmp i j with decide (i < j)%nat => {
  | left _ with cmp ((i + j) / 2)%nat => {
      | None := None;
      | Some c with decide (0 < c) => {
          | left _ := Find_loop cmp ((i + j) / 2 + 1)%nat j;
          | right _ := Find_loop cmp i ((i + j) / 2)%nat } };
  | right _ := Some i }.
Proof.
  - pose proof (Nat.div_mod_eq (i + j) 2).
    pose proof (Nat.mod_upper_bound (i + j) 2). lia.
  - pose proof (Nat.div_mod_eq (i + j) 2).
    pose proof (Nat.mod_upper_bound (i + j) 2). lia.
Qed.

Definition Find (n : nat) (cmp : nat -> option Z) : option (nat * bool) :=
  i ← Find_loop cmp 0%nat n;
  if decide (i < n)%nat
  then c ← cmp i; Some (i, bool_decide (c = 0))
  else Some (i, false).

End GoSort.

(** ** client/finalizer/signing_policy_storage.go *)
Module Finalizer.
Import GoInt.

(** [common.Address] is a 20-byte array; it is kept as the 160-bit number
    those bytes spell, which is all that map keys need. *)
Definition Address : Type := N.

Record signingPolicy : Type := {
  rewardEpochId : Z;        (* int64 *)
  startVotingRoundId : Z;   (* uint32 *)
  threshold : Z;            (* uint16 *)
  seed : Z;                 (* *big.Int *)
  voters : list Address;
  weights : list Z;         (* []uint16 *)
  rawBytes : list Z;
  blockTimestamp : Z        (* uint64 *)
}.

Record voterData : Type := { index : Z; weight : Z }.

Record signingPolicyStorage : Type := {
  spList : list signingPolicy;
  voterMap : gmap Z (gmap N voterData)
}.

Definition newSigningPolicyStorage : signingPolicyStorage :=
  {| spList := []; voterMap := ∅ |}.

(** How a call that can fail ends: normally, with a returned [error], or
    with a runtime panic. *)
Inductive outcome : Type :=
| Ok
| Err (msg : string)
| Panic.

(** The values an [int64] field and a [uint32] field can hold. *)
Definition wf_policy (sp : signingPolicy) : Prop :=
  in_int64 (rewardEpochId sp) /\ in_uint32 (startVotingRoundId sp).

(** [findByVotingRoundId]: the outer [None] is a panic, the inner one the
    [nil] result. *)
Definition findByVotingRoundId (l : list signingPolicy) (votingRoundId : Z)
  : option (option signingPolicy) :=
  match GoSort.Find (length l)
          (fun i => p ← l !! i;
                    Some (Compare votingRoundId (startVotingRoundId p))) with
  | None => None
  | Some (i, found) =>
      if found then p ← l !! i; Some (Some p)
      else if decide (i = 0%nat) then Some None
      else p ← l !! (i - 1)%nat; Some (Some p)
  end.

Definition GetForVotingRound (s : signingPolicyStorage) (votingRoundId : Z)
  : option (option signingPolicy) :=
  findByVotingRoundId (spList s) votingRoundId.

Definition First (s : signingPolicyStorage) : option signingPolicy :=
  head (spList s).

Definition err_missing (sp : signingPolicy) : string :=
  "missing signing policy for reward epoch id "
    +:+ pretty (wrap64 (rewardEpochId sp - 1)).

Definition err_unsorted (sp : signingPolicy) : string :=
  "signing policy for reward epoch id " +:+ pretty (rewardEpochId sp)
    +:+ " has larger start voting round id than previous policy".

(** The consistency checks at the head of [Add]: [Some msg] is the error
    returned, [None] lets the policy through. *)
Definition checkConsistency (l : list signingPolicy) (sp : signingPolicy)
  : option string :=
  match last l with
  | Some prev =>
      if decide (rewardEpochId prev ≠ wrap64 (rewardEpochId sp - 1))
      then Some (err_missing sp)
      else if decide (startVotingRoundId sp < startVotingRoundId prev)
      then Some (err_unsorted sp)
      else None
  | None => None
  end.

(** The loop of [Add] over [sp.voters], from index [i] on.  The flag is
    [false] when [sp.weights[i]] is out of range: the loop stops there with
    a panic, and the map holds what was written before. *)
Fixpoint indexVoters (ws : list Z) (i : nat) (vs : list Address)
    (vMap : gmap N voterData) : gmap N voterData * bool :=
  match vs with
  | [] => (vMap, true)
  | voter :: rest =>
      match vMap !! voter with
      | Some _ => indexVoters ws (S i) rest vMap
      | None =>
          match ws !! i with
          | Some w =>
              indexVoters ws (S i) rest
                (<[voter := {| index := Z.of_nat i; weight := w |}]> vMap)
          | None => (vMap, false)
          end
      end
  end.

Definition Add (s : signingPolicyStorage) (sp : signingPolicy)
  : signingPolicyStorage * outcome :=
  match checkConsistency (spList s) sp with
  | Some msg => (s, Err msg)
  | None =>
      let '(vMap, completed) := indexVoters (weights sp) 0 (voters sp) ∅ in
      ({| spList := spList s ++ [sp];
          voterMap := <[rewardEpochId sp := vMap]> (voterMap s) |},
       if completed then Ok else Panic)
  end.

(** The loop of [RemoveByVotingRound]. *)
Fixpoint removeLoop (votingRoundId : Z) (l : list signingPolicy)
    (vm : gmap Z (gmap N voterData)) (removed : list Z)
  : list signingPolicy * gmap Z (gmap N voterData) * list Z :=
  match l with
  | sp :: rest =>
      if decide (startVotingRoundId sp <= votingRoundId)
      then removeLoop votingRoundId rest (delete (rewardEpochId sp) vm)
             (removed ++ [uint32 (rewardEpochId sp)])
      else (l, vm, removed)
  | [] => (l, vm, removed)
  end.

Definition RemoveByVotingRound (s : signingPolicyStorage) (votingRoundId : Z)
  : signingPolicyStorage * list Z :=
  let '(l, vm, removed) := removeLoop votingRoundId (spList s) (voterMap s) [] in
  ({| spList := l; voterMap := vm |}, removed).

End Finalizer.

(** ** The shared retry harness ([ExecuteWithRetry]) *)
Module Shared.

(** [TxRetryInterval = 5 * time.Second], in nanoseconds, and
    [MaxTxSendRetries]. *)
Definition TxRetryInterval : Z := 5 * 1000000000.
Definition MaxTxSendRetries : Z := 1.

Record ExecuteStatus : Type := { Success : bool; Message : string }.

(** What the goroutine started by [ExecuteWithRetry] does, in order: calls
    of [f] (with the retry number), the error logged after a failed call,
    sleeps, and sends on the channel [out]. *)
Inductive event : Type :=
| EvCall (ri : Z)
| EvLogError (ri : Z) (err : string)
| EvSleep (d : Z)
| EvSend (st : ExecuteStatus).

Section Retry.

(** The state [f] acts on (the chain, the network), and [f] itself:
    [None] is a [nil] error. *)
Context {W : Type}.
Variable f : W -> W * option string.

(** The loop [for ri := 0; ri < maxRetries; ri++] with [n] iterations
    left. *)
Fixpoint retryLoop (n : nat) (ri : Z) (w : W) : W * list event :=
  match n with
  | O =>
      (w, [EvSend {| Success := false; Message := "max retries reached" |}])
  | S n' =>
      let '(w1, err) := f w in
      match err with
      | None => (w1, [EvCall ri; EvSend {| Success := true; Message := "" |}])
      | Some e =>
          let '(w2, tr) := retryLoop n' (ri + 1) w1 in
          (w2, EvCall ri :: EvLogError ri e :: EvSleep TxRetryInterval :: tr)
      end
  end.

Definition ExecuteWithRetry (maxRetries : Z) (w : W) : W * list event :=
  retryLoop (Z.to_nat maxRetries) 0 w.

End Retry.

(** Observations on a trace: the values sent on the channel, the number of
    calls of [f], and the sleeps. *)
Definition sends (tr : list event) : list ExecuteStatus :=
  omap (fun e => match e with EvSend st => Some st | _ => None end) tr.

Definition calls (tr : list event) : list Z :=
  omap (fun e => match e with EvCall ri => Some ri | _ => None end) tr.

Definition sleeps (tr : list event) : list Z :=
  omap (fun e => match e with EvSleep d => Some d | _ => None end) tr.

(** [<-ch] on the returned channel: the first value sent. *)
Definition recv (tr : list event) : option ExecuteStatus := head (sends tr).

End Shared.

(** ** Go byte slices

    A slice is a window on a backing array: [arr] is that array from the
    slice's first element on, so [cap = length arr], and the slice shows
    its first [len] elements.  The language specification bounds a slice
    expression on a slice by the capacity, not the length ("for slices,
    the upper index bound is the slice capacity cap(a) rather than the
    length"), and lets [append] write in place when the capacity
    suffices. *)
Module GoSlice.

Record slice : Type := { arr : list Z; len : nat }.

Definition cap (s : slice) : nat := length (arr s).

(** A slice value is well formed when [len <= cap]. *)
Definition slice_ok (s : slice) : Prop := (len s <= cap s)%nat.

(** The elements the slice shows. *)
Definition bytes (s : slice) : list Z := take (len s) (arr s).

(** A slice with no spare capacity, as [[]byte(...)] or a literal
    gives. *)
Definition of_bytes (b : list Z) : slice := {| arr := b; len := length b |}.

(** [s[lo:hi]], read as the bytes of the resulting slice; [None] is the
    "slice bounds out of range" panic. *)
Definition subslice (s : slice) (lo hi : nat) : option (list Z) :=
  if decide (lo <= hi <= cap s)%nat
  then Some (take (hi - lo) (drop lo (arr s)))
  else None.

(** [append(s, make([]byte, n)...)].  When the capacity suffices the
    zeros overwrite the backing array in place; otherwise a new array is
    allocated, zeroed beyond the copied elements.  Its capacity is chosen
    by the runtime ([grow oldcap needed]) and is at least the length
    needed. *)
Definition append_zeros (grow : nat -> nat -> nat) (s : slice) (n : nat)
  : slice :=
  if decide (len s + n <= cap s)%nat
  then {| arr := take (len s) (arr s) ++ replicate n 0
                   ++ drop (len s + n) (arr s);
          len := len s + n |}
  else {| arr := take (len s) (arr s)
                   ++ replicate
                        (Nat.max (len s + n) (grow (cap s) (len s + n))
                           - len s)%nat 0;
          len := len s + n |}.

End GoSlice.

(** ** The registration client's [SigningPolicyHash] *)
Module Registration.
Import GoSlice.

Section Hash.

(** [keccak256] of a byte string, and the runtime's choice of capacity
    when [append] reallocates. *)
Variable keccak256 : list Z -> list Z.
Variable grow : nat -> nat -> nat.

(** [crypto.Keccak256(data ...[]byte)] hashes its arguments one after the
    other, that is, their concatenation. *)
Definition Keccak256 (data : list (list Z)) : list Z :=
  keccak256 (concat data).

(** The padding step: [if len(signingPolicy)%32 != 0 { append ... }]. *)
Definition padded (signingPolicy : slice) : slice :=
  if decide ((len signingPolicy mod 32)%nat ≠ 0%nat)
  then append_zeros grow signingPolicy (32 - len signingPolicy mod 32)%nat
  else signingPolicy.

(** The loop [for i := 2; i < len(signingPolicy)/32; i++] with [n]
    iterations left. *)
Fixpoint hashLoop (signingPolicy : slice) (n i : nat) (hash : list Z)
  : option (list Z) :=
  match n with
  | O => Some hash
  | S n' =>
      tile ← subslice signingPolicy (i * 32) ((i + 1) * 32);
      hashLoop signingPolicy n' (S i) (Keccak256 [hash; tile])
  end.

(** [None] is a panic. *)
Definition SigningPolicyHash (signingPolicy : slice) : option (list Z) :=
  let signingPolicy := padded signingPolicy in
  t0 ← subslice signingPolicy 0 32;
  t1 ← subslice signingPolicy 32 64;
  hashLoop signingPolicy (len signingPolicy / 32 - 2) 2 (Keccak256 [t0; t1]).

(** *** The hash as the specification words it

    "Let policy be the canonical bytes, zero-padded to a multiple of 32.
     h := keccak256(policy[0..32] || policy[32..64]);
     for i in 2..(|policy|/32): h := keccak256(h || policy[i*32..(i+1)*32])". *)
Definition zero_pad (policy : list Z) : list Z :=
  policy ++ replicate ((32 - length policy mod 32) mod 32)%nat 0.

Definition tile (policy : list Z) (i : nat) : list Z :=
  take 32 (drop (i * 32) policy).

Definition tiled_hash_spec (policy : list Z) : list Z :=
  let p := zero_pad policy in
  foldl (fun h i => keccak256 (h ++ tile p i))
        (keccak256 (tile p 0 ++ tile p 1))
        (seq 2 (length p / 32 - 2)).

End Hash.

End Registration.

(** ** client/protocol: submitters, the payload codec and the client *)
Module Protocol.
Import GoInt.

(** Modelled from the spec: [shared.Uint32toBytes] and
    [shared.Uint16toBytes] are not among the sources; the entry layout of
    the specification gives every field wider than one byte as
    big-endian. *)
Definition Uint32toBytes (x : Z) : list Z :=
  [x / 2 ^ 24 mod 256; x / 2 ^ 16 mod 256; x / 2 ^ 8 mod 256; x mod 256].

Definition Uint16toBytes (x : Z) : list Z := [x / 2 ^ 8 mod 256; x mod 256].

(** Reading a big-endian field back. *)
Definition be_decode (field : list Z) : Z :=
  foldl (fun acc b => acc * 256 + b) 0 field.

(** A configured sub-protocol ([protocol.<name>]: [id], [api_endpoint]). *)
Record SubProtocol : Type := { protocolId : Z; apiEndpoint : string }.

Record SubProtocolResponse : Type := {
  Status : string;
  Data : list Z;
  AdditionalData : list Z
}.

(** [shared.ExecuteStatus[*SubProtocolResponse]], as read from the channel
    that [getDataWithRetry] returns. *)
Record FetchStatus : Type := {
  fetchSuccess : bool;
  fetchMessage : string;
  Value : SubProtocolResponse
}.

Record SubmitConfig : Type := { StartOffset : Z; TxSubmitRetries : Z }.

Record SubmitSignaturesConfig : Type := {
  SigStartOffset : Z;
  SigTxSubmitRetries : Z;
  DataFetchRetries : Z;
  MaxRounds : Z
}.

(** The handles [ethClient], [protocolContext] and [epoch] of the Go
    struct reach outside the process; their effects are the parameters of
    section [Submitters] below, and the constructors take the remaining
    arguments. *)
Record SubmitterBase : Type := {
  selector : list Z;
  subProtocols : list SubProtocol;
  startOffset : Z;
  submitRetries : Z;
  name : string
}.

Record Submitter : Type := { base : SubmitterBase; epochOffset : Z }.

Record SignatureSubmitter : Type := {
  sigBase : SubmitterBase;
  maxRounds : Z;
  dataFetchRetries : Z
}.

Definition newSubmitter (submitCfg : SubmitConfig) (sel : list Z)
    (protocols : list SubProtocol) (offset : Z) (nm : string) : Submitter :=
  {| base := {| selector := sel;
                subProtocols := protocols;
                startOffset := StartOffset submitCfg;
                submitRetries := Z.max 1 (TxSubmitRetries submitCfg);
                name := nm |};
     epochOffset := offset |}.

Definition newSignatureSubmitter (submitCfg : SubmitSignaturesConfig)
    (sel : list Z) (protocols : list SubProtocol) : SignatureSubmitter :=
  {| sigBase := {| selector := sel;
                   subProtocols := protocols;
                   startOffset := SigStartOffset submitCfg;
                   submitRetries := Z.max 1 (SigTxSubmitRetries submitCfg);
                   name := "submitSignatures" |};
     maxRounds := MaxRounds submitCfg;
     dataFetchRetries := DataFetchRetries submitCfg |}.

(** What a submitter does that an observer of the process sees. *)
Inductive SubmitterEvent : Type :=
| EvFetch (i : nat) (votingRound : Z)
| EvSubmit (payload : list Z) (ok : bool)
| EvNoNewData.

(** The interface [EpochRunner] (its ticker is the input of [Run]
    below). *)
Class EpochRunner (R W : Type) : Type := { RunEpoch : R -> Z -> W -> W }.

Section Submitters.

(** The world outside: the chain and the providers.  [SendRawTx] is
    [chain.SendRawTx] with the submitter's key and contract;
    [getDataWithRetry protocol votingRound submitName maxRetries] is the
    value read from the channel of [SubProtocol.getDataWithRetry], which
    is defined elsewhere in the package; [Sign], [TextHash] and
    [keccak256] are go-ethereum's [crypto.Sign] with the signer's key,
    [accounts.TextHash] and [crypto.Keccak256]. *)
Context {W : Type}.
Variable SendRawTx : list Z -> W -> W * option string.
Variable getDataWithRetry :
  SubProtocol -> Z -> string -> Z -> W -> W * FetchStatus.
Variable Sign : list Z -> option (list Z).
Variable TextHash : list Z -> list Z.
Variable keccak256 : list Z -> list Z.

(** [submit]: the transaction is sent through the retry harness; the
    interval passed at the call is [shared.TxRetryInterval], the one the
    harness sleeps.  The result is the [Success] of the status read from
    the channel (the harness always sends one). *)
Definition submit (s : SubmitterBase) (payload : list Z) (w : W) : W * bool :=
  let '(w', tr) :=
    Shared.ExecuteWithRetry
      (fun w0 =>
         let '(w1, err) := SendRawTx payload w0 in
         (w1, (fun e => "error sending submit tx for submitter " +:+ name s
                          +:+ " tx: " +:+ e) <$> err))
      (submitRetries s) w in
  (w', from_option Shared.Success false (Shared.recv tr)).

(** *** The plain submitter *)

(** First loop of [GetPayload]: one fetch per sub-protocol. *)
Fixpoint getAll (s : Submitter) (currentEpoch : Z) (ps : list SubProtocol)
    (w : W) : W * list FetchStatus :=
  match ps with
  | [] => (w, [])
  | protocol :: rest =>
      let '(w1, r) :=
        getDataWithRetry protocol (wrap64 (currentEpoch + epochOffset s))
          (name (base s)) 1 w in
      let '(w2, rs) := getAll s currentEpoch rest w1 in
      (w2, r :: rs)
  end.

(** Second loop of [GetPayload]. *)
Fixpoint writeAll (channels : list FetchStatus) (buffer : list Z) : list Z :=
  match channels with
  | [] => buffer
  | data :: rest =>
      if negb (fetchSuccess data)
         || negb (bool_decide (Status (Value data) = "OK"))
      then writeAll rest buffer
      else writeAll rest (buffer ++ Data (Value data))
  end.

Definition GetPayload (s : Submitter) (currentEpoch : Z) (w : W)
  : W * list Z :=
  let '(w1, channels) := getAll s currentEpoch (subProtocols (base s)) w in
  (w1, writeAll channels (selector (base s))).

Definition Submitter_RunEpoch (s : Submitter) (currentEpoch : Z) (w : W) : W :=
  let '(w1, payload) := GetPayload s currentEpoch w in
  (submit (base s) payload w1).1.

(** *** The signature submitter *)

(** [WritePayload]: the buffer after the call and the error returned.
    [crypto.Sign] returns the 65 bytes [R || S || V] when it returns no
    error, so the indices below are in range. *)
Definition WritePayload (buffer : list Z) (currentEpoch : Z)
    (data : SubProtocolResponse) : list Z * option string :=
  let dataHash := TextHash (keccak256 (Data data)) in
  match Sign dataHash with
  | None => (buffer, Some "error signing submitSignatures data")
  | Some signature =>
      let epochBytes := Uint32toBytes (uint32 (wrap64 (currentEpoch - 1))) in
      let lengthBytes :=
        Uint16toBytes (uint16 (104 + Z.of_nat (length (AdditionalData data)))) in
      (buffer ++ [100] ++ epochBytes ++ lengthBytes
         ++ [0] ++ Data data
         ++ [uint8 (default 0 (signature !! 64%nat) + 27)]
         ++ take 32 signature
         ++ take 32 (drop 32 signature)
         ++ AdditionalData data,
       None)
  end.

(** The call of [WritePayload] in [RunEpoch]:
    [s.WritePayload(buffer, currentEpoch-1, data.Value)]. *)
Definition includeResponse (buffer : list Z) (currentEpoch : Z)
    (data : FetchStatus) : list Z * option string :=
  WritePayload buffer (wrap64 (currentEpoch - 1)) (Value data).

(** The variables of [RunEpoch] that live across rounds, and the events so
    far.  A channel not yet assigned is [None]. *)
Record RoundState : Type := {
  world : W;
  protocolsToSend : gset nat;
  channels : list (option FetchStatus);
  trace : list SubmitterEvent
}.

(** First inner loop: a fetch for every outstanding sub-protocol. *)
Fixpoint launchFetches (s : SignatureSubmitter) (currentEpoch : Z) (i : nat)
    (ps : list SubProtocol) (st : RoundState) : RoundState :=
  match ps with
  | [] => st
  | protocol :: rest =>
      if decide (i ∈ protocolsToSend st)
      then
        let '(w1, r) :=
          getDataWithRetry protocol (wrap64 (currentEpoch - 1))
            "submitSignatures" (dataFetchRetries s) (world st) in
        launchFetches s currentEpoch (S i) rest
          {| world := w1;
             protocolsToSend := protocolsToSend st;
             channels := <[i := Some r]> (channels st);
             trace := trace st ++ [EvFetch i (wrap64 (currentEpoch - 1))] |}
      else launchFetches s currentEpoch (S i) rest st
  end.

(** Second inner loop: in sub-protocol order, every outstanding response
    that arrived and was written is removed from the set.  Reading a
    channel that was never assigned would block; the first loop assigns
    every channel read here. *)
Fixpoint collectPayloads (currentEpoch : Z) (i : nat) (ps : list SubProtocol)
    (chans : list (option FetchStatus)) (toSend : gset nat) (buffer : list Z)
  : gset nat * list Z :=
  match ps with
  | [] => (toSend, buffer)
  | _ :: rest =>
      if decide (i ∈ toSend)
      then
        match chans !! i with
        | Some (Some data) =>
            if fetchSuccess data
            then
              let '(buffer1, err) := includeResponse buffer currentEpoch data in
              match err with
              | None =>
                  collectPayloads currentEpoch (S i) rest chans
                    (toSend ∖ {[i]}) buffer1
              | Some _ =>
                  collectPayloads currentEpoch (S i) rest chans toSend buffer1
              end
            else collectPayloads currentEpoch (S i) rest chans toSend buffer
        | _ => collectPayloads currentEpoch (S i) rest chans toSend buffer
        end
      else collectPayloads currentEpoch (S i) rest chans toSend buffer
  end.

(** One iteration of the round loop. *)
Definition runRound (s : SignatureSubmitter) (currentEpoch : Z)
    (st : RoundState) : RoundState :=
  let st1 := launchFetches s currentEpoch 0 (subProtocols (sigBase s)) st in
  let protocolsToSendCopy := protocolsToSend st1 in
  let '(toSend, buffer) :=
    collectPayloads currentEpoch 0 (subProtocols (sigBase s)) (channels st1)
      (protocolsToSend st1) (selector (sigBase s)) in
  if decide (size toSend < size protocolsToSendCopy)%nat
  then
    let '(w1, ok) := submit (sigBase s) buffer (world st1) in
    {| world := w1;
       protocolsToSend := if ok then toSend else protocolsToSendCopy;
       channels := channels st1;
       trace := trace st1 ++ [EvSubmit buffer ok] |}
  else
    {| world := world st1;
       protocolsToSend := toSend;
       channels := channels st1;
       trace := trace st1 ++ [EvNoNewData] |}.

(** [for i := 0; i < s.maxRounds && protocolsToSend.Cardinality() > 0; i++]
    with [n] rounds left. *)
Fixpoint roundLoop (s : SignatureSubmitter) (currentEpoch : Z) (n : nat)
    (st : RoundState) : RoundState :=
  match n with
  | O => st
  | S n' =>
      if decide (0 < size (protocolsToSend st))%nat
      then roundLoop s currentEpoch n' (runRound s currentEpoch st)
      else st
  end.

Definition SignatureSubmitter_RunEpoch (s : SignatureSubmitter)
    (currentEpoch : Z) (w : W) : RoundState :=
  roundLoop s currentEpoch (Z.to_nat (maxRounds s))
    {| world := w;
       protocolsToSend :=
         list_to_set (seq 0 (length (subProtocols (sigBase s))));
       channels := replicate (length (subProtocols (sigBase s))) None;
       trace := [] |}.

#[export] Instance Submitter_EpochRunner : EpochRunner Submitter W :=
  {| RunEpoch := Submitter_RunEpoch |}.

#[export] Instance SignatureSubmitter_EpochRunner
  : EpochRunner SignatureSubmitter W :=
  {| RunEpoch := fun s e w => world (SignatureSubmitter_RunEpoch s e w) |}.

End Submitters.

(** *** The run loop [Run(r, stopAt, lastEpoch)]

    The loop reads two channels in a [select]; the list of inputs is the
    sequence of values it receives, in the order the [select] takes them.
    The outputs are the values sent on [lastEpoch], the epochs run and
    the exit of the loop. *)
Inductive RunInput : Type :=
| StopAt (stopAfterEpoch : Z)
| Tick (epoch : Z).

Inductive RunOutput : Type :=
| SentLastEpoch (epoch : Z)
| RanEpoch (epoch : Z)
| Stopped.

Section RunLoop.

Context {R W : Type} `{!EpochRunner R W}.

(** The body of [for { ... }], from the loop head, with the inputs still
    to come.  The flag tells whether the loop was left ([break]); with no
    input left and no exit the loop is waiting in its [select]. *)
Fixpoint runLoop (r : R) (inputs : list RunInput) (epoch stopAfterEpoch : Z)
    (w : W) : W * list RunOutput * bool :=
  if decide (stopAfterEpoch <= epoch)
  then (w, [SentLastEpoch epoch; Stopped], true)
  else
    match inputs with
    | [] => (w, [], false)
    | StopAt k :: rest =>
        let '(w1, out, exited) := runLoop r rest epoch k w in
        (w1, SentLastEpoch epoch :: out, exited)
    | Tick e :: rest =>
        let '(w1, out, exited) :=
          runLoop r rest e stopAfterEpoch (RunEpoch r e w) in
        (w1, RanEpoch e :: out, exited)
    end.

Definition Run (r : R) (inputs : list RunInput) (w : W)
  : W * list RunOutput * bool :=
  runLoop r inputs 0 max_int64 w.

End RunLoop.

(** The values sent on [lastEpoch] and the epochs run, in order. *)
Definition published (out : list RunOutput) : list Z :=
  omap (fun o => match o with SentLastEpoch e => Some e | _ => None end) out.

Definition ran (out : list RunOutput) : list Z :=
  omap (fun o => match o with RanEpoch e => Some e | _ => None end) out.

End Protocol.

(** ** client/protocol: [ProtocolClient] *)
Module Client.
Import Protocol.

Record contractSelectors : Type := {
  submit1 : list Z;
  submit2 : list Z;
  submit3 : list Z;
  submitSignatures : list Z
}.

(** The fields of the client configuration that [NewProtocolClient]
    reads. *)
Record ClientConfig : Type := {
  EnabledProtocolVoting : bool;
  ProtocolCfg : list SubProtocol;
  Submit1 : SubmitConfig;
  Submit2 : SubmitConfig;
  SignatureSubmitterCfg : SubmitSignaturesConfig
}.

Record ProtocolClient : Type := {
  clientSubProtocols : list SubProtocol;
  submitter1 : Submitter;
  submitter2 : Submitter;
  signatureSubmitter : SignatureSubmitter
}.

(** A goroutine started by [go x.Run()]. *)
Inductive goroutine : Type :=
| GoSubmitterRun (s : Submitter)
| GoSignatureSubmitterRun (s : SignatureSubmitter).

Section NewClient.

(** The constructors that reach outside the process, each by the error it
    returns ([None] is [nil]), and the selectors that
    [newContractSelectors] reads from the contract's ABI (it panics when
    the ABI cannot be read; the client is then never built). *)
Variable DialETH : ClientConfig -> option string.
Variable NewFlareSystemManager : ClientConfig -> option string.
Variable VotingEpochFromChain : ClientConfig -> option string.
Variable newProtocolCredentials : ClientConfig -> option string.
Variable newProtocolAddresses : ClientConfig -> option string.
Variable selectors : contractSelectors.

(** The client and the error returned; both are [None] when protocol
    voting is disabled ([return nil, nil]). *)
Definition NewProtocolClient (cfg : ClientConfig)
  : option ProtocolClient * option string :=
  if negb (EnabledProtocolVoting cfg) then (None, None)
  else
    match DialETH cfg with
    | Some err => (None, Some err)
    | None =>
    match NewFlareSystemManager cfg with
    | Some err =>
        (None, Some ("error creating system manager contract: " +:+ err))
    | None =>
    match VotingEpochFromChain cfg with
    | Some err => (None, Some ("error getting voting epoch: " +:+ err))
    | None =>
    match newProtocolCredentials cfg with
    | Some err => (None, Some err)
    | None =>
    match newProtocolAddresses cfg with
    | Some err => (None, Some err)
    | None =>
        let protocols := ProtocolCfg cfg in
        (Some
           {| clientSubProtocols := protocols;
              submitter1 :=
                newSubmitter (Submit1 cfg) (submit1 selectors) protocols
                  0 "submit1";
              submitter2 :=
                newSubmitter (Submit2 cfg) (submit2 selectors) protocols
                  (-1) "submit2";
              signatureSubmitter :=
                newSignatureSubmitter (SignatureSubmitterCfg cfg)
                  (submitSignatures selectors) protocols |},
         None)
    end end end end end.

End NewClient.

(** [ProtocolClient.Run]: the goroutines it starts, in order, and the
    error it returns. *)
Definition Run (c : ProtocolClient) : list goroutine * option string :=
  ([GoSubmitterRun (submitter1 c);
    GoSubmitterRun (submitter2 c);
    GoSignatureSubmitterRun (signatureSubmitter c)],
   None).

(** The plain submitters among started goroutines. *)
Definition plainSubmitters (gs : list goroutine) : list Submitter :=
  omap (fun g => match g with GoSubmitterRun s => Some s | _ => None end) gs.

Definition signatureSubmitters (gs : list goroutine)
  : list SignatureSubmitter :=
  omap (fun g =>
          match g with GoSignatureSubmitterRun s => Some s | _ => None end) gs.

End Client.

(** * Further code

    More of the same sources, and their callers:
      - [signingPolicy.Encode] of client/finalizer/signing_policy_storage.go
      - [ExistsAsSubstring] of the shared package
      - [sendSignNewSigningPolicy] of the registration client's
        systems-manager calls
      - [RunContext] and [verifyEpoch] of
        client/registration/registration_client.go *)

(** ** client/finalizer: the encoding of a signing policy *)
Module Encoding.
Import GoInt Finalizer Protocol.

(** The [n] low bytes of [x], most significant first. *)
Fixpoint be_bytes (n : nat) (x : Z) : list Z :=
  match n with
  | O => []
  | S n' => be_bytes n' (x / 256) ++ [x mod 256]
  end.

(** [big.Int.Bytes]: "the absolute value of x as a big-endian byte
    slice", with no leading zero byte (no byte at all for 0). *)
Definition byteLen (x : Z) : nat :=
  if decide (x = 0) then 0%nat else Z.to_nat (Z.log2 (Z.abs x) / 8 + 1).

Definition BigIntBytes (x : Z) : list Z := be_bytes (byteLen x) (Z.abs x).

(** [common.Address.Bytes]: the 20 bytes of the address. *)
Definition AddressBytes (a : Address) : list Z := be_bytes 20 (Z.of_N a).

(** The loop of [Encode] over the voters, from index [i] on; [None] is
    the index-out-of-range panic of [s.weights[i]], which is evaluated
    before the voter is written. *)
Fixpoint encodeVoters (ws : list Z) (i : nat) (vs : list Address)
    (buffer : list Z) : option (list Z) :=
  match vs with
  | [] => Some buffer
  | voter :: rest =>
      match ws !! i with
      | Some w =>
          encodeVoters ws (S i) rest
            (buffer ++ AddressBytes voter ++ Uint16toBytes w)
      | None => None
      end
  end.

(** [Encode]: the bytes returned (the error returned is always [nil]);
    [None] is a panic.  The seed of a policy made by [newSigningPolicy]
    from a parsed event is not a nil pointer. *)
Definition Encode (s : signingPolicy) : option (list Z) :=
  let size := length (voters s) in
  let sizeBytes := Uint16toBytes (uint16 (Z.of_nat size)) in
  let epochBytes := Uint32toBytes (uint32 (rewardEpochId s)) in
  let startVotingRoundBytes := Uint32toBytes (startVotingRoundId s) in
  let thresholdBytes := Uint16toBytes (threshold s) in
  encodeVoters (weights s) 0 (voters s)
    (sizeBytes ++ epochBytes ++ startVotingRoundBytes ++ thresholdBytes
       ++ BigIntBytes (seed s)).

End Encoding.

(** ** package clients: [ExistsAsSubstring] *)
Module Clients.

(** [strings.Contains(s, substr)]: [substr] occurs in [s]. *)
Fixpoint Contains (s substr : string) : bool :=
  String.prefix substr s
  || match s with
     | EmptyString => false
     | String _ rest => Contains rest substr
     end.

(** [for _, item := range slice { if strings.Contains(s, item) { return
    true } }; return false]. *)
Fixpoint ExistsAsSubstring (slice : list string) (s : string) : bool :=
  match slice with
  | [] => false
  | item :: rest =>
      if Contains s item then true else ExistsAsSubstring rest s
  end.

End Clients.

(** ** The registration client's systems-manager calls *)
Module SystemsManager.
Import GoInt GoSlice Registration Clients.

Definition nonFatalSignNewSigningPolicyErrors : list string :=
  ["new signing policy already signed"].

(** [system.IFlareSystemManagerSignature], with its fields [R], [S] and
    [V]. *)
Record Signature : Type := { sigR : list Z; sigS : list Z; sigV : Z }.

(** How a call ends: it returns an error ([None] is [nil]) or it
    panics. *)
Inductive result : Type :=
| Returned (err : option string)
| Panicked.

Section Send.

(** The world outside: the chain.  [Sign] is [crypto.Sign] with the
    signer's key, returning the 65 bytes [R || S || V] or an error;
    [ContractSignNewSigningPolicy] is the call of the contract binding
    with the sender's options, returning the transaction or an error;
    [WaitUntilMined] is [txVerifier.WaitUntilMined] for the sender and the
    default timeout.  [crypto.Keccak256] returns 32 bytes, so the
    conversion of the hash to [[32]byte] keeps them all. *)
Context {W Tx : Type}.
Variable keccak256 : list Z -> list Z.
Variable grow : nat -> nat -> nat.
Variable Sign : list Z -> list Z + string.
Variable TextHash : list Z -> list Z.
Variable ContractSignNewSigningPolicy :
  Z -> list Z -> Signature -> W -> W * (Tx + string).
Variable WaitUntilMined : Tx -> W -> W * option string.

Definition sendSignNewSigningPolicy (rewardEpochId : Z)
    (signingPolicy : slice) (w : W) : W * result :=
  match SigningPolicyHash keccak256 grow signingPolicy with
  | None => (w, Panicked)
  | Some newSigningPolicyHash =>
      match Sign (TextHash newSigningPolicyHash) with
      | inr err => (w, Returned (Some err))
      | inl hashSignature =>
          let signature :=
            {| sigR := take 32 hashSignature;
               sigS := take 32 (drop 32 hashSignature);
               sigV := uint8 (default 0 (hashSignature !! 64%nat) + 27) |} in
          match ContractSignNewSigningPolicy rewardEpochId
                  newSigningPolicyHash signature w with
          | (w1, inr err) =>
              if ExistsAsSubstring nonFatalSignNewSigningPolicyErrors err
              then (w1, Returned None)
              else (w1, Returned (Some err))
          | (w1, inl tx) =>
              let '(w2, err) := WaitUntilMined tx w1 in
              (w2, Returned err)
          end
      end
  end.

End Send.

End SystemsManager.

(** ** client/registration: the registration client's loop *)
Module RegistrationClient.
Import Finalizer.

(** The fields read of the events [VotePowerBlockSelected] and
    [SigningPolicyInitialized]. *)
Record VotePowerBlockSelected : Type := {
  RewardEpochId : Z;      (* *big.Int *)
  Timestamp : Z           (* uint64 *)
}.

Record SigningPolicyInitialized : Type := {
  PolicyRewardEpochId : Z;       (* *big.Int *)
  SigningPolicyBytes : list Z
}.

(** What the [select] at the head of the loop receives: an event from the
    channel of [VotePowerBlockSelectedListener], or the end of the
    context. *)
Inductive LoopInput : Type :=
| Selected (powerBlockData : VotePowerBlockSelected)
| CtxDone.

(** The calls the loop makes, with what they returned. *)
Inductive Action : Type :=
| DidGetCurrentRewardEpochId (epochId : Z) (current : option Z)
| DidRegisterVoter (epochId : Z) (address : Address) (success : bool)
| DidAwaitSigningPolicy (timestamp : Z)
    (signingPolicy : option SigningPolicyInitialized)
| DidSignNewSigningPolicy (epochId : Z) (policy : list Z) (success : bool).

(** How a run stands when its inputs are used up: it returned an error,
    it returned [ctx.Err()], it waits in the [select], or it waits for a
    [SigningPolicyInitialized] event that does not come. *)
Inductive Exit : Type :=
| ExitError (err : string)
| ExitCancelled
| WaitingForEvent
| WaitingForSigningPolicy.

Section Run.

(** The clients of the three contracts.  Each call is the value read from
    the channel it returns: [GetCurrentRewardEpochId] gives the epoch id
    when the status is a success; [SigningPolicyInitializedListener] gives
    the event, or nothing when none is ever sent. *)
Context {W : Type}.
Variable RewardEpochFromChain : W -> W * option string.
Variable GetCurrentRewardEpochId : W -> W * option Z.
Variable RegisterVoter : Z -> Address -> W -> W * bool.
Variable SigningPolicyInitializedListener :
  Z -> W -> W * option SigningPolicyInitialized.
Variable SignNewSigningPolicy : Z -> list Z -> W -> W * bool.
Variable identityAddress : Address.

Definition verifyEpoch (epochId : Z) (w : W) : W * option Z * bool :=
  let '(w1, epochIdResult) := GetCurrentRewardEpochId w in
  match epochIdResult with
  | None => (w1, epochIdResult, false)
  | Some currentEpochId =>
      (w1, epochIdResult,
       if decide (epochId <= currentEpochId) then false else true)
  end.

(** The loop [for { select ... }] on the inputs still to come. *)
Fixpoint registrationLoop (inputs : list LoopInput) (w : W)
  : W * list Action * Exit :=
  match inputs with
  | [] => (w, [], WaitingForEvent)
  | CtxDone :: _ => (w, [], ExitCancelled)
  | Selected powerBlockData :: rest =>
      let epochId := RewardEpochId powerBlockData in
      let '(w1, current, verified) := verifyEpoch epochId w in
      if negb verified
      then
        let '(w', tr, exit) := registrationLoop rest w1 in
        (w', DidGetCurrentRewardEpochId epochId current :: tr, exit)
      else
        let '(w2, registered) := RegisterVoter epochId identityAddress w1 in
        if negb registered
        then
          let '(w', tr, exit) := registrationLoop rest w2 in
          (w', DidGetCurrentRewardEpochId epochId current
                 :: DidRegisterVoter epochId identityAddress false :: tr,
           exit)
        else
          let '(w3, arrived) :=
            SigningPolicyInitializedListener (Timestamp powerBlockData) w2 in
          match arrived with
          | None =>
              (w3,
               [DidGetCurrentRewardEpochId epochId current;
                DidRegisterVoter epochId identityAddress true;
                DidAwaitSigningPolicy (Timestamp powerBlockData) None],
               WaitingForSigningPolicy)
          | Some signingPolicy =>
              let '(w4, signed) :=
                SignNewSigningPolicy (PolicyRewardEpochId signingPolicy)
                  (SigningPolicyBytes signingPolicy) w3 in
              let '(w', tr, exit) := registrationLoop rest w4 in
              (w', DidGetCurrentRewardEpochId epochId current
                     :: DidRegisterVoter epochId identityAddress true
                     :: DidAwaitSigningPolicy (Timestamp powerBlockData)
                          (Some signingPolicy)
                     :: DidSignNewSigningPolicy
                          (PolicyRewardEpochId signingPolicy)
                          (SigningPolicyBytes signingPolicy) signed
                     :: tr,
               exit)
          end
  end.

Definition RunContext (inputs : list LoopInput) (w : W)
  : W * list Action * Exit :=
  let '(w1, err) := RewardEpochFromChain w in
  match err with
  | Some e => (w1, [], ExitError e)
  | None => registrationLoop inputs w1
  end.

End Run.

End RegistrationClient.

(** * Notions used to state the properties *)

(** ** Stores built by calls, and what is said of them *)
Module FinalizerSpec.
Import GoInt Finalizer.

(** What [Add] demands of the last stored policy [p] and the new one
    [q]. *)
Definition linked (p q : signingPolicy) : Prop :=
  rewardEpochId p = wrap64 (rewardEpochId q - 1) /\
  startVotingRoundId p <= startVotingRoundId q.

Definition chained (l : list signingPolicy) : Prop :=
  forall i p q, l !! i = Some p -> l !! S i = Some q -> linked p q.

Definition sorted_by_start (l : list signingPolicy) : Prop :=
  forall a b pa pb, (a <= b)%nat -> l !! a = Some pa -> l !! b = Some pb ->
    startVotingRoundId pa <= startVotingRoundId pb.

(** The stores that accepted [Add] calls build from the empty one, the
    policies being values of their Go type. *)
Inductive added : signingPolicyStorage -> Prop :=
| added_new : added newSigningPolicyStorage
| added_Add s sp :
    added s -> wf_policy sp -> (Add s sp).2 = Ok -> added (Add s sp).1.

(** A Go slice holds at most [max_int64] elements. *)
Definition fits_slice (l : list signingPolicy) : Prop :=
  Z.of_nat (length l) <= max_int64.

(** The stores that [Add] and [RemoveByVotingRound] calls build from the
    empty one. *)
Inductive reachable : signingPolicyStorage -> Prop :=
| reachable_new : reachable newSigningPolicyStorage
| reachable_Add s sp :
    reachable s -> (Add s sp).2 = Ok ->
    fits_slice (spList (Add s sp).1) ->
    reachable (Add s sp).1
| reachable_Add_rejected s sp msg :
    reachable s -> (Add s sp).2 = Err msg -> reachable (Add s sp).1
| reachable_Remove s v :
    reachable s -> reachable (RemoveByVotingRound s v).1.

(** The policy with the greatest start among those that start at or
    before [v]. *)
Definition greatest_at_or_before (l : list signingPolicy) (v : Z)
    (p : signingPolicy) : Prop :=
  p ∈ l /\ startVotingRoundId p <= v /\
  forall q, q ∈ l -> startVotingRoundId q <= v ->
    startVotingRoundId q <= startVotingRoundId p.

(** Two accepted policies that start at the same voting round. *)
Definition policy_at (epoch start : Z) : signingPolicy :=
  {| rewardEpochId := epoch; startVotingRoundId := start; threshold := 0;
     seed := 0; voters := []; weights := []; rawBytes := [];
     blockTimestamp := 0 |}.

Definition store_same_start : signingPolicyStorage :=
  (Add (Add newSigningPolicyStorage (policy_at 1 10)).1 (policy_at 2 10)).1.

(** A store whose only policy is for the last reward epoch an [int64]
    can name. *)
Definition store_max_epoch : signingPolicyStorage :=
  (Add newSigningPolicyStorage (policy_at max_int64 0)).1.

(** The entry of voter [a] under first-wins: its first index in
    [sp.voters] and the weight at that index. *)
Definition first_entry (sp : signingPolicy) (a : Address) : option voterData :=
  match list_find (eq a) (voters sp) with
  | Some (i, _) =>
      w ← weights sp !! i; Some {| index := Z.of_nat i; weight := w |}
  | None => None
  end.

Definition stored_epochs (l : list signingPolicy) : gset Z :=
  list_to_set (rewardEpochId <$> l).

(** What holds in every reachable store. *)
Definition store_inv (s : signingPolicyStorage) : Prop :=
  chained (spList s) /\ fits_slice (spList s) /\
  dom (voterMap s) = stored_epochs (spList s).

(** A policy whose first voter is listed twice. *)
Definition policy_twice (epoch start : Z) : signingPolicy :=
  {| rewardEpochId := epoch; startVotingRoundId := start; threshold := 0;
     seed := 0; voters := [7%N; 9%N; 7%N]; weights := [50; 60; 70];
     rawBytes := []; blockTimestamp := 0 |}.

Definition store_after_removal : signingPolicyStorage :=
  (RemoveByVotingRound
     (Add (Add newSigningPolicyStorage (policy_twice 1 10)).1
          (policy_twice 2 20)).1 15).1.

End FinalizerSpec.

(** ** Calls of the retried operation and the shape of a trace *)
Module SharedSpec.
Import Shared.

Section Calls.

Context {W : Type}.
Variable f : W -> W * option string.

(** The state before the [i]-th call of [f] (counting from 0) and what
    that call returns, when the calls before it have been made. *)
Fixpoint world_before (i : nat) (w : W) : W :=
  match i with
  | O => w
  | S i' => world_before i' (f w).1
  end.

Definition call_result (w : W) (i : nat) : option string :=
  (f (world_before i w)).2.

(** The events of failed attempts number [ri], [ri+1], ... with the
    errors [errs]: the call, the log line, the sleep. *)
Fixpoint failed_attempts (ri : Z) (errs : list string) : list event :=
  match errs with
  | [] => []
  | e :: rest =>
      EvCall ri :: EvLogError ri e :: EvSleep TxRetryInterval
        :: failed_attempts (ri + 1) rest
  end.

Definition success_status : ExecuteStatus :=
  {| Success := true; Message := "" |}.

Definition failure_status : ExecuteStatus :=
  {| Success := false; Message := "max retries reached" |}.

End Calls.

End SharedSpec.

(** ** Sample policies *)
Module RegistrationSpec.
Import GoSlice Registration.

(** A 33-byte policy on a backing array of its own size. *)
Definition policy33 : slice := of_bytes (replicate 33 1).

(** A 32-byte policy on a backing array of its own size. *)
Definition policy32 : slice := of_bytes (replicate 32 1).

End RegistrationSpec.

(** ** Sample providers, signers and runners *)
Module ProtocolSpec.
Import GoInt Protocol.

(** A signer that always returns the same 65 bytes, a 38-byte response,
    and the entry written for it at tick 5. *)
Definition sign_fixed (hash : list Z) : option (list Z) :=
  Some (replicate 64 1 ++ [0]).

Definition response38 : FetchStatus :=
  {| fetchSuccess := true; fetchMessage := "";
     Value := {| Status := "OK"; Data := replicate 38 7;
                 AdditionalData := [] |} |}.

(** The fetches a round launches for the outstanding set [P], in
    sub-protocol order. *)
Definition fetches_for (P : gset nat) (e : Z) (i n : nat)
  : list SubmitterEvent :=
  (fun j => EvFetch j (wrap64 (e - 1))) <$> filter (fun j => j ∈ P) (seq i n).

(** Scenario S5 of the specification: three sub-protocols and two
    rounds.  The world counts the transactions sent so far; the first one
    is rejected.  In the first round the third provider fails. *)
Definition send_second_only (payload : list Z) (sent : nat)
  : nat * option string :=
  (S sent, if decide (sent = 0%nat) then Some "rejected" else None).

Definition third_fails_first (protocol : SubProtocol) (votingRound : Z)
    (submitName : string) (maxRetries : Z) (sent : nat) : nat * FetchStatus :=
  (sent,
   if decide (protocolId protocol = 3 /\ sent = 0%nat)
   then {| fetchSuccess := false; fetchMessage := "max retries reached";
           Value := {| Status := ""; Data := []; AdditionalData := [] |} |}
   else response38).

Definition three_protocols : list SubProtocol :=
  [ {| protocolId := 1; apiEndpoint := "http://localhost:3000/ftso1" |};
    {| protocolId := 2; apiEndpoint := "http://localhost:3000/ftso2" |};
    {| protocolId := 3; apiEndpoint := "http://localhost:3000/ftso3" |} ].

Definition submitter_S5 : SignatureSubmitter :=
  newSignatureSubmitter
    {| SigStartOffset := 30; SigTxSubmitRetries := 1;
       DataFetchRetries := 5; MaxRounds := 2 |}
    [1; 2; 3; 4] three_protocols.

Definition start_S5 : RoundState :=
  {| world := 0%nat;
     protocolsToSend := list_to_set (seq 0 3);
     channels := replicate 3 None;
     trace := [] |}.

Definition run_S5 : RoundState :=
  SignatureSubmitter_RunEpoch send_second_only third_fails_first sign_fixed
    (fun b => b) (fun b => b) submitter_S5 5 0%nat.

Definition entry_S5 : list Z :=
  [100; 0; 0; 0; 3; 0; 104; 0] ++ replicate 38 7 ++ [27]
    ++ replicate 32 1 ++ replicate 32 1.

(** A runner whose epochs do nothing, to observe the loop alone. *)
#[export] Instance idle_runner : EpochRunner unit unit :=
  {| RunEpoch := fun _ _ w => w |}.

End ProtocolSpec.

(** ** A sample configuration *)
Module ClientSpec.
Import Protocol Client.

(** The configuration of the README: two sub-protocols, [submit1],
    [submit2] and [submit_signatures]; every constructor that reaches
    outside succeeds. *)
Definition readme_config : ClientConfig :=
  {| EnabledProtocolVoting := true;
     ProtocolCfg :=
       [ {| protocolId := 1; apiEndpoint := "http://localhost:3000/ftso1" |};
         {| protocolId := 2; apiEndpoint := "http://localhost:3000/ftso2" |} ];
     Submit1 := {| StartOffset := 10; TxSubmitRetries := 1 |};
     Submit2 := {| StartOffset := 80; TxSubmitRetries := 1 |};
     SignatureSubmitterCfg :=
       {| SigStartOffset := 30; SigTxSubmitRetries := 3;
          DataFetchRetries := 5; MaxRounds := 3 |} |}.

Definition no_error (cfg : ClientConfig) : option string := None.

Definition some_selectors : contractSelectors :=
  {| submit1 := [1; 1; 1; 1]; submit2 := [2; 2; 2; 2];
     submit3 := [3; 3; 3; 3]; submitSignatures := [4; 4; 4; 4] |}.

Definition readme_client : option ProtocolClient * option string :=
  NewProtocolClient no_error no_error no_error no_error no_error
    some_selectors readme_config.

End ClientSpec.

(** * Further notions *)

(** ** The rule that a lookup in the store follows *)
Module FinalizerMoreSpec.
Import GoInt Finalizer.

(** What [findByVotingRoundId] settles on in a list sorted by start: the
    first policy that starts at [v] when there is one, the last policy
    that starts before [v] otherwise, nothing when every policy starts
    after [v]. *)
Definition lookup_rule (l : list signingPolicy) (v : Z)
    (r : option signingPolicy) : Prop :=
  match r with
  | Some p =>
      exists k, l !! k = Some p /\
        ((startVotingRoundId p = v /\
          forall h q, (h < k)%nat -> l !! h = Some q ->
            startVotingRoundId q < v) \/
         (startVotingRoundId p < v /\
          forall h q, (k < h)%nat -> l !! h = Some q ->
            v < startVotingRoundId q))
  | None => forall h q, l !! h = Some q -> v < startVotingRoundId q
  end.

(** A policy with two voters and one weight only. *)
Definition policy_short_weights : signingPolicy :=
  {| rewardEpochId := 1; startVotingRoundId := 10; threshold := 0;
     seed := 0; voters := [7%N; 9%N]; weights := [50];
     rawBytes := []; blockTimestamp := 0 |}.

End FinalizerMoreSpec.

(** ** Sample policies to encode *)
Module EncodingSpec.
Import GoInt Finalizer Encoding.

(** The values the fields of a policy can hold: [uint32], [uint16],
    20-byte addresses. *)
Definition in_uint16 (x : Z) : Prop := 0 <= x < 2 ^ 16.

Definition fields_in_range (s : signingPolicy) : Prop :=
  in_uint32 (startVotingRoundId s) /\ in_uint16 (threshold s) /\
  Forall in_uint16 (weights s) /\
  Forall (fun a => Z.of_N a < 2 ^ 160) (voters s).

(** Two voters, with a seed of two bytes. *)
Definition policy_two_voters : signingPolicy :=
  {| rewardEpochId := 3; startVotingRoundId := 1000; threshold := 500;
     seed := 258; voters := [7%N; 9%N]; weights := [600; 400];
     rawBytes := []; blockTimestamp := 0 |}.

End EncodingSpec.

(** ** A sample policy of two tiles *)
Module RegistrationMoreSpec.
Import GoSlice Registration.

Definition policy64 : slice := of_bytes (replicate 64 1).

End RegistrationMoreSpec.

(** ** The order of the registration client's calls *)
Module RegistrationClientSpec.
Import Finalizer RegistrationClient.

(** An action is in order after the action [prev] made right before it:
    a registration follows a reading of the current epoch that is below
    the epoch registered for; the wait for the signing policy follows a
    registration that succeeded; a signature follows the arrival of the
    policy it signs. *)
Definition in_order (identity : Address) (prev : option Action) (a : Action)
  : Prop :=
  match a with
  | DidGetCurrentRewardEpochId _ _ => True
  | DidRegisterVoter e address _ =>
      address = identity /\
      exists c, prev = Some (DidGetCurrentRewardEpochId e (Some c)) /\ c < e
  | DidAwaitSigningPolicy _ _ =>
      exists e, prev = Some (DidRegisterVoter e identity true)
  | DidSignNewSigningPolicy e policy _ =>
      exists ts,
        prev = Some (DidAwaitSigningPolicy ts
                       (Some {| PolicyRewardEpochId := e;
                                SigningPolicyBytes := policy |}))
  end.

Fixpoint all_in_order (identity : Address) (prev : option Action)
    (tr : list Action) : Prop :=
  match tr with
  | [] => True
  | a :: rest => in_order identity prev a /\ all_in_order identity (Some a) rest
  end.

(** The events received before the context ends, and the epochs for
    which the current epoch was read. *)
Fixpoint before_done (inputs : list LoopInput) : list VotePowerBlockSelected :=
  match inputs with
  | Selected powerBlockData :: rest => powerBlockData :: before_done rest
  | _ => []
  end.

Definition examined (tr : list Action) : list Z :=
  omap (fun a => match a with
                 | DidGetCurrentRewardEpochId e _ => Some e
                 | _ => None
                 end) tr.

(** A chain at reward epoch 7 on which every call succeeds; the policy
    that arrives is for the epoch after the current one. *)
Definition epoch_ok (w : unit) : unit * option string := (w, None).

Definition current_is_7 (w : unit) : unit * option Z := (w, Some 7).

Definition registers (epochId : Z) (address : Address) (w : unit)
  : unit * bool := (w, true).

Definition policy_arrives (timestamp : Z) (w : unit)
  : unit * option SigningPolicyInitialized :=
  (w, Some {| PolicyRewardEpochId := 8; SigningPolicyBytes := [1; 2; 3] |}).

Definition signs (epochId : Z) (policy : list Z) (w : unit) : unit * bool :=
  (w, true).

Definition two_events : list LoopInput :=
  [Selected {| RewardEpochId := 7; Timestamp := 100 |};
   Selected {| RewardEpochId := 8; Timestamp := 200 |};
   CtxDone].

End RegistrationClientSpec.

(** ** Sample signers and chains for the systems-manager calls *)
Module SystemsManagerSpec.
Import GoSlice SystemsManager.

Definition signer_fixed (hash : list Z) : list Z + string :=
  inl (replicate 64 1 ++ [0]).

Definition already_signed (rewardEpochId : Z) (hash : list Z)
    (signature : Signature) (calls : nat) : nat * (unit + string) :=
  (S calls,
   inr "execution reverted: new signing policy already signed").

Definition mined (tx : unit) (calls : nat) : nat * option string :=
  (S calls, None).

End SystemsManagerSpec.

(** ** The first error of a sequence of steps *)
Module ClientMoreSpec.

Definition first_error (steps : list (option string)) : option string :=
  head (omap id steps).

End ClientMoreSpec.

(** ** A stand-in hash *)
Module ProtocolMoreSpec.
Import GoInt Protocol ProtocolSpec.

(** A hash function to run the models with: the bytes themselves. *)
Definition keccak_id (b : list Z) : list Z := b.

(** What the plain submitter takes from a fetch: a successful one whose
    status is "OK". *)
Definition accepted (r : FetchStatus) : bool :=
  fetchSuccess r && bool_decide (Status (Value r) = "OK").

(** A chain that accepts every transaction, one that rejects every
    transaction, and a provider that always answers. *)
Definition send_ok (payload : list Z) (sent : nat) : nat * option string :=
  (S sent, None).

Definition send_rejected (payload : list Z) (sent : nat)
  : nat * option string :=
  (S sent, Some "rejected").

Definition always_answers (protocol : SubProtocol) (votingRound : Z)
    (submitName : string) (maxRetries : Z) (sent : nat) : nat * FetchStatus :=
  (sent, response38).

(** The entry that [RunEpoch] writes for a response when the signer
    signs, and the entry taken in a round for sub-protocol [j] of the
    outstanding set [P]: the response has arrived and is a success. *)
Section Entries.

Variable Sign : list Z -> option (list Z).
Variable TextHash : list Z -> list Z.
Variable keccak256 : list Z -> list Z.

Definition entry (e : Z) (data : FetchStatus) : option (list Z) :=
  let '(b, err) := includeResponse Sign TextHash keccak256 [] e data in
  match err with None => Some b | Some _ => None end.

Definition taken (e : Z) (chans : list (option FetchStatus)) (P : gset nat)
    (j : nat) : option (list Z) :=
  if decide (j ∈ P)
  then
    match chans !! j with
    | Some (Some data) => if fetchSuccess data then entry e data else None
    | _ => None
    end
  else None.

End Entries.

(** The events that end a round, and the rounds of a trace. *)
Definition round_end (ev : SubmitterEvent) : bool :=
  match ev with EvFetch _ _ => false | _ => true end.

Definition rounds (tr : list SubmitterEvent) : nat :=
  length (filter (fun ev => round_end ev = true) tr).

Definition transactions (tr : list SubmitterEvent) : list (list Z * bool) :=
  omap (fun ev => match ev with EvSubmit p ok => Some (p, ok) | _ => None end)
       tr.

(** The transactions of a trace that the chain accepted. *)
Definition successes (tr : list SubmitterEvent) : nat :=
  length (filter (fun t : list Z * bool => t.2 = true) (transactions tr)).

(** What every event of an epoch of the signature submitter looks like. *)
Definition event_ok (s : SignatureSubmitter) (e : Z) (ev : SubmitterEvent)
  : Prop :=
  match ev with
  | EvFetch i v =>
      (i < length (subProtocols (sigBase s)))%nat /\ v = wrap64 (e - 1)
  | EvSubmit payload _ =>
      exists x, x ≠ [] /\ payload = selector (sigBase s) ++ x
  | EvNoNewData => True
  end.

(** A signer that never signs, and a provider that never answers. *)
Definition sign_never (hash : list Z) : option (list Z) := None.

Definition never_answers (protocol : SubProtocol) (votingRound : Z)
    (submitName : string) (maxRetries : Z) (sent : nat) : nat * FetchStatus :=
  (sent,
   {| fetchSuccess := false; fetchMessage := "max retries reached";
      Value := {| Status := ""; Data := []; AdditionalData := [] |} |}).

(** The ticks and the stop requests among the values a run loop
    receives. *)
Definition ticks (inputs : list RunInput) : list Z :=
  omap (fun i => match i with Tick e => Some e | _ => None end) inputs.

Definition stops (inputs : list RunInput) : list Z :=
  omap (fun i => match i with StopAt k => Some k | _ => None end) inputs.

Definition submitter1_sample : Submitter :=
  newSubmitter {| StartOffset := 10; TxSubmitRetries := 0 |} [9; 9; 9; 9]
    three_protocols 0 "submit1".

End ProtocolMoreSpec.

(** * Properties *)

(** ** Integer facts *)
Module GoIntFacts.
Import GoInt.

Lemma wrap64_id x : in_int64 x -> wrap64 x = x.
Proof.
  unfold in_int64, wrap64, min_int64, max_int64. intros Hx.
  rewrite Z.mod_small; lia.
Qed.

Lemma wrap64_range x : in_int64 (wrap64 x).
Proof.
  unfold in_int64, wrap64, min_int64, max_int64.
  pose proof (Z.mod_pos_bound (x + 2 ^ 63) (2 ^ 64) ltac:(lia)). lia.
Qed.

(** [wrap64] changes its argument by a multiple of [2^64]. *)
Lemma wrap64_spec x : exists k, wrap64 x = x + k * 2 ^ 64.
Proof.
  unfold wrap64. exists (- ((x + 2 ^ 63) / 2 ^ 64)).
  pose proof (Z.div_mod (x + 2 ^ 63) (2 ^ 64) ltac:(lia)). lia.
Qed.

Lemma wrap64_pred_succ x y :
  in_int64 x -> in_int64 y -> (x = wrap64 (y - 1) <-> y = wrap64 (x + 1)).
Proof.
  intros Hx Hy.
  destruct (wrap64_spec (y - 1)) as [k Hk].
  destruct (wrap64_spec (x + 1)) as [j Hj].
  pose proof (wrap64_range (y - 1)) as Hr1.
  pose proof (wrap64_range (x + 1)) as Hr2.
  unfold in_int64, min_int64, max_int64 in *. lia.
Qed.

(** The int64 successor: [x + 1], except at the top of the range. *)
Lemma wrap64_succ_cases x :
  in_int64 x ->
  (x <> max_int64 /\ wrap64 (x + 1) = x + 1) \/
  (x = max_int64 /\ wrap64 (x + 1) = min_int64).
Proof.
  intros Hx. destruct (decide (x = max_int64)) as [->|Hne].
  - right. split; reflexivity.
  - left. split; [done|]. apply wrap64_id.
    unfold in_int64, min_int64, max_int64 in *. lia.
Qed.

Lemma uint32_wrap64 x : uint32 (wrap64 x) = uint32 x.
Proof.
  unfold uint32. destruct (wrap64_spec x) as [k ->].
  replace (x + k * 2 ^ 64) with (x + (k * 2 ^ 32) * 2 ^ 32) by lia.
  apply Z.mod_add. lia.
Qed.

End GoIntFacts.
(** ** [sort.Find] returns the least index whose comparison is not positive *)
Module GoSortFacts.
Import GoSort.

Lemma half_bounds i j : (i < j)%nat -> (i <= (i + j) / 2 < j)%nat.
Proof.
  intros Hij.
  pose proof (Nat.div_mod_eq (i + j) 2).
  pose proof (Nat.mod_upper_bound (i + j) 2). lia.
Qed.

Section Monotone.

(** A comparison that never panics below [n], positive on a prefix of
    [0 .. n-1] only. *)

Variable n : nat.
Variable c : nat -> Z.
Variable cmp : nat -> option Z.
Hypothesis cmp_total : forall h, (h < n)%nat -> cmp h = Some (c h).
Hypothesis c_antitone :
  forall a b, (a <= b)%nat -> (b < n)%nat -> 0 < c b -> 0 < c a.

Lemma Find_loop_correct i j :
  (i <= j <= n)%nat ->
  (forall h, (h < i)%nat -> 0 < c h) ->
  (forall h, (j <= h < n)%nat -> c h <= 0) ->
  exists r, Find_loop cmp i j = Some r /\ (i <= r <= j)%nat /\
            (forall h, (h < r)%nat -> 0 < c h) /\
            (forall h, (r <= h < n)%nat -> c h <= 0).
Proof.
  funelim (Find_loop cmp i j); intros Hij Hlo Hhi;
    try (pose proof (half_bounds i j ltac:(done)) as Hh;
         match goal with
         | Hc : cmp _ = _ |- _ => rewrite cmp_total in Hc by lia
         end; simplify_eq).
  - exists i. split; [done|]. split; [lia|]. split; [done|].
    intros h Hr. apply Hhi. lia.
  - destruct H as (r & Hr & Hb & Hlo' & Hhi').
    { lia. }
    { intros h Hlt. apply (c_antitone h ((i + j) / 2)%nat); [lia|lia|done]. }
    { done. }
    exists r. rewrite Hr. split; [done|]. split; [lia|]. split; done.
  - destruct H as (r & Hr & Hb & Hlo' & Hhi').
    { lia. }
    { done. }
    { intros h [Hge Hlt]. destruct (decide (c h <= 0)) as [|Hpos]; [done|].
      exfalso. assert (0 < c ((i + j) / 2)%nat); [|lia].
      apply (c_antitone _ h); [lia|lia|lia]. }
    exists r. rewrite Hr. split; [done|]. split; [lia|]. split; done.
Qed.

Lemma Find_correct :
  exists r, Find n cmp = Some (r, bool_decide ((r < n)%nat /\ c r = 0)) /\
            (r <= n)%nat /\
            (forall h, (h < r)%nat -> 0 < c h) /\
            (forall h, (r <= h < n)%nat -> c h <= 0).
Proof.
  destruct (Find_loop_correct 0 n) as (r & Hr & Hb & Hlo & Hhi);
    [lia|intros; lia|intros; lia|].
  exists r. unfold Find. rewrite Hr. simpl. split; [|split; [lia|done]].
  destruct (decide (r < n)%nat) as [Hlt|Hge].
  - rewrite cmp_total by done. simpl. do 2 f_equal.
    apply bool_decide_ext. tauto.
  - do 2 f_equal. symmetry. apply bool_decide_eq_false. tauto.
Qed.

End Monotone.
End GoSortFacts.

(** ** The signing-policy store *)
Module FinalizerFacts.
Import GoInt GoIntFacts Finalizer FinalizerSpec.

Lemma checkConsistency_None l sp :
  checkConsistency l sp = None <->
  (forall prev, last l = Some prev -> linked prev sp).
Proof.
  unfold checkConsistency, linked. destruct (last l) as [prev|].
  - destruct (decide (rewardEpochId prev ≠ _)) as [Hne|Heq].
    { split; [done|]. intros Hl. by destruct (Hl prev eq_refl). }
    destruct (decide (startVotingRoundId sp < _)) as [Hlt|Hge].
    { split; [done|]. intros Hl. destruct (Hl prev eq_refl). lia. }
    split; [|done]. intros _ ? [= <-]. split; [by apply dec_stable|lia].
  - split; [intros _ ? [=]|done].
Qed.

Lemma Add_Err s sp msg :
  (Add s sp).2 = Err msg ->
  checkConsistency (spList s) sp = Some msg /\ (Add s sp).1 = s.
Proof.
  unfold Add. destruct (checkConsistency (spList s) sp) as [m|].
  - simpl. intros [= ->]. done.
  - destruct (indexVoters _ _ _ _) as [vMap []]; simpl; done.
Qed.

Lemma Add_Ok s sp :
  (Add s sp).2 = Ok ->
  checkConsistency (spList s) sp = None /\
  spList (Add s sp).1 = spList s ++ [sp] /\
  voterMap (Add s sp).1 =
    <[rewardEpochId sp := (indexVoters (weights sp) 0 (voters sp) ∅).1]>
      (voterMap s).
Proof.
  unfold Add. destruct (checkConsistency (spList s) sp) as [m|].
  - simpl. done.
  - destruct (indexVoters _ _ _ _) as [vMap []]; simpl; done.
Qed.

Lemma chained_nil : chained [].
Proof. intros i p q H. by rewrite lookup_nil in H. Qed.

Lemma chained_snoc l sp :
  chained l -> (forall prev, last l = Some prev -> linked prev sp) ->
  chained (l ++ [sp]).
Proof.
  intros Hl Hlast i p q Hp Hq.
  destruct (decide (S i < length l)%nat) as [Hlt|Hge].
  - rewrite lookup_app_l in Hp by lia. rewrite lookup_app_l in Hq by lia.
    eauto.
  - assert (S i = length l) as Hi.
    { apply lookup_lt_Some in Hq. rewrite length_app in Hq. simpl in Hq. lia. }
    rewrite lookup_app_l in Hp by lia.
    rewrite lookup_app_r in Hq by lia.
    rewrite Hi, Nat.sub_diag in Hq. simpl in Hq. injection Hq as <-.
    apply Hlast. rewrite last_lookup, <- Hi. done.
Qed.

Lemma chained_tail p l : chained (p :: l) -> chained l.
Proof. intros H i a b Ha Hb. apply (H (S i)); done. Qed.

Lemma chained_sorted l : chained l -> sorted_by_start l.
Proof.
  intros Hl a b pa pb Hab Ha Hb. revert pb Hb.
  induction Hab as [|b Hab IH]; intros pb Hb.
  - rewrite Ha in Hb. injection Hb as <-. lia.
  - destruct (lookup_lt_is_Some_2 l b) as [pm Hm].
    { apply lookup_lt_Some in Hb. lia. }
    destruct (Hl b pm pb Hm Hb) as [_ Hle].
    specialize (IH pm Hm). lia.
Qed.

Lemma added_chained s : added s -> chained (spList s).
Proof.
  induction 1 as [|s sp _ IH _ Hok].
  - apply chained_nil.
  - destruct (Add_Ok s sp Hok) as (Hc & -> & _).
    apply chained_snoc; [done|]. by apply checkConsistency_None.
Qed.

Lemma added_wf s p : added s -> p ∈ spList s -> wf_policy p.
Proof.
  induction 1 as [|s sp _ IH Hwf Hok]; simpl.
  - by intros ?%elem_of_nil.
  - destruct (Add_Ok s sp Hok) as (_ & -> & _).
    intros [Hin|Heq%list_elem_of_singleton]%elem_of_app; subst; auto.
Qed.

Lemma NoDup_fmap_elem_eq {A B} (f : A -> B) (l : list A) x y :
  NoDup (f <$> l) -> x ∈ l -> y ∈ l -> f x = f y -> x = y.
Proof.
  intros Hnd [i Hi]%list_elem_of_lookup [j Hj]%list_elem_of_lookup Hf.
  assert (i = j) as ->; [|congruence].
  apply (NoDup_lookup (f <$> l) i j (f x)); [done|..].
  - by rewrite list_lookup_fmap, Hi.
  - by rewrite list_lookup_fmap, Hj, Hf.
Qed.

Lemma Compare_pos x y : 0 < Compare x y <-> y < x.
Proof. unfold Compare. repeat case_decide; lia. Qed.

Lemma Compare_zero x y : Compare x y = 0 <-> x = y.
Proof. unfold Compare. repeat case_decide; lia. Qed.

Lemma Compare_nonpos x y : Compare x y <= 0 <-> x <= y.
Proof. unfold Compare. repeat case_decide; lia. Qed.

(** The index that [findByVotingRoundId] settles on: the first policy that
    starts at [v] when there is one, the last policy that starts before
    [v] otherwise. *)
Lemma findByVotingRoundId_index l v :
  sorted_by_start l ->
  exists r, findByVotingRoundId l v = Some r /\
    match r with
    | Some p =>
        exists k, l !! k = Some p /\
          ((startVotingRoundId p = v /\
            forall h q, (h < k)%nat -> l !! h = Some q ->
              startVotingRoundId q < v) \/
           (startVotingRoundId p < v /\
            forall h q, (k < h)%nat -> l !! h = Some q ->
              v < startVotingRoundId q))
    | None => forall h q, l !! h = Some q -> v < startVotingRoundId q
    end.
Proof.
  intros Hsorted.
  set (c := fun h => match l !! h with
                     | Some p => Compare v (startVotingRoundId p)
                     | None => 0
                     end).
  set (cmp := fun i : nat =>
                p ← l !! i; Some (Compare v (startVotingRoundId p))).
  destruct (GoSortFacts.Find_correct (length l) c cmp) as (r & Hr & Hrn & Hlo & Hhi).
  { intros h Hh. unfold cmp, c.
    destruct (lookup_lt_is_Some_2 l h Hh) as [p ->]. done. }
  { intros a b Hab Hb. unfold c.
    destruct (lookup_lt_is_Some_2 l b Hb) as [pb Hpb].
    destruct (lookup_lt_is_Some_2 l a ltac:(lia)) as [pa Hpa].
    rewrite Hpa, Hpb, !Compare_pos.
    pose proof (Hsorted a b pa pb Hab Hpa Hpb). lia. }
  assert (Hbelow : forall h q, (h < r)%nat -> l !! h = Some q ->
                     startVotingRoundId q < v).
  { intros h q Hh Hq. specialize (Hlo h Hh). unfold c in Hlo.
    rewrite Hq in Hlo. by apply Compare_pos. }
  assert (Habove : forall h q, (r <= h)%nat -> l !! h = Some q ->
                     v <= startVotingRoundId q).
  { intros h q Hh Hq. pose proof (lookup_lt_Some _ _ _ Hq).
    specialize (Hhi h ltac:(lia)). unfold c in Hhi.
    rewrite Hq in Hhi. by apply Compare_nonpos. }
  unfold findByVotingRoundId. fold cmp. rewrite Hr.
  destruct (bool_decide_reflect ((r < length l)%nat /\ c r = 0)) as [[Hlt Hc]|Hnf].
  - destruct (lookup_lt_is_Some_2 l r Hlt) as [p Hp].
    rewrite Hp. simpl. eexists. split; [done|].
    exists r. split; [done|]. left. split; [|done].
    unfold c in Hc. rewrite Hp in Hc. symmetry. by apply Compare_zero.
  - assert (Hstrict : forall h q, (r <= h)%nat -> l !! h = Some q ->
                        v < startVotingRoundId q).
    { intros h q Hh Hq. pose proof (lookup_lt_Some _ _ _ Hq) as Hhn.
      pose proof (Habove h q Hh Hq) as Hge.
      destruct (decide (startVotingRoundId q = v)) as [Heq|]; [|lia].
      exfalso. apply Hnf. split; [lia|].
      destruct (lookup_lt_is_Some_2 l r ltac:(lia)) as [pr Hpr].
      unfold c. rewrite Hpr. apply Compare_zero.
      pose proof (Hsorted r h pr q Hh Hpr Hq).
      pose proof (Habove r pr ltac:(lia) Hpr). lia. }
    destruct (decide (r = 0)%nat) as [->|Hr0].
    + eexists. split; [done|]. intros h q Hq. apply (Hstrict h); [lia|done].
    + destruct (lookup_lt_is_Some_2 l (r - 1)) as [p Hp]; [lia|].
      rewrite Hp. simpl. eexists. split; [done|].
      exists (r - 1)%nat. split; [done|]. right. split.
      * apply (Hbelow (r - 1)%nat); [lia|done].
      * intros h q Hh Hq. apply (Hstrict h); [lia|done].
Qed.

Lemma findByVotingRoundId_greatest l v :
  sorted_by_start l ->
  exists r, findByVotingRoundId l v = Some r /\
    match r with
    | Some p => greatest_at_or_before l v p
    | None => forall q, q ∈ l -> v < startVotingRoundId q
    end.
Proof.
  intros Hsorted.
  destruct (findByVotingRoundId_index l v Hsorted) as (r & Hr & Hspec).
  exists r. split; [done|]. destruct r as [p|].
  - destruct Hspec as (k & Hk & Hcases). split; [|split].
    + apply list_elem_of_lookup. eauto.
    + lia.
    + intros q [h Hq]%list_elem_of_lookup Hqv.
      destruct Hcases as [[Heq _]|[Hlt Habove]]; [lia|].
      destruct (decide (k < h)%nat) as [Hkh|Hhk].
      * specialize (Habove h q Hkh Hq). lia.
      * apply (Hsorted h k); [lia|done|done].
  - intros q [h Hq]%list_elem_of_lookup. eauto.
Qed.

Lemma wf_policy_at epoch start :
  in_int64 epoch -> in_uint32 start -> wf_policy (policy_at epoch start).
Proof. by split. Qed.

Lemma added_store_same_start : added store_same_start.
Proof.
  unfold store_same_start.
  apply added_Add; [apply added_Add; [apply added_new|..]|..];
    first [reflexivity | apply wf_policy_at; vm_compute; split; congruence].
Qed.

(** C5, as stated, fails: [Add] accepts a policy that starts at the same
    voting round as the last one, and then no stored policy is the unique
    one with the greatest start at or before [v].  With policies for
    reward epochs 1 and 2 that both start at round 10,
    [GetForVotingRound 10] returns the first although the second
    qualifies as well. *)
Lemma GetForVotingRound_not_unique :
  added store_same_start /\
  GetForVotingRound store_same_start 10 = Some (Some (policy_at 1 10)) /\
  ~ (forall q, greatest_at_or_before (spList store_same_start) 10 q ->
       q = policy_at 1 10).
Proof.
  split; [apply added_store_same_start|]. split; [reflexivity|].
  intros Huniq. specialize (Huniq (policy_at 2 10)).
  assert (policy_at 2 10 = policy_at 1 10) as Heq; [|discriminate Heq].
  apply Huniq. split; [|split].
  - change (spList store_same_start) with [policy_at 1 10; policy_at 2 10].
    set_solver.
  - simpl. lia.
  - change (spList store_same_start) with [policy_at 1 10; policy_at 2 10].
    intros q Hq _.
    apply elem_of_cons in Hq as [->|Hq]; [simpl; lia|].
    apply list_elem_of_singleton in Hq as ->. simpl. lia.
Qed.

(** C5, amended.  In every store built by accepted [Add] calls,
    [GetForVotingRound v] returns without panic a stored policy whose
    start is the greatest among the starts at or before [v] -- the first
    stored policy that starts at [v] if there is one, the last that
    starts before [v] otherwise -- and returns nothing exactly when every
    stored policy starts after [v].  The policy returned is the only one
    with that property when the stored starts are pairwise distinct. *)
Theorem GetForVotingRound_greatest s v :
  added s ->
  exists r, GetForVotingRound s v = Some r /\
    match r with
    | Some p =>
        greatest_at_or_before (spList s) v p /\
        (exists k, spList s !! k = Some p /\
           ((startVotingRoundId p = v /\
             forall h q, (h < k)%nat -> spList s !! h = Some q ->
               startVotingRoundId q < v) \/
            (startVotingRoundId p < v /\
             forall h q, (k < h)%nat -> spList s !! h = Some q ->
               v < startVotingRoundId q))) /\
        (NoDup (startVotingRoundId <$> spList s) ->
         forall q, greatest_at_or_before (spList s) v q -> q = p)
    | None => forall q, q ∈ spList s -> v < startVotingRoundId q
    end.
Proof.
  intros Hs. pose proof (chained_sorted _ (added_chained s Hs)) as Hsorted.
  unfold GetForVotingRound.
  destruct (findByVotingRoundId_greatest _ v Hsorted) as (r & Hr & Hg).
  destruct (findByVotingRoundId_index _ v Hsorted) as (r' & Hr' & Hidx).
  rewrite Hr in Hr'. injection Hr' as <-.
  exists r. split; [done|]. destruct r as [p|]; [|done].
  split; [done|]. split; [done|].
  intros Hnd q Hq.
  destruct Hg as (Hp & Hpv & Hpmax), Hq as (Hq & Hqv & Hqmax).
  apply (NoDup_fmap_elem_eq startVotingRoundId (spList s)); [done..|].
  specialize (Hpmax q Hq Hqv). specialize (Hqmax p Hp Hpv). lia.
Qed.

Lemma GetForVotingRound_greatest_witness :
  added store_same_start /\
  exists r, GetForVotingRound store_same_start 11 = Some r /\
    match r with
    | Some p =>
        greatest_at_or_before (spList store_same_start) 11 p /\
        (exists k, spList store_same_start !! k = Some p /\
           ((startVotingRoundId p = 11 /\
             forall h q, (h < k)%nat -> spList store_same_start !! h = Some q ->
               startVotingRoundId q < 11) \/
            (startVotingRoundId p < 11 /\
             forall h q, (k < h)%nat -> spList store_same_start !! h = Some q ->
               11 < startVotingRoundId q))) /\
        (NoDup (startVotingRoundId <$> spList store_same_start) ->
         forall q, greatest_at_or_before (spList store_same_start) 11 q -> q = p)
    | None => forall q, q ∈ spList store_same_start -> 11 < startVotingRoundId q
    end.
Proof.
  split; [apply added_store_same_start|].
  apply (GetForVotingRound_greatest store_same_start 11).
  apply added_store_same_start.
Defined.

(** The message of the first check, on a store whose last policy is for
    reward epoch 2. *)
Example Add_missing_message :
  Add store_same_start (policy_at 4 10) =
  (store_same_start, Err "missing signing policy for reward epoch id 3").
Proof. reflexivity. Qed.

Lemma added_store_max_epoch : added store_max_epoch.
Proof.
  apply added_Add; [apply added_new| |reflexivity].
  apply wf_policy_at; vm_compute; split; congruence.
Qed.

(** C6, as stated, fails at the end of the [int64] range: [Add] compares
    the last stored id with [sp.rewardEpochId-1], which wraps.  After a
    policy for epoch [max_int64], a policy for epoch [min_int64] -- not
    the last id plus 1 -- is accepted, and the stored ids are then not
    increasing. *)
Lemma Add_accepts_wrapped_epoch :
  added store_max_epoch /\
  last (spList store_max_epoch) = Some (policy_at max_int64 0) /\
  wf_policy (policy_at min_int64 0) /\
  rewardEpochId (policy_at min_int64 0)
    <> rewardEpochId (policy_at max_int64 0) + 1 /\
  (Add store_max_epoch (policy_at min_int64 0)).2 = Ok /\
  rewardEpochId <$> spList (Add store_max_epoch (policy_at min_int64 0)).1
    = [max_int64; min_int64] /\
  ~ (max_int64 < min_int64).
Proof.
  split; [apply added_store_max_epoch|].
  split; [reflexivity|].
  split; [apply wf_policy_at; vm_compute; split; congruence|].
  split; [vm_compute; congruence|].
  split; [reflexivity|].
  split; [reflexivity|].
  vm_compute. congruence.
Qed.

(** C6, amended.  On a store built by accepted [Add] calls, with [prev]
    its last policy: [Add sp] returns the error "missing signing policy
    for reward epoch id N-1" when [sp]'s reward epoch id is not the
    [int64] successor of [prev]'s ([prev]'s id plus 1, which wraps from
    [max_int64] to [min_int64]); it returns an error when [sp] starts at
    an earlier voting round than [prev]; a call that returns an error
    leaves the store as it was.  Consequently every stored policy's
    reward epoch id is the [int64] successor of the id stored before it
    -- that id plus 1, so strictly greater, unless that id is
    [max_int64] -- and the starts are non-decreasing. *)
Theorem Add_consistency s sp :
  added s -> wf_policy sp ->
  (forall prev, last (spList s) = Some prev ->
     (rewardEpochId sp <> wrap64 (rewardEpochId prev + 1) ->
      Add s sp = (s, Err (err_missing sp))) /\
     (startVotingRoundId sp < startVotingRoundId prev ->
      exists msg, Add s sp = (s, Err msg))) /\
  (forall msg, (Add s sp).2 = Err msg -> (Add s sp).1 = s) /\
  (forall i p q, spList s !! i = Some p -> spList s !! S i = Some q ->
     rewardEpochId q = wrap64 (rewardEpochId p + 1) /\
     (rewardEpochId p <> max_int64 -> rewardEpochId q = rewardEpochId p + 1) /\
     startVotingRoundId p <= startVotingRoundId q).
Proof.
  intros Hs [Hsp _]. split; [|split].
  - intros prev Hlast.
    assert (in_int64 (rewardEpochId prev)) as Hprev.
    { apply (added_wf s prev Hs). rewrite last_lookup in Hlast.
      apply list_elem_of_lookup. eauto. }
    unfold Add, checkConsistency. rewrite Hlast. split.
    + intros Hne. rewrite decide_True; [done|].
      intros Heq. apply Hne. by apply wrap64_pred_succ.
    + intros Hlt. destruct (decide (rewardEpochId prev ≠ _)); [eauto|].
      rewrite decide_True by done. eauto.
  - intros msg Herr. by destruct (Add_Err s sp msg Herr).
  - intros i p q Hp Hq.
    destruct (added_chained s Hs i p q Hp Hq) as [Hid Hstart].
    assert (in_int64 (rewardEpochId p)) as Hpr.
    { apply (added_wf s p Hs). apply list_elem_of_lookup. eauto. }
    assert (in_int64 (rewardEpochId q)) as Hqr.
    { apply (added_wf s q Hs). apply list_elem_of_lookup. eauto. }
    apply wrap64_pred_succ in Hid; [|done..].
    split; [done|]. split; [|done].
    intros Hne. destruct (wrap64_succ_cases _ Hpr) as [[_ Hw]|[Hmax _]];
      [congruence|done].
Qed.

Lemma Add_consistency_witness :
  added store_same_start /\ wf_policy (policy_at 4 9) /\
  (forall prev, last (spList store_same_start) = Some prev ->
     (rewardEpochId (policy_at 4 9) <> wrap64 (rewardEpochId prev + 1) ->
      Add store_same_start (policy_at 4 9)
        = (store_same_start, Err (err_missing (policy_at 4 9)))) /\
     (startVotingRoundId (policy_at 4 9) < startVotingRoundId prev ->
      exists msg,
        Add store_same_start (policy_at 4 9) = (store_same_start, Err msg))) /\
  (forall msg, (Add store_same_start (policy_at 4 9)).2 = Err msg ->
     (Add store_same_start (policy_at 4 9)).1 = store_same_start) /\
  (forall i p q, spList store_same_start !! i = Some p ->
     spList store_same_start !! S i = Some q ->
     rewardEpochId q = wrap64 (rewardEpochId p + 1) /\
     (rewardEpochId p <> max_int64 -> rewardEpochId q = rewardEpochId p + 1) /\
     startVotingRoundId p <= startVotingRoundId q).
Proof.
  split; [apply added_store_same_start|].
  assert (wf_policy (policy_at 4 9)) as Hwf.
  { apply wf_policy_at; vm_compute; split; congruence. }
  split; [exact Hwf|].
  exact (Add_consistency store_same_start (policy_at 4 9)
           added_store_same_start Hwf).
Defined.

(** *** The voter map *)

Lemma indexVoters_lookup ws vs : forall i m m',
  indexVoters ws i vs m = (m', true) ->
  forall a, m' !! a =
    match m !! a with
    | Some d => Some d
    | None =>
        match list_find (eq a) vs with
        | Some (j, _) =>
            w ← ws !! (i + j)%nat;
            Some {| index := Z.of_nat (i + j); weight := w |}
        | None => None
        end
    end.
Proof.
  induction vs as [|voter rest IH]; intros i m m' Hrun a; simpl in Hrun.
  - injection Hrun as <-. simpl. by destruct (m !! a).
  - simpl. destruct (m !! voter) as [d|] eqn:Hvoter.
    + rewrite (IH _ _ _ Hrun a). destruct (m !! a) as [da|] eqn:Ha; [done|].
      destruct (decide (a = voter)) as [->|Hne]; [congruence|].
      destruct (list_find (eq a) rest) as [[j x]|]; simpl; [|done].
      by replace (i + S j)%nat with (S (i + j)) by lia.
    + destruct (ws !! i) as [w|] eqn:Hw; [|done].
      rewrite (IH _ _ _ Hrun a).
      destruct (decide (a = voter)) as [->|Hne].
      * rewrite lookup_insert_eq, Hvoter, Nat.add_0_r, Hw. done.
      * rewrite lookup_insert_ne by done.
        destruct (m !! a) as [da|]; [done|].
        destruct (list_find (eq a) rest) as [[j x]|]; simpl; [|done].
        by replace (i + S j)%nat with (S (i + j)) by lia.
Qed.

(** Along a chain the ids advance by one modulo [2^64]. *)
Lemma chained_offset l : chained l ->
  forall d i p q, l !! i = Some p -> l !! (i + d)%nat = Some q ->
    exists k, rewardEpochId q = rewardEpochId p + Z.of_nat d + k * 2 ^ 64.
Proof.
  intros Hl. induction d as [|d IH]; intros i p q Hp Hq.
  - rewrite Nat.add_0_r, Hp in Hq. injection Hq as <-. exists 0. lia.
  - destruct (lookup_lt_is_Some_2 l (i + d)) as [m Hm].
    { apply lookup_lt_Some in Hq. lia. }
    destruct (IH i p m Hp Hm) as [k Hk].
    replace (i + S d)%nat with (S (i + d)) in Hq by lia.
    destruct (Hl (i + d)%nat m q Hm Hq) as [Hid _].
    destruct (wrap64_spec (rewardEpochId q - 1)) as [j Hj].
    exists (k - j). lia.
Qed.

Lemma chained_NoDup l :
  chained l -> fits_slice l -> NoDup (rewardEpochId <$> l).
Proof.
  intros Hl Hfit. apply NoDup_alt. intros i j x Hi Hj.
  apply list_lookup_fmap_Some in Hi as (p & -> & Hp).
  apply list_lookup_fmap_Some in Hj as (q & Hj & Hq).
  pose proof (lookup_lt_Some _ _ _ Hp). pose proof (lookup_lt_Some _ _ _ Hq).
  unfold fits_slice, max_int64 in Hfit.
  destruct (decide (i = j)) as [|Hne]; [done|exfalso].
  destruct (decide (i < j)%nat).
  - replace j with (i + (j - i))%nat in Hq by lia.
    destruct (chained_offset l Hl _ _ _ _ Hp Hq) as [k Hk]. lia.
  - replace i with (j + (i - j))%nat in Hp by lia.
    destruct (chained_offset l Hl _ _ _ _ Hq Hp) as [k Hk]. lia.
Qed.

(** What the loop of [RemoveByVotingRound] takes off the front. *)
Lemma removeLoop_spec v l : forall vm acc l' vm' acc',
  removeLoop v l vm acc = (l', vm', acc') ->
  exists gone,
    l = gone ++ l' /\
    vm' = foldl (fun m p => delete (rewardEpochId p) m) vm gone /\
    acc' = acc ++ ((fun p => uint32 (rewardEpochId p)) <$> gone) /\
    (forall p, p ∈ gone -> startVotingRoundId p <= v) /\
    (forall p, head l' = Some p -> v < startVotingRoundId p).
Proof.
  induction l as [|sp rest IH]; intros vm acc l' vm' acc' Hrun; simpl in Hrun.
  - injection Hrun as <- <- <-. exists []. simpl.
    rewrite app_nil_r. split_and!; [done..|by intros ? ?%elem_of_nil|done].
  - destruct (decide (startVotingRoundId sp <= v)) as [Hle|Hgt].
    + destruct (IH _ _ _ _ _ Hrun) as (gone & -> & -> & -> & Hgone & Hhead).
      exists (sp :: gone). simpl. rewrite <- app_assoc. simpl.
      split_and!; [done..| |done].
      intros p [->|Hin]%elem_of_cons; auto.
    + injection Hrun as <- <- <-. exists []. simpl.
      rewrite app_nil_r. split_and!; [done..|by intros ? ?%elem_of_nil|].
      intros p [= <-]. lia.
Qed.

Lemma dom_delete_all (vm : gmap Z (gmap N voterData)) gone :
  dom (foldl (fun m p => delete (rewardEpochId p) m) vm gone)
  = dom vm ∖ stored_epochs gone.
Proof.
  unfold stored_epochs. revert vm.
  induction gone as [|p gone IH]; intros vm; simpl.
  - set_solver.
  - rewrite IH, dom_delete_L. set_solver.
Qed.

Lemma lookup_delete_all (vm : gmap Z (gmap N voterData)) gone p :
  p ∈ gone ->
  foldl (fun m p => delete (rewardEpochId p) m) vm gone !! rewardEpochId p
  = None.
Proof.
  intros Hin. apply not_elem_of_dom. rewrite dom_delete_all.
  unfold stored_epochs. set_solver.
Qed.

Lemma chained_app_r l1 l2 : chained (l1 ++ l2) -> chained l2.
Proof.
  intros H i p q Hp Hq. apply (H (length l1 + i)%nat).
  - by rewrite lookup_app_r, Nat.add_comm, Nat.add_sub by lia.
  - replace (S (length l1 + i)) with (length l1 + S i)%nat by lia.
    by rewrite lookup_app_r, Nat.add_comm, Nat.add_sub by lia.
Qed.

Lemma RemoveByVotingRound_spec s v :
  exists gone,
    spList s = gone ++ spList (RemoveByVotingRound s v).1 /\
    voterMap (RemoveByVotingRound s v).1
      = foldl (fun m p => delete (rewardEpochId p) m) (voterMap s) gone /\
    (RemoveByVotingRound s v).2
      = (fun p => uint32 (rewardEpochId p)) <$> gone /\
    (forall p, p ∈ gone -> startVotingRoundId p <= v) /\
    (forall p, head (spList (RemoveByVotingRound s v).1) = Some p ->
       v < startVotingRoundId p).
Proof.
  unfold RemoveByVotingRound.
  destruct (removeLoop v (spList s) (voterMap s) []) as [[l' vm'] acc'] eqn:Hrun.
  destruct (removeLoop_spec _ _ _ _ _ _ _ Hrun) as (gone & ? & ? & ? & ? & ?).
  exists gone. simpl. done.
Qed.

Lemma reachable_inv s : reachable s -> store_inv s.
Proof.
  induction 1 as [|s sp _ IH Hok Hfit|s sp msg _ IH Herr|s v _ IH].
  - split; [apply chained_nil|]. split; [by vm_compute|].
    unfold stored_epochs. simpl. set_solver.
  - destruct IH as (Hch & _ & Hdom).
    destruct (Add_Ok s sp Hok) as (Hc & Hl & Hvm).
    split; [|split; [done|]].
    + rewrite Hl. apply chained_snoc; [done|]. by apply checkConsistency_None.
    + rewrite Hl, Hvm, dom_insert_L, Hdom. unfold stored_epochs.
      rewrite fmap_app, list_to_set_app_L. simpl. set_solver.
  - destruct (Add_Err s sp msg Herr) as [_ ->]. done.
  - destruct IH as (Hch & Hfit & Hdom).
    destruct (RemoveByVotingRound_spec s v) as (gone & Hl & Hvm & _).
    set (s' := (RemoveByVotingRound s v).1) in *.
    split; [|split].
    + apply (chained_app_r gone). by rewrite <- Hl.
    + unfold fits_slice in *. rewrite Hl, length_app in Hfit. lia.
    + rewrite Hvm, dom_delete_all, Hdom.
      pose proof (chained_NoDup _ Hch Hfit) as Hnd.
      rewrite Hl, fmap_app in Hnd. apply NoDup_app in Hnd as (_ & Hdisj & _).
      unfold stored_epochs. rewrite Hl, fmap_app, list_to_set_app_L.
      set_solver.
Qed.

Lemma reachable_store_after_removal : reachable store_after_removal.
Proof.
  unfold store_after_removal.
  apply reachable_Remove.
  apply reachable_Add; [apply reachable_Add; [apply reachable_new|..]|..];
    first [reflexivity | by vm_compute].
Qed.

Example store_after_removal_contents :
  rewardEpochId <$> spList store_after_removal = [2] /\
  map_to_list <$> voterMap store_after_removal !! 2
    = Some [(9%N, {| index := 1; weight := 60 |});
            (7%N, {| index := 0; weight := 50 |})] /\
  voterMap store_after_removal !! 1 = None.
Proof. split; [|split]; reflexivity. Qed.

(** C10.  In every store reached by [Add] and [RemoveByVotingRound] calls
    the keys of the voter map are the reward epoch ids of the stored
    policies.  An accepted [Add] installs, under the new policy's epoch,
    the map that gives every voter address the entry of its first
    occurrence; [RemoveByVotingRound] takes a prefix off the list and
    leaves no entry for the epoch of any policy it took. *)
Theorem voterMap_tracks_policies s :
  reachable s ->
  dom (voterMap s) = stored_epochs (spList s) /\
  (forall sp, (Add s sp).2 = Ok ->
     exists vMap,
       voterMap (Add s sp).1 !! rewardEpochId sp = Some vMap /\
       forall a, vMap !! a = first_entry sp a) /\
  (forall v, exists gone,
     spList s = gone ++ spList (RemoveByVotingRound s v).1 /\
     forall p, p ∈ gone ->
       voterMap (RemoveByVotingRound s v).1 !! rewardEpochId p = None).
Proof.
  intros Hs. destruct (reachable_inv s Hs) as (_ & _ & Hdom).
  split; [done|]. split.
  - intros sp Hok. destruct (Add_Ok s sp Hok) as (_ & _ & ->).
    eexists. split; [apply lookup_insert_eq|]. intros a.
    unfold Add in Hok.
    destruct (checkConsistency (spList s) sp); [done|].
    destruct (indexVoters (weights sp) 0 (voters sp) ∅)
      as [vMap completed] eqn:Hrun.
    destruct completed; [|done]. simpl.
    rewrite (indexVoters_lookup _ _ _ _ _ Hrun a), lookup_empty.
    unfold first_entry. by destruct (list_find (eq a) (voters sp)) as [[j x]|].
  - intros v. destruct (RemoveByVotingRound_spec s v) as (gone & Hl & Hvm & _).
    exists gone. split; [done|]. intros p Hp. rewrite Hvm.
    by apply lookup_delete_all.
Qed.

Lemma voterMap_tracks_policies_witness :
  reachable store_after_removal /\
  dom (voterMap store_after_removal)
    = stored_epochs (spList store_after_removal) /\
  (forall sp, (Add store_after_removal sp).2 = Ok ->
     exists vMap,
       voterMap (Add store_after_removal sp).1 !! rewardEpochId sp
         = Some vMap /\
       forall a, vMap !! a = first_entry sp a) /\
  (forall v, exists gone,
     spList store_after_removal
       = gone ++ spList (RemoveByVotingRound store_after_removal v).1 /\
     forall p, p ∈ gone ->
       voterMap (RemoveByVotingRound store_after_removal v).1
         !! rewardEpochId p = None).
Proof.
  split; [apply reachable_store_after_removal|].
  apply (voterMap_tracks_policies store_after_removal).
  apply reachable_store_after_removal.
Defined.

End FinalizerFacts.

(** ** The retry harness *)
Module SharedFacts.
Import Shared SharedSpec.

Section Retry.

Context {W : Type}.
Variable f : W -> W * option string.

Abbreviation world_before := (world_before f).
Abbreviation call_result := (call_result f).

Lemma retryLoop_trace n : forall ri w,
  exists errs,
    (forall i e, errs !! i = Some e -> call_result w i = Some e) /\
    ((length errs < n)%nat /\
     call_result w (length errs) = None /\
     retryLoop f n ri w =
       (world_before (S (length errs)) w,
        failed_attempts ri errs
          ++ [EvCall (ri + Z.of_nat (length errs)); EvSend success_status])
     \/
     length errs = n /\
     retryLoop f n ri w =
       (world_before n w, failed_attempts ri errs ++ [EvSend failure_status])).
Proof.
  induction n as [|n IH]; intros ri w; simpl.
  - exists []. split; [by intros i e ?|]. right. done.
  - assert (Hres : forall k, call_result w (S k) = call_result (f w).1 k)
      by done.
    destruct (f w) as [w1 [e|]] eqn:Hf; simpl in Hres.
    + destruct (IH (ri + 1) w1) as (errs & Herrs & Hcases).
      exists (e :: errs). split.
      { intros [|i] e'; simpl.
        - intros [= <-]. unfold call_result. simpl. by rewrite Hf.
        - rewrite Hres. apply Herrs. }
      change (length (e :: errs)) with (S (length errs)).
      destruct Hcases as [(Hlt & Hnone & ->)|(Hlen & ->)]; [left|right].
      * split; [lia|]. split; [by rewrite Hres|].
        simpl.
        by replace (ri + 1 + Z.of_nat (length errs))
          with (ri + Z.of_nat (S (length errs))) by lia.
      * split; [lia|]. subst n. done.
    + exists []. split; [by intros i e ?|]. left. simpl.
      split; [lia|]. unfold call_result. simpl. rewrite Hf. simpl.
      split; [done|]. by rewrite Z.add_0_r.
Qed.

End Retry.

Lemma sends_failed_attempts ri errs : sends (failed_attempts ri errs) = [].
Proof. revert ri. induction errs as [|e errs IH]; intros ri; simpl; auto. Qed.

Lemma calls_failed_attempts ri errs :
  calls (failed_attempts ri errs)
  = (fun i => ri + Z.of_nat i) <$> seq 0 (length errs).
Proof.
  revert ri. induction errs as [|e errs IH]; intros ri; [done|].
  simpl. unfold calls in *. simpl. rewrite IH. f_equal; [f_equal; lia|].
  rewrite <- fmap_S_seq, <- list_fmap_compose. apply list_fmap_ext.
  intros _ i _. simpl. lia.
Qed.

Lemma sleeps_failed_attempts ri errs :
  sleeps (failed_attempts ri errs) = replicate (length errs) TxRetryInterval.
Proof.
  revert ri. induction errs as [|e errs IH]; intros ri; [done|].
  simpl. unfold sleeps in *. simpl. by rewrite IH.
Qed.

(** C3, as stated, fails: the loop runs [maxRetries] times, not
    [max 1 maxRetries] times.  With [maxRetries = 0] an operation that
    would succeed is never attempted, and the status delivered is the
    failure. *)
Lemma ExecuteWithRetry_zero_retries :
  ExecuteWithRetry (fun w : unit => (w, None)) 0 tt
    = (tt, [EvSend {| Success := false; Message := "max retries reached" |}])
  /\ length (calls (ExecuteWithRetry (fun w : unit => (w, None)) 0 tt).2)
       <> Z.to_nat (Z.max 1 0)
  /\ recv (ExecuteWithRetry (fun w : unit => (w, None)) 0 tt).2
       <> Some {| Success := true; Message := "" |}.
Proof. split; [reflexivity|]. split; [by vm_compute|by vm_compute]. Qed.

(** C3, amended.  [ExecuteWithRetry f maxRetries] attempts [f] at most
    [max 0 maxRetries] times, numbered from 0, each attempt but the last
    one made having failed.  After every failed attempt it logs the error
    and sleeps [TxRetryInterval], so exactly once between two attempts
    and once more after the last failed attempt: it sleeps as many times
    as attempts failed.  It sends exactly one
    status, as its last action: the success right after the first
    attempt that succeeds, or else, after [max 0 maxRetries] failed
    attempts, the failure "max retries reached". *)
Theorem ExecuteWithRetry_trace {W : Type} (f : W -> W * option string)
    (maxRetries : Z) (w : W) :
  exists errs,
    (forall i e, errs !! i = Some e -> call_result f w i = Some e) /\
    (length errs <= Z.to_nat maxRetries)%nat /\
    sends (ExecuteWithRetry f maxRetries w).2
      = [if decide (length errs < Z.to_nat maxRetries)%nat
         then success_status else failure_status] /\
    sleeps (ExecuteWithRetry f maxRetries w).2
      = replicate (length errs) TxRetryInterval /\
    if decide (length errs < Z.to_nat maxRetries)%nat
    then
      call_result f w (length errs) = None /\
      ExecuteWithRetry f maxRetries w =
        (world_before f (S (length errs)) w,
         failed_attempts 0 errs
           ++ [EvCall (Z.of_nat (length errs)); EvSend success_status])
    else
      ExecuteWithRetry f maxRetries w =
        (world_before f (Z.to_nat maxRetries) w,
         failed_attempts 0 errs ++ [EvSend failure_status]).
Proof.
  unfold ExecuteWithRetry.
  destruct (retryLoop_trace f (Z.to_nat maxRetries) 0 w)
    as (errs & Herrs & [(Hlt & Hnone & Hrun)|(Hlen & Hrun)]);
    exists errs; (split; [done|]); rewrite Hrun; cbn [fst snd];
    (split; [lia|]);
    unfold sends, sleeps; rewrite !omap_app;
    fold (sends (failed_attempts 0 errs));
    fold (sleeps (failed_attempts 0 errs));
    rewrite sends_failed_attempts, sleeps_failed_attempts, app_nil_r;
    (destruct (decide (length errs < Z.to_nat maxRetries)%nat); [|try lia]);
    try lia.
  - split; [done|]. split; [done|]. split; [done|]. by rewrite Z.add_0_l.
  - done.
Qed.

End SharedFacts.

(** ** Byte slices *)
Module GoSliceFacts.
Import GoSlice.

Lemma take_drop_take (A : Type) (l : list A) lo hi n :
  (lo <= hi <= n)%nat ->
  take (hi - lo) (drop lo (take n l)) = take (hi - lo) (drop lo l).
Proof.
  intros H. rewrite List.skipn_firstn_comm, List.firstn_firstn.
  by rewrite Nat.min_l by lia.
Qed.

(** A slice expression within the length reads the shown bytes. *)
Lemma subslice_within s lo hi :
  slice_ok s -> (lo <= hi <= len s)%nat ->
  subslice s lo hi = Some (take (hi - lo) (drop lo (bytes s))).
Proof.
  unfold slice_ok, subslice, bytes. intros Hok H.
  rewrite decide_True by lia. f_equal. symmetry. by apply take_drop_take.
Qed.

Lemma subslice_None s lo hi :
  (lo <= hi)%nat -> (subslice s lo hi = None <-> (cap s < hi)%nat).
Proof.
  unfold subslice. intros H. case_decide; split; intros; try done; lia.
Qed.

Lemma length_bytes s : slice_ok s -> length (bytes s) = len s.
Proof. unfold slice_ok, bytes, cap. intros H. rewrite length_take. lia. Qed.

Lemma append_zeros_spec grow s n :
  slice_ok s ->
  slice_ok (append_zeros grow s n) /\
  len (append_zeros grow s n) = (len s + n)%nat /\
  bytes (append_zeros grow s n) = bytes s ++ replicate n 0.
Proof.
  unfold slice_ok, append_zeros, bytes, cap. intros Hok.
  case_decide; simpl.
  - rewrite !length_app, length_take, length_replicate, length_drop.
    split; [lia|]. split; [done|].
    rewrite app_assoc, take_app_length'; [done|].
    rewrite length_app, length_take, length_replicate. lia.
  - rewrite !length_app, length_take, length_replicate.
    split; [lia|]. split; [done|].
    rewrite take_app_ge by (rewrite length_take; lia).
    rewrite length_take, take_replicate. do 2 f_equal. lia.
Qed.

End GoSliceFacts.

(** ** The signing-policy hash *)
Module RegistrationFacts.
Import GoSlice GoSliceFacts Registration RegistrationSpec.

Section Hash.

Variable keccak256 : list Z -> list Z.
Variable grow : nat -> nat -> nat.

Abbreviation SigningPolicyHash := (SigningPolicyHash keccak256 grow).
Abbreviation padded := (padded grow).
Abbreviation hashLoop := (hashLoop keccak256).
Abbreviation tiled_hash_spec := (tiled_hash_spec keccak256).

Lemma pad_amount n : (n mod 32 <> 0)%nat ->
  ((32 - n mod 32) mod 32 = 32 - n mod 32)%nat /\
  ((n + (32 - n mod 32)) mod 32 = 0)%nat.
Proof.
  intros Hn. pose proof (Nat.mod_upper_bound n 32 ltac:(lia)).
  split; [apply Nat.mod_small; lia|].
  pose proof (Nat.div_mod_eq n 32).
  replace (n + (32 - n mod 32))%nat with (0 + (S (n / 32)) * 32)%nat by lia.
  by rewrite Nat.Div0.mod_add.
Qed.

(** The padding step shows the zero-padded bytes, whatever the capacity. *)
Lemma padded_spec s :
  slice_ok s ->
  slice_ok (padded s) /\
  bytes (padded s) = zero_pad (bytes s) /\
  (len (padded s) mod 32 = 0)%nat /\
  (len s <= len (padded s))%nat.
Proof.
  intros Hok. unfold Registration.padded, zero_pad.
  rewrite (length_bytes s Hok). case_decide as Hmod.
  - destruct (append_zeros_spec grow s (32 - len s mod 32) Hok)
      as (Hok' & Hlen & Hbytes).
    destruct (pad_amount _ Hmod) as [Hpad Hzero].
    rewrite Hlen, Hbytes, Hpad. split; [done|]. split; [done|]. lia.
  - rewrite Hmod. simpl.
    rewrite app_nil_r. done.
Qed.

Lemma hashLoop_spec t n : forall i hash,
  slice_ok t -> ((i + n) * 32 <= len t)%nat ->
  hashLoop t n i hash
  = Some (foldl (fun h j => keccak256 (h ++ tile (bytes t) j)) hash (seq i n)).
Proof.
  induction n as [|n IH]; intros i hash Hok Hlen; [done|].
  cbn [Registration.hashLoop seq foldl].
  rewrite (subslice_within t (i * 32) ((i + 1) * 32) Hok) by lia.
  cbn [mbind option_bind].
  rewrite IH by (done || lia). unfold Keccak256, tile. simpl.
  rewrite app_nil_r. do 5 f_equal. lia.
Qed.

(** On a slice of at least 64 bytes, a multiple of 32, the hash is the
    fold of the specification over the shown bytes. *)
Lemma hash_of_tiles t :
  slice_ok t -> (len t mod 32 = 0)%nat -> (64 <= len t)%nat ->
  Registration.padded grow t = t /\
  SigningPolicyHash t
  = Some (foldl (fun h j => keccak256 (h ++ tile (bytes t) j))
            (keccak256 (tile (bytes t) 0 ++ tile (bytes t) 1))
            (seq 2 (len t / 32 - 2))).
Proof.
  intros Hok Hmod Hlen.
  assert (Registration.padded grow t = t) as Hpad.
  { unfold Registration.padded. by rewrite decide_False by lia. }
  split; [done|]. unfold Registration.SigningPolicyHash. rewrite Hpad.
  rewrite (subslice_within t 0 32 Hok) by lia.
  rewrite (subslice_within t 32 64 Hok) by lia.
  cbn [mbind option_bind].
  rewrite hashLoop_spec; [|done|].
  - unfold Keccak256, tile. simpl. by rewrite app_nil_r.
  - pose proof (Nat.div_mod_eq (len t) 32). lia.
Qed.

Lemma SigningPolicyHash_spec s :
  slice_ok s -> (32 < len s)%nat ->
  SigningPolicyHash s = Some (tiled_hash_spec (bytes s)).
Proof.
  intros Hok Hlen.
  destruct (padded_spec s Hok) as (Hok' & Hbytes & Hmod & Hle).
  assert (64 <= len (padded s))%nat as H64.
  { pose proof (Nat.div_mod_eq (len (padded s)) 32). lia. }
  destruct (hash_of_tiles (padded s) Hok' Hmod H64) as [Hpp Hhash].
  unfold Registration.SigningPolicyHash in *. rewrite Hpp in Hhash.
  rewrite Hhash. unfold Registration.tiled_hash_spec.
  by rewrite <- Hbytes, (length_bytes _ Hok').
Qed.

Lemma zero_pad_idem policy : zero_pad (zero_pad policy) = zero_pad policy.
Proof.
  unfold zero_pad at 1.
  assert ((length (zero_pad policy) mod 32)%nat = 0%nat) as ->.
  { unfold zero_pad. rewrite length_app, length_replicate.
    destruct (decide ((length policy mod 32)%nat = 0%nat)) as [Hz|Hnz].
    - rewrite Hz. simpl. by rewrite Nat.add_0_r.
    - destruct (pad_amount _ Hnz) as [-> ->]. done. }
  simpl. by rewrite app_nil_r.
Qed.

(** C7.  For a policy of more than 32 bytes [SigningPolicyHash] returns
    the left fold over the 32-byte tiles of the zero-padded bytes, seeded
    with [keccak256] of the first two tiles; so, when the length is not a
    multiple of 32, hashing any slice that shows the same bytes followed
    by the zeros that complete the last tile gives the same hash.  For a
    slice of any length, hashing what [append] returns for those zeros
    gives what hashing the slice itself gives. *)
Theorem SigningPolicyHash_tiled s :
  slice_ok s ->
  ((32 < len s)%nat ->
   SigningPolicyHash s = Some (tiled_hash_spec (bytes s)) /\
   ((len s mod 32)%nat <> 0%nat ->
    forall s', slice_ok s' ->
      bytes s' = bytes s ++ replicate (32 - len s mod 32) 0 ->
      SigningPolicyHash s' = SigningPolicyHash s)) /\
  ((len s mod 32)%nat <> 0%nat ->
   SigningPolicyHash (append_zeros grow s (32 - len s mod 32))
   = SigningPolicyHash s).
Proof.
  intros Hok. split.
  - intros Hlen. split; [by apply SigningPolicyHash_spec|].
    intros Hmod s' Hok' Hbytes.
    destruct (pad_amount _ Hmod) as [Hpad _].
    assert (bytes s' = zero_pad (bytes s)) as Hz.
    { unfold zero_pad. by rewrite (length_bytes s Hok), Hpad. }
    rewrite (SigningPolicyHash_spec s Hok Hlen).
    rewrite (SigningPolicyHash_spec s' Hok').
    + unfold Registration.tiled_hash_spec. by rewrite Hz, zero_pad_idem.
    + rewrite <- (length_bytes s' Hok'), Hbytes, length_app,
        (length_bytes s Hok). lia.
  - intros Hmod. destruct (pad_amount _ Hmod) as [_ Hzero].
    unfold Registration.SigningPolicyHash.
    assert (Registration.padded grow s
            = append_zeros grow s (32 - len s mod 32)) as ->.
    { unfold Registration.padded. by rewrite decide_True. }
    assert (Registration.padded grow (append_zeros grow s (32 - len s mod 32))
            = append_zeros grow s (32 - len s mod 32)) as ->; [|done].
    unfold Registration.padded. rewrite decide_False; [done|].
    assert (len (append_zeros grow s (32 - len s mod 32))
            = (len s + (32 - len s mod 32))%nat) as ->; [|lia].
    unfold append_zeros. by case_decide.
Qed.

Lemma len_padded s :
  len (padded s)
  = if decide ((len s mod 32)%nat ≠ 0%nat)
    then (len s + (32 - len s mod 32))%nat else len s.
Proof.
  unfold Registration.padded, append_zeros. repeat case_decide; done.
Qed.

Lemma len_padded_short s :
  (len s <= 32)%nat -> (len (padded s) / 32 - 2 = 0)%nat.
Proof.
  intros Hlen. rewrite len_padded.
  assert (forall n, (n <= 32)%nat -> (n / 32 - 2 = 0)%nat) as Hdiv.
  { intros n Hn. pose proof (Nat.div_mod_eq n 32).
    pose proof (Nat.mod_upper_bound n 32 ltac:(lia)). lia. }
  case_decide as Hmod; apply Hdiv; [|done].
  destruct (decide (len s = 32%nat)) as [H32|Hne].
  - rewrite H32 in Hmod. done.
  - rewrite Nat.mod_small by lia. lia.
Qed.

(** C9, as stated, fails: the bounds of a slice expression are those of
    the capacity.  The empty slice [make([]byte, 0, 64)] is resliced to
    its 64 backing bytes and hashed; nothing panics. *)
Lemma SigningPolicyHash_short_no_panic :
  Registration.SigningPolicyHash (fun b => b) (fun _ n => n)
    {| arr := replicate 64 0; len := 0 |} = Some (replicate 64 0) /\
  ~ (forall (keccak : list Z -> list Z) (growth : nat -> nat -> nat) s,
       slice_ok s -> (len s <= 32)%nat ->
       Registration.SigningPolicyHash keccak growth s = None).
Proof.
  split; [reflexivity|]. intros Hall.
  specialize (Hall (fun b => b) (fun _ n => n)
                {| arr := replicate 64 0; len := 0 |}).
  discriminate Hall; vm_compute; lia.
Qed.

(** C9, amended.  On an input of at most 32 bytes [SigningPolicyHash]
    panics exactly when the capacity of the slice, after the padding
    step, is below 64; so it panics on the empty slice and on a 32-byte
    slice that have no spare capacity.  With a capacity of 64 or more it
    does not panic: it returns [keccak256] of the first 64 bytes of the
    backing array, the bytes beyond the length included. *)
Theorem SigningPolicyHash_short s :
  (len s <= 32)%nat ->
  (SigningPolicyHash s = None <-> (cap (padded s) < 64)%nat) /\
  (cap s = len s -> (len s = 0)%nat \/ (len s = 32)%nat ->
   SigningPolicyHash s = None) /\
  ((64 <= cap (padded s))%nat ->
   SigningPolicyHash s = Some (keccak256 (take 64 (arr (padded s))))).
Proof.
  intros Hlen. pose proof (len_padded_short s Hlen) as Hn.
  assert (Hiff : SigningPolicyHash s = None <-> (cap (padded s) < 64)%nat).
  { unfold Registration.SigningPolicyHash. rewrite Hn.
    unfold subslice. repeat case_decide; simpl; split; intros; try done; lia. }
  split; [done|]. split.
  - intros Hcap Hcases. apply Hiff.
    unfold Registration.padded.
    rewrite decide_False; [lia|].
    destruct Hcases as [-> | ->]; intros Hne; by apply Hne.
  - intros Hcap. unfold Registration.SigningPolicyHash. rewrite Hn.
    unfold subslice. rewrite !decide_True by lia. simpl.
    unfold Keccak256. simpl. rewrite app_nil_r, drop_0.
    by rewrite (take_take_drop _ 32 32).
Qed.

End Hash.

Lemma SigningPolicyHash_tiled_witness :
  slice_ok policy33 /\
  ((32 < len policy33)%nat ->
   SigningPolicyHash (fun b => b) (fun _ n => n) policy33
   = Some (tiled_hash_spec (fun b => b) (bytes policy33)) /\
   ((len policy33 mod 32)%nat <> 0%nat ->
    forall s', slice_ok s' ->
      bytes s' = bytes policy33 ++ replicate (32 - len policy33 mod 32) 0 ->
      SigningPolicyHash (fun b => b) (fun _ n => n) s'
      = SigningPolicyHash (fun b => b) (fun _ n => n) policy33)) /\
  ((len policy33 mod 32)%nat <> 0%nat ->
   SigningPolicyHash (fun b => b) (fun _ n => n)
     (append_zeros (fun _ n => n) policy33 (32 - len policy33 mod 32))
   = SigningPolicyHash (fun b => b) (fun _ n => n) policy33).
Proof.
  assert (slice_ok policy33) as Hok by (vm_compute; lia).
  split; [exact Hok|].
  exact (SigningPolicyHash_tiled (fun b => b) (fun _ n => n) policy33 Hok).
Defined.

Lemma SigningPolicyHash_short_witness :
  (len policy32 <= 32)%nat /\
  (SigningPolicyHash (fun b => b) (fun _ n => n) policy32 = None <->
   (cap (padded (fun _ n => n) policy32) < 64)%nat) /\
  (cap policy32 = len policy32 ->
   (len policy32 = 0)%nat \/ (len policy32 = 32)%nat ->
   SigningPolicyHash (fun b => b) (fun _ n => n) policy32 = None) /\
  ((64 <= cap (padded (fun _ n => n) policy32))%nat ->
   SigningPolicyHash (fun b => b) (fun _ n => n) policy32
   = Some (take 64 (arr (padded (fun _ n => n) policy32)))).
Proof.
  assert (len policy32 <= 32)%nat as Hlen by (vm_compute; lia).
  split; [exact Hlen|].
  exact (SigningPolicyHash_short (fun b => b) (fun _ n => n) policy32 Hlen).
Defined.

(** The empty and the 32-byte input with no spare capacity, and a 25-byte
    input that the runtime reallocates with a capacity of 64. *)
Example SigningPolicyHash_panics :
  SigningPolicyHash (fun b => b) (fun _ n => n) (of_bytes []) = None /\
  SigningPolicyHash (fun b => b) (fun _ n => n) policy32 = None /\
  SigningPolicyHash (fun b => b) (fun _ _ => 64%nat)
    (of_bytes (replicate 25 1))
  = Some (replicate 25 1 ++ replicate 39 0).
Proof. split; [|split]; reflexivity. Qed.

End RegistrationFacts.

(** ** The payload codec and the submitters *)
Module ProtocolFacts.
Import GoInt GoIntFacts Protocol ProtocolSpec.

Lemma be_decode_Uint32toBytes x :
  0 <= x < 2 ^ 32 -> be_decode (Uint32toBytes x) = x.
Proof.
  intros Hx. unfold be_decode, Uint32toBytes. simpl.
  change (2 ^ 24) with 16777216. change (2 ^ 16) with 65536.
  change (2 ^ 8) with 256. change (2 ^ 32) with 4294967296 in Hx.
  Z.to_euclidean_division_equations. lia.
Qed.

Lemma uint32_range x : 0 <= uint32 x < 2 ^ 32.
Proof. unfold uint32. apply Z.mod_pos_bound. lia. Qed.

(** Two decrements in [int64], then the conversion to [uint32]. *)
Lemma uint32_two_decrements e :
  uint32 (wrap64 (wrap64 (e - 1) - 1)) = uint32 (e - 2).
Proof.
  rewrite uint32_wrap64. destruct (wrap64_spec (e - 1)) as [k ->].
  unfold uint32.
  replace (e - 1 + k * 2 ^ 64 - 1) with (e - 2 + (k * 2 ^ 32) * 2 ^ 32) by lia.
  apply Z.mod_add. lia.
Qed.

Lemma uint32_pred_ne e : uint32 (e - 2) <> uint32 (e - 1).
Proof.
  unfold uint32. change (2 ^ 32) with 4294967296.
  Z.to_euclidean_division_equations. lia.
Qed.

Section Codec.

Variable Sign : list Z -> option (list Z).
Variable TextHash : list Z -> list Z.
Variable keccak256 : list Z -> list Z.

Abbreviation WritePayload := (WritePayload Sign TextHash keccak256).
Abbreviation includeResponse := (includeResponse Sign TextHash keccak256).

(** C1 fails on the code.  [RunEpoch] at tick [e] calls [WritePayload]
    with [e-1], and [WritePayload] writes its argument less 1: whenever a
    response is included, the entry appended to the buffer starts with
    the protocol id 100 and carries at offset 1, big-endian, the epoch
    [e-2] -- never the target epoch [e-1], for which the response was
    fetched. *)
Theorem includeResponse_epoch_field buffer e data :
  (includeResponse buffer e data).2 = None ->
  exists entry,
    (includeResponse buffer e data).1 = buffer ++ entry /\
    entry !! 0%nat = Some 100 /\
    take 4 (drop 1 entry) = Uint32toBytes (uint32 (e - 2)) /\
    be_decode (take 4 (drop 1 entry)) = uint32 (e - 2) /\
    be_decode (take 4 (drop 1 entry)) <> uint32 (e - 1).
Proof.
  unfold Protocol.includeResponse, Protocol.WritePayload.
  destruct (Sign _) as [signature|]; [|done]. intros _.
  eexists. split; [reflexivity|]. split; [done|].
  rewrite uint32_two_decrements.
  assert (take 4 (drop 1 ([100] ++ Uint32toBytes (uint32 (e - 2)) ++
            Uint16toBytes
              (uint16 (104 + Z.of_nat (length (AdditionalData (Value data)))))
            ++ [0] ++ Data (Value data)
            ++ [uint8 (default 0 (signature !! 64%nat) + 27)]
            ++ take 32 signature ++ take 32 (drop 32 signature)
            ++ AdditionalData (Value data)))
          = Uint32toBytes (uint32 (e - 2))) as Hfield by done.
  rewrite Hfield. split; [done|].
  rewrite be_decode_Uint32toBytes by apply uint32_range.
  split; [done|]. apply uint32_pred_ne.
Qed.

End Codec.

Lemma includeResponse_epoch_field_witness :
  (includeResponse sign_fixed (fun b => b) (fun b => b) [] 5 response38).2
    = None /\
  exists entry,
    (includeResponse sign_fixed (fun b => b) (fun b => b) [] 5 response38).1
      = [] ++ entry /\
    entry !! 0%nat = Some 100 /\
    take 4 (drop 1 entry) = Uint32toBytes (uint32 (5 - 2)) /\
    be_decode (take 4 (drop 1 entry)) = uint32 (5 - 2) /\
    be_decode (take 4 (drop 1 entry)) <> uint32 (5 - 1).
Proof.
  split; [reflexivity|].
  apply (includeResponse_epoch_field sign_fixed (fun b => b) (fun b => b)
           [] 5 response38).
  reflexivity.
Defined.

(** The entry itself, at tick 5: the epoch field reads 3. *)
Example includeResponse_at_tick_5 :
  take 8 (includeResponse sign_fixed (fun b => b) (fun b => b) [] 5
            response38).1
  = [100; 0; 0; 0; 3; 0; 104; 0].
Proof. reflexivity. Qed.

Section Rounds.

Context {W : Type}.
Variable SendRawTx : list Z -> W -> W * option string.
Variable getDataWithRetry :
  SubProtocol -> Z -> string -> Z -> W -> W * FetchStatus.
Variable Sign : list Z -> option (list Z).
Variable TextHash : list Z -> list Z.
Variable keccak256 : list Z -> list Z.

Abbreviation launchFetches := (launchFetches getDataWithRetry).
Abbreviation collectPayloads := (collectPayloads Sign TextHash keccak256).
Abbreviation submit := (submit SendRawTx).
Abbreviation runRound :=
  (runRound SendRawTx getDataWithRetry Sign TextHash keccak256).

Lemma launchFetches_spec s e ps : forall i st,
  protocolsToSend (launchFetches s e i ps st) = protocolsToSend st /\
  trace (launchFetches s e i ps st)
  = trace st ++ fetches_for (protocolsToSend st) e i (length ps).
Proof.
  unfold fetches_for.
  induction ps as [|protocol rest IH]; intros i st; simpl.
  - by rewrite app_nil_r.
  - destruct (decide (i ∈ protocolsToSend st)) as [Hin|Hout].
    + destruct (getDataWithRetry _ _ _ _ _) as [w1 r].
      destruct (IH (S i) {| world := w1;
                            protocolsToSend := protocolsToSend st;
                            channels := <[i:=Some r]> (channels st);
                            trace := trace st
                                       ++ [EvFetch i (wrap64 (e - 1))] |})
        as [-> ->].
      simpl. split; [done|].
      rewrite filter_cons_True by done. simpl. by rewrite <- app_assoc.
    + destruct (IH (S i) st) as [-> ->]. split; [done|].
      by rewrite filter_cons_False by done.
Qed.

Lemma includeResponse_error buffer e data err :
  (Protocol.includeResponse Sign TextHash keccak256 buffer e data).2
    = Some err ->
  (Protocol.includeResponse Sign TextHash keccak256 buffer e data).1 = buffer.
Proof.
  unfold Protocol.includeResponse, Protocol.WritePayload.
  by destruct (Sign _).
Qed.

Lemma collectPayloads_subseteq e ps chans : forall i toSend buffer,
  (collectPayloads e i ps chans toSend buffer).1 ⊆ toSend.
Proof.
  induction ps as [|protocol rest IH]; intros i toSend buffer; simpl; [done|].
  destruct (decide (i ∈ toSend)); [|apply IH].
  destruct (chans !! i) as [[data|]|]; [|apply IH..].
  destruct (fetchSuccess data); [|apply IH].
  destruct (Protocol.includeResponse _ _ _ _ _ _) as [buffer1 [err|]];
    [apply IH|].
  etrans; [apply IH|]. set_solver.
Qed.

(** When nothing was taken off the set, nothing was written. *)
Lemma collectPayloads_nothing e ps chans : forall i toSend buffer,
  (collectPayloads e i ps chans toSend buffer).1 = toSend ->
  (collectPayloads e i ps chans toSend buffer).2 = buffer.
Proof.
  induction ps as [|protocol rest IH]; intros i toSend buffer; simpl; [done|].
  destruct (decide (i ∈ toSend)) as [Hin|]; [|apply IH].
  destruct (chans !! i) as [[data|]|]; [|apply IH..].
  destruct (fetchSuccess data); [|apply IH].
  destruct (Protocol.includeResponse _ _ _ _ _ _) as [buffer1 [err|]] eqn:Hinc.
  - pose proof (includeResponse_error buffer e data err) as Hbuf.
    rewrite Hinc in Hbuf. simpl in Hbuf. rewrite Hbuf by done. apply IH.
  - intros Heq. exfalso.
    pose proof (collectPayloads_subseteq e rest chans (S i)
                  (toSend ∖ {[i]}) buffer1) as Hsub.
    rewrite Heq in Hsub. set_solver.
Qed.

Lemma size_lt_iff_ne (X Y : gset nat) :
  X ⊆ Y -> ((size X < size Y)%nat <-> X ≠ Y).
Proof.
  intros Hsub. split.
  - intros Hlt ->. lia.
  - intros Hne. apply subset_size. set_solver.
Qed.

(** An entry that [WritePayload] writes is never empty. *)
Lemma includeResponse_appends buffer e data :
  (Protocol.includeResponse Sign TextHash keccak256 buffer e data).2 = None ->
  exists entry,
    entry <> [] /\
    (Protocol.includeResponse Sign TextHash keccak256 buffer e data).1
    = buffer ++ entry.
Proof.
  unfold Protocol.includeResponse, Protocol.WritePayload.
  destruct (Sign _); [|done]. intros _. eexists. split; [|reflexivity]. done.
Qed.

(** The second loop only appends to the buffer, and it appends something
    exactly when it takes an index off the set. *)
Lemma collectPayloads_appended e ps chans : forall i toSend buffer,
  exists appended,
    (collectPayloads e i ps chans toSend buffer).2 = buffer ++ appended /\
    (appended = [] <->
     (collectPayloads e i ps chans toSend buffer).1 = toSend).
Proof.
  induction ps as [|protocol rest IH]; intros i toSend buffer; simpl.
  - exists []. by rewrite app_nil_r.
  - destruct (decide (i ∈ toSend)) as [Hin|]; [|apply IH].
    destruct (chans !! i) as [[data|]|]; [|apply IH..].
    destruct (fetchSuccess data); [|apply IH].
    destruct (Protocol.includeResponse _ _ _ _ _ _) as [buffer1 [err|]]
      eqn:Hinc.
    + pose proof (includeResponse_error buffer e data err) as Hbuf.
      rewrite Hinc in Hbuf. simpl in Hbuf. rewrite Hbuf by done. apply IH.
    + pose proof (includeResponse_appends buffer e data) as Hentry.
      rewrite Hinc in Hentry. simpl in Hentry.
      destruct (Hentry eq_refl) as (entry & Hne & ->).
      destruct (IH (S i) (toSend ∖ {[i]}) (buffer ++ entry))
        as (appended & Happ & _).
      exists (entry ++ appended). rewrite Happ, <- app_assoc.
      split; [done|]. split.
      * intros Hnil. by destruct entry.
      * intros Heq. exfalso.
        pose proof (collectPayloads_subseteq e rest chans (S i)
                      (toSend ∖ {[i]}) (buffer ++ entry)) as Hsub.
        rewrite Heq in Hsub. set_solver.
Qed.

(** C4.  In a round of [RunEpoch] that starts with the outstanding set
    [P]: the fetches launched are those for [P]; the second loop only
    appends to the buffer, which starts as the selector, and it appends
    an entry exactly when it takes an index off [P].  If an entry was
    appended and the submission fails, the round ends with the set [P]
    again, and the round that follows launches the fetches for [P]
    again.  If no entry was appended, the buffer is the selector alone
    and the round submits nothing: the chain is not touched and the
    round only logs that there was no new data. *)
Theorem runRound_restores_on_failure s e st :
  let ps := subProtocols (sigBase s) in
  let st1 := launchFetches s e 0 ps st in
  let col := collectPayloads e 0 ps (channels st1) (protocolsToSend st)
               (selector (sigBase s)) in
  let sub := submit (sigBase s) col.2 (world st1) in
  let st' := runRound s e st in
  trace st1 = trace st ++ fetches_for (protocolsToSend st) e 0 (length ps) /\
  col.1 ⊆ protocolsToSend st /\
  (col.1 ≠ protocolsToSend st -> sub.2 = false ->
     protocolsToSend st' = protocolsToSend st /\
     trace st' = trace st1 ++ [EvSubmit col.2 false] /\
     trace (launchFetches s e 0 ps st')
     = trace st' ++ fetches_for (protocolsToSend st) e 0 (length ps)) /\
  (col.1 ≠ protocolsToSend st -> sub.2 = true ->
     protocolsToSend st' = col.1 /\
     trace st' = trace st1 ++ [EvSubmit col.2 true]) /\
  (col.1 = protocolsToSend st ->
     col.2 = selector (sigBase s) /\
     protocolsToSend st' = protocolsToSend st /\
     world st' = world st1 /\
     trace st' = trace st1 ++ [EvNoNewData]) /\
  exists appended,
    col.2 = selector (sigBase s) ++ appended /\
    (appended = [] <-> col.1 = protocolsToSend st) /\
    (appended <> [] -> sub.2 = false ->
       protocolsToSend st' = protocolsToSend st /\
       trace st' = trace st1 ++ [EvSubmit col.2 false] /\
       trace (launchFetches s e 0 ps st')
       = trace st' ++ fetches_for (protocolsToSend st) e 0 (length ps)) /\
    (appended <> [] -> sub.2 = true ->
       protocolsToSend st' = col.1 /\
       trace st' = trace st1 ++ [EvSubmit col.2 true]) /\
    (appended = [] ->
       protocolsToSend st' = protocolsToSend st /\
       world st' = world st1 /\
       trace st' = trace st1 ++ [EvNoNewData]).
Proof.
  intros ps st1 col sub st'.
  destruct (launchFetches_spec s e ps 0 st) as [Hset Htrace].
  fold st1 in Hset, Htrace.
  pose proof (collectPayloads_subseteq e ps (channels st1) 0
                (protocolsToSend st) (selector (sigBase s))) as Hsub.
  fold col in Hsub.
  assert (Hround : st' =
    if decide (size col.1 < size (protocolsToSend st))%nat
    then {| world := sub.1;
            protocolsToSend := if sub.2 then col.1 else protocolsToSend st;
            channels := channels st1;
            trace := trace st1 ++ [EvSubmit col.2 sub.2] |}
    else {| world := world st1;
            protocolsToSend := col.1;
            channels := channels st1;
            trace := trace st1 ++ [EvNoNewData] |}).
  { subst st'. unfold Protocol.runRound. fold ps. fold st1. rewrite Hset.
    fold col. destruct col as [toSend buffer] eqn:Hcol. simpl.
    case_decide; [|done]. subst sub. simpl.
    by destruct (Protocol.submit _ _ _ _) as [w1 ok]. }
  split; [done|]. split; [done|].
  pose proof (size_lt_iff_ne _ _ Hsub) as Hiff.
  assert (Hfailed : col.1 ≠ protocolsToSend st -> sub.2 = false ->
    protocolsToSend st' = protocolsToSend st /\
    trace st' = trace st1 ++ [EvSubmit col.2 false] /\
    trace (launchFetches s e 0 ps st')
    = trace st' ++ fetches_for (protocolsToSend st) e 0 (length ps)).
  { intros Hne Hfail. rewrite Hround, decide_True by by apply Hiff.
    rewrite Hfail. simpl. split; [done|]. split; [done|].
    destruct (launchFetches_spec s e ps 0
                {| world := sub.1; protocolsToSend := protocolsToSend st;
                   channels := channels st1;
                   trace := trace st1 ++ [EvSubmit col.2 false] |})
      as [_ ->]. done. }
  assert (Hsent : col.1 ≠ protocolsToSend st -> sub.2 = true ->
    protocolsToSend st' = col.1 /\
    trace st' = trace st1 ++ [EvSubmit col.2 true]).
  { intros Hne Hok. rewrite Hround, decide_True by by apply Hiff.
    rewrite Hok. done. }
  assert (Hidle : col.1 = protocolsToSend st ->
    col.2 = selector (sigBase s) /\
    protocolsToSend st' = protocolsToSend st /\
    world st' = world st1 /\
    trace st' = trace st1 ++ [EvNoNewData]).
  { intros Heq. rewrite Hround, decide_False by (rewrite Heq; lia).
    simpl. split; [|by rewrite Heq].
    subst col. by apply collectPayloads_nothing. }
  split; [done|]. split; [done|]. split; [done|].
  destruct (collectPayloads_appended e ps (channels st1) 0
              (protocolsToSend st) (selector (sigBase s)))
    as (appended & Happ & Hentry).
  fold col in Happ, Hentry.
  exists appended. split; [done|]. split; [done|]. split; [|split].
  - intros Hne. apply Hfailed. intros Heq. by apply Hne, Hentry.
  - intros Hne. apply Hsent. intros Heq. by apply Hne, Hentry.
  - intros Hnil. by apply Hidle, Hentry.
Qed.

End Rounds.

(** *** A run with a failing transaction (scenario S5 of the
    specification) *)
Example run_S5_trace :
  trace run_S5 =
    [EvFetch 0 4; EvFetch 1 4; EvFetch 2 4;
     EvSubmit ([1; 2; 3; 4] ++ entry_S5 ++ entry_S5) false;
     EvFetch 0 4; EvFetch 1 4; EvFetch 2 4;
     EvSubmit ([1; 2; 3; 4] ++ entry_S5 ++ entry_S5 ++ entry_S5) true] /\
  protocolsToSend run_S5 = ∅.
Proof. split; reflexivity. Qed.

Lemma runRound_restores_on_failure_witness :
  let ps := subProtocols (sigBase submitter_S5) in
  let st1 := launchFetches third_fails_first submitter_S5 5 0 ps start_S5 in
  let col := collectPayloads sign_fixed (fun b => b) (fun b => b) 5 0 ps
               (channels st1) (protocolsToSend start_S5)
               (selector (sigBase submitter_S5)) in
  let sub := submit send_second_only (sigBase submitter_S5) col.2
               (world st1) in
  let st' := runRound send_second_only third_fails_first sign_fixed
               (fun b => b) (fun b => b) submitter_S5 5 start_S5 in
  (col.1 ≠ protocolsToSend start_S5 /\ sub.2 = false) /\
  exists appended,
    col.2 = selector (sigBase submitter_S5) ++ appended /\
    appended <> [] /\
    protocolsToSend st' = protocolsToSend start_S5 /\
    trace st' = trace st1 ++ [EvSubmit col.2 false] /\
    trace (launchFetches third_fails_first submitter_S5 5 0 ps st')
    = trace st' ++ fetches_for (protocolsToSend start_S5) 5 0 (length ps).
Proof.
  intros ps st1 col sub st'.
  assert (col.1 ≠ protocolsToSend start_S5) as Hne.
  { intros Heq. assert (0%nat ∈ col.1) as Hin; [rewrite Heq; by vm_compute|].
    vm_compute in Hin. discriminate Hin. }
  assert (sub.2 = false) as Hfail by reflexivity.
  split; [done|].
  destruct (proj2 (proj2 (proj2 (proj2 (proj2
              (runRound_restores_on_failure send_second_only
                 third_fails_first sign_fixed (fun b => b) (fun b => b)
                 submitter_S5 5 start_S5))))))
    as (appended & Happ & Hentry & Hfailed & _ & _).
  assert (appended <> []) as Happended
    by (intros Hnil; apply Hne, Hentry, Hnil).
  exists appended. split; [exact Happ|]. split; [exact Happended|].
  exact (Hfailed Happended Hfail).
Defined.

(** *** The run loop *)
Lemma default_last_cons (d e : Z) l :
  default d (last (e :: l)) = default e (last l).
Proof. rewrite last_cons. by destruct (last l). Qed.





Section RunLoop.

Context {R W : Type} `{!EpochRunner R W}.



End RunLoop.




End ProtocolFacts.

(** ** The protocol client *)
Module ClientFacts.
Import Protocol Client ClientSpec.

(** C2, as stated, fails: the client has no third plain submitter.
    [NewProtocolClient] builds [submit1], [submit2] and the signature
    submitter, and [Run] starts these three goroutines; none of them is
    named "submit3". *)
Lemma Run_starts_no_submit3 :
  exists c,
    readme_client = (Some c, None) /\
    length (plainSubmitters (Run c).1) = 2%nat /\
    ~ (exists s, s ∈ plainSubmitters (Run c).1 /\ name (base s) = "submit3").
Proof.
  eexists. split; [reflexivity|]. split; [reflexivity|].
  intros (s & Hin & Hname). simpl in Hin.
  apply elem_of_cons in Hin as [->|Hin]; [discriminate Hname|].
  apply list_elem_of_singleton in Hin as ->. discriminate Hname.
Qed.

(** C2, amended.  A client that [NewProtocolClient] returns has two plain
    submitters, [submit1] with epoch offset 0 and [submit2] with epoch
    offset -1, and one signature submitter, all three over the configured
    sub-protocols; [Run] starts exactly these three, each as a goroutine
    of its own, and returns no error. *)
Theorem NewProtocolClient_submitters
    (DialETH NewFlareSystemManager VotingEpochFromChain
       newProtocolCredentials newProtocolAddresses
       : ClientConfig -> option string)
    (selectors : contractSelectors) (cfg : ClientConfig) (c : ProtocolClient) :
  NewProtocolClient DialETH NewFlareSystemManager VotingEpochFromChain
    newProtocolCredentials newProtocolAddresses selectors cfg = (Some c, None) ->
  submitter1 c
    = newSubmitter (Submit1 cfg) (submit1 selectors) (ProtocolCfg cfg) 0
        "submit1" /\
  submitter2 c
    = newSubmitter (Submit2 cfg) (submit2 selectors) (ProtocolCfg cfg) (-1)
        "submit2" /\
  signatureSubmitter c
    = newSignatureSubmitter (SignatureSubmitterCfg cfg)
        (submitSignatures selectors) (ProtocolCfg cfg) /\
  Run c = ([GoSubmitterRun (submitter1 c); GoSubmitterRun (submitter2 c);
            GoSignatureSubmitterRun (signatureSubmitter c)], None) /\
  (fun s => (name (base s), epochOffset s)) <$> plainSubmitters (Run c).1
    = [("submit1", 0); ("submit2", -1)] /\
  (fun s => name (sigBase s)) <$> signatureSubmitters (Run c).1
    = ["submitSignatures"].
Proof.
  unfold NewProtocolClient.
  destruct (EnabledProtocolVoting cfg); [|done]. simpl.
  destruct (DialETH cfg); [done|].
  destruct (NewFlareSystemManager cfg); [done|].
  destruct (VotingEpochFromChain cfg); [done|].
  destruct (newProtocolCredentials cfg); [done|].
  destruct (newProtocolAddresses cfg); [done|].
  intros [= <-]. done.
Qed.

Lemma NewProtocolClient_submitters_witness :
  exists c,
    readme_client = (Some c, None) /\
    submitter1 c
      = newSubmitter (Submit1 readme_config) (submit1 some_selectors)
          (ProtocolCfg readme_config) 0 "submit1" /\
    submitter2 c
      = newSubmitter (Submit2 readme_config) (submit2 some_selectors)
          (ProtocolCfg readme_config) (-1) "submit2" /\
    signatureSubmitter c
      = newSignatureSubmitter (SignatureSubmitterCfg readme_config)
          (submitSignatures some_selectors) (ProtocolCfg readme_config) /\
    Run c = ([GoSubmitterRun (submitter1 c); GoSubmitterRun (submitter2 c);
              GoSignatureSubmitterRun (signatureSubmitter c)], None) /\
    (fun s => (name (base s), epochOffset s)) <$> plainSubmitters (Run c).1
      = [("submit1", 0); ("submit2", -1)] /\
    (fun s => name (sigBase s)) <$> signatureSubmitters (Run c).1
      = ["submitSignatures"].
Proof.
  eexists. split; [reflexivity|].
  apply (NewProtocolClient_submitters no_error no_error no_error no_error
           no_error some_selectors readme_config).
  reflexivity.
Defined.

End ClientFacts.

(** * Further properties *)

(** ** More on the signing-policy store *)
Module FinalizerMore.
Import GoInt GoIntFacts Finalizer FinalizerSpec FinalizerFacts
  FinalizerMoreSpec.

Lemma reachable_sorted s : reachable s -> sorted_by_start (spList s).
Proof.
  intros Hs. destruct (reachable_inv s Hs) as (Hch & _). by apply chained_sorted.
Qed.

Lemma sorted_above_head l p v :
  sorted_by_start l -> head l = Some p -> v < startVotingRoundId p ->
  forall q, q ∈ l -> v < startVotingRoundId q.
Proof.
  intros Hsorted Hhead Hv q [i Hq]%list_elem_of_lookup.
  destruct l as [|p0 l]; [done|]. injection Hhead as ->.
  pose proof (Hsorted 0%nat i p q ltac:(lia) eq_refl Hq). lia.
Qed.

(** [RemoveByVotingRound] on a reachable store: the policies taken are a
    prefix of the list, exactly the stored policies that start at or
    before [v]; the ids returned are theirs, in order, converted to
    [uint32]; every policy left starts after [v]; and the store left is
    reachable. *)
Theorem RemoveByVotingRound_post s v :
  reachable s ->
  reachable (RemoveByVotingRound s v).1 /\
  exists gone,
    spList s = gone ++ spList (RemoveByVotingRound s v).1 /\
    (RemoveByVotingRound s v).2
      = (fun p => uint32 (rewardEpochId p)) <$> gone /\
    (forall p, p ∈ gone -> startVotingRoundId p <= v) /\
    (forall p, p ∈ spList (RemoveByVotingRound s v).1 ->
       v < startVotingRoundId p).
Proof.
  intros Hs. split; [by apply reachable_Remove|].
  destruct (RemoveByVotingRound_spec s v) as (gone & Hl & _ & Hret & Hgone & Hhead).
  exists gone. split_and!; [done..|].
  intros p Hp.
  pose proof (reachable_sorted _ (reachable_Remove s v Hs)) as Hsorted.
  destruct (spList (RemoveByVotingRound s v).1) as [|p0 rest] eqn:Hrest;
    [by apply elem_of_nil in Hp|].
  apply (sorted_above_head (p0 :: rest) p0); [done|done| |done].
  by apply Hhead.
Qed.

Lemma RemoveByVotingRound_post_witness :
  reachable store_after_removal /\
  reachable (RemoveByVotingRound store_after_removal 25).1 /\
  exists gone,
    spList store_after_removal
      = gone ++ spList (RemoveByVotingRound store_after_removal 25).1 /\
    (RemoveByVotingRound store_after_removal 25).2
      = (fun p => uint32 (rewardEpochId p)) <$> gone /\
    (forall p, p ∈ gone -> startVotingRoundId p <= 25) /\
    (forall p, p ∈ spList (RemoveByVotingRound store_after_removal 25).1 ->
       25 < startVotingRoundId p).
Proof.
  split; [apply reachable_store_after_removal|].
  apply (RemoveByVotingRound_post store_after_removal 25).
  apply reachable_store_after_removal.
Defined.

Lemma removeLoop_stops v l vm acc :
  (forall p, head l = Some p -> v < startVotingRoundId p) ->
  removeLoop v l vm acc = (l, vm, acc).
Proof.
  intros Hhead. destruct l as [|p l]; [done|]. simpl.
  rewrite decide_False; [done|]. specialize (Hhead p eq_refl). lia.
Qed.

(** A second [RemoveByVotingRound], for the same voting round or an
    earlier one, finds nothing to remove: it returns no id and leaves the
    store as the first call left it.  This holds for every store. *)
Theorem RemoveByVotingRound_again s v v' :
  v' <= v ->
  RemoveByVotingRound (RemoveByVotingRound s v).1 v'
  = ((RemoveByVotingRound s v).1, []).
Proof.
  intros Hle.
  destruct (RemoveByVotingRound_spec s v) as (gone & _ & _ & _ & _ & Hhead).
  destruct (RemoveByVotingRound s v).1 as [l vm] eqn:Hs'. simpl in Hhead.
  unfold RemoveByVotingRound at 1. simpl.
  rewrite removeLoop_stops; [done|].
  intros p Hp. specialize (Hhead p Hp). lia.
Qed.

Lemma RemoveByVotingRound_again_witness :
  10 <= 15 /\
  RemoveByVotingRound (RemoveByVotingRound store_same_start 15).1 10
  = ((RemoveByVotingRound store_same_start 15).1, []).
Proof.
  split; [lia|]. apply (RemoveByVotingRound_again store_same_start 15 10). lia.
Defined.

(** [First] returns nothing exactly on the empty store.  On a reachable
    store the policy it returns is the one stored longest, and no stored
    policy starts before it; right after [RemoveByVotingRound v] it
    starts after [v]. *)
Theorem First_least s :
  reachable s ->
  (First s = None <-> spList s = []) /\
  (forall p, First s = Some p ->
     spList s !! 0%nat = Some p /\
     forall q, q ∈ spList s ->
       startVotingRoundId p <= startVotingRoundId q) /\
  (forall v p, First (RemoveByVotingRound s v).1 = Some p ->
     v < startVotingRoundId p).
Proof.
  intros Hs. unfold First. split; [|split].
  - by destruct (spList s).
  - intros p Hp. rewrite <- head_lookup. split; [done|].
    intros q [i Hq]%list_elem_of_lookup.
    rewrite head_lookup in Hp.
    apply (reachable_sorted s Hs 0%nat i p q); [lia|done|done].
  - intros v p Hp.
    destruct (RemoveByVotingRound_spec s v) as (_ & _ & _ & _ & _ & Hhead).
    by apply Hhead.
Qed.

Lemma First_least_witness :
  reachable store_after_removal /\
  (First store_after_removal = None <-> spList store_after_removal = []) /\
  (forall p, First store_after_removal = Some p ->
     spList store_after_removal !! 0%nat = Some p /\
     forall q, q ∈ spList store_after_removal ->
       startVotingRoundId p <= startVotingRoundId q) /\
  (forall v p, First (RemoveByVotingRound store_after_removal v).1 = Some p ->
     v < startVotingRoundId p).
Proof.
  split; [apply reachable_store_after_removal|].
  apply (First_least store_after_removal).
  apply reachable_store_after_removal.
Defined.

Lemma findByVotingRoundId_rule l v :
  sorted_by_start l ->
  exists r, findByVotingRoundId l v = Some r /\ lookup_rule l v r.
Proof. apply findByVotingRoundId_index. Qed.

(** In a sorted list the rule settles on one answer. *)
Lemma lookup_rule_unique l v r1 r2 :
  sorted_by_start l -> lookup_rule l v r1 -> lookup_rule l v r2 -> r1 = r2.
Proof.
  intros Hsorted H1 H2. destruct r1 as [p1|], r2 as [p2|]; simpl in *.
  - destruct H1 as (k1 & Hk1 & Hc1), H2 as (k2 & Hk2 & Hc2).
    assert (k1 = k2) as ->; [|congruence].
    destruct (Nat.lt_trichotomy k1 k2) as [Hlt|[Heq|Hgt]]; [exfalso|done|exfalso].
    + pose proof (Hsorted k1 k2 p1 p2 ltac:(lia) Hk1 Hk2).
      destruct Hc1 as [[He1 Hb1]|[Hl1 Ha1]], Hc2 as [[He2 Hb2]|[Hl2 Ha2]].
      * specialize (Hb2 k1 p1 Hlt Hk1). lia.
      * lia.
      * specialize (Hb2 k1 p1 Hlt Hk1). specialize (Ha1 k2 p2 Hlt Hk2). lia.
      * specialize (Ha1 k2 p2 Hlt Hk2). lia.
    + pose proof (Hsorted k2 k1 p2 p1 ltac:(lia) Hk2 Hk1).
      destruct Hc1 as [[He1 Hb1]|[Hl1 Ha1]], Hc2 as [[He2 Hb2]|[Hl2 Ha2]].
      * specialize (Hb1 k2 p2 Hgt Hk2). lia.
      * specialize (Hb1 k2 p2 Hgt Hk2). specialize (Ha2 k1 p1 Hgt Hk1). lia.
      * lia.
      * specialize (Ha2 k1 p1 Hgt Hk1). lia.
  - destruct H1 as (k1 & Hk1 & Hc1). specialize (H2 k1 p1 Hk1).
    destruct Hc1 as [[He1 _]|[Hl1 _]]; lia.
  - destruct H2 as (k2 & Hk2 & Hc2). specialize (H1 k2 p2 Hk2).
    destruct Hc2 as [[He2 _]|[Hl2 _]]; lia.
  - done.
Qed.

(** The rule passes from a list to a longer one whose extra policies, in
    front, start before the answer and, behind, start after [v]. *)
Lemma lookup_rule_extend front l back v r :
  (forall q, q ∈ back -> v < startVotingRoundId q) ->
  (forall q, q ∈ front -> startVotingRoundId q < v) ->
  lookup_rule l v r -> r <> None \/ front = [] ->
  lookup_rule (front ++ l ++ back) v r.
Proof.
  intros Hback Hfront Hr Hsome. destruct r as [p|]; simpl in *.
  - destruct Hr as (k & Hk & Hc). exists (length front + k)%nat. split.
    { rewrite lookup_app_r by lia.
      replace (length front + k - length front)%nat with k by lia.
      rewrite lookup_app_l; [done|]. by apply lookup_lt_Some in Hk. }
    destruct Hc as [[He Hb]|[Hl Ha]]; [left|right]; (split; [done|]).
    + intros h q Hh Hq.
      destruct (decide (h < length front)%nat) as [Hf|Hf].
      * rewrite lookup_app_l in Hq by done.
        apply Hfront. apply list_elem_of_lookup. eauto.
      * rewrite lookup_app_r in Hq by lia.
        apply lookup_lt_Some in Hk as Hkl.
        rewrite lookup_app_l in Hq by lia.
        apply (Hb (h - length front)%nat); [lia|done].
    + intros h q Hh Hq. rewrite lookup_app_r in Hq by lia.
      destruct (decide (h - length front < length l)%nat) as [Hin|Hout].
      * rewrite lookup_app_l in Hq by done.
        apply (Ha (h - length front)%nat); [lia|done].
      * rewrite lookup_app_r in Hq by lia.
        apply Hback. apply list_elem_of_lookup. eauto.
  - destruct Hsome as [?| ->]; [done|]. simpl.
    intros h q Hq.
    destruct (decide (h < length l)%nat) as [Hin|Hout].
    + rewrite lookup_app_l in Hq by done. eauto.
    + rewrite lookup_app_r in Hq by lia.
      apply Hback. apply list_elem_of_lookup. eauto.
Qed.

Lemma lookup_rule_start l v p :
  lookup_rule l v (Some p) -> p ∈ l /\ startVotingRoundId p <= v.
Proof.
  intros (k & Hk & Hc). split; [apply list_elem_of_lookup; eauto|].
  destruct Hc as [[? _]|[? _]]; lia.
Qed.

(** Insert, then look up.  After an accepted [Add sp] on a store built by
    accepted [Add] calls, [GetForVotingRound] returns [sp] for every
    voting round after [sp]'s start, returns a policy that starts where
    [sp] starts for that very round (an earlier policy, when one starts
    there too), and answers every earlier round as before the call. *)
Theorem Add_then_GetForVotingRound s sp :
  added s -> wf_policy sp -> (Add s sp).2 = Ok ->
  (forall v, startVotingRoundId sp < v ->
     GetForVotingRound (Add s sp).1 v = Some (Some sp)) /\
  (exists p, GetForVotingRound (Add s sp).1 (startVotingRoundId sp)
             = Some (Some p) /\
             startVotingRoundId p = startVotingRoundId sp) /\
  (forall v, v < startVotingRoundId sp ->
     GetForVotingRound (Add s sp).1 v = GetForVotingRound s v).
Proof.
  intros Hs Hwf Hok.
  pose proof (chained_sorted _ (added_chained s Hs)) as Hsorted.
  pose proof (chained_sorted _ (added_chained _ (added_Add s sp Hs Hwf Hok)))
    as Hsorted'.
  destruct (Add_Ok s sp Hok) as (_ & Hl & _).
  unfold GetForVotingRound. rewrite Hl in *.
  assert (Hlast : (spList s ++ [sp]) !! length (spList s) = Some sp).
  { by rewrite lookup_app_r, Nat.sub_diag by lia. }
  assert (Hmax : forall q, q ∈ spList s ++ [sp] ->
                   startVotingRoundId q <= startVotingRoundId sp).
  { intros q [i Hq]%list_elem_of_lookup.
    apply (Hsorted' i (length (spList s)) q sp); [|done|done].
    apply lookup_lt_Some in Hq. rewrite length_app in Hq. simpl in Hq. lia. }
  split; [|split].
  - intros v Hv.
    destruct (findByVotingRoundId_rule _ v Hsorted') as (r & -> & Hr).
    f_equal. apply (lookup_rule_unique (spList s ++ [sp]) v); [done..|].
    exists (length (spList s)). split; [done|]. right. split; [done|].
    intros h q Hh Hq. apply lookup_lt_Some in Hq.
    rewrite length_app in Hq. simpl in Hq. lia.
  - destruct (findByVotingRoundId_greatest _ (startVotingRoundId sp) Hsorted')
      as (r & -> & Hr).
    destruct r as [p|].
    + exists p. split; [done|]. destruct Hr as (Hin & Hle & Hgreat).
      assert (sp ∈ spList s ++ [sp]) as Hsp by (apply list_elem_of_lookup; eauto).
      specialize (Hgreat sp Hsp ltac:(lia)). lia.
    + exfalso.
      assert (sp ∈ spList s ++ [sp]) as Hsp by (apply list_elem_of_lookup; eauto).
      specialize (Hr sp Hsp). lia.
  - intros v Hv.
    destruct (findByVotingRoundId_rule _ v Hsorted) as (r & -> & Hr).
    destruct (findByVotingRoundId_rule _ v Hsorted') as (r' & -> & Hr').
    f_equal. apply (lookup_rule_unique (spList s ++ [sp]) v); [done..|].
    apply (lookup_rule_extend [] (spList s) [sp] v r); [|by intros ? ?%elem_of_nil|done|by right].
    intros q ->%list_elem_of_singleton. done.
Qed.

Lemma Add_then_GetForVotingRound_witness :
  added store_same_start /\ wf_policy (policy_at 3 12) /\
  (Add store_same_start (policy_at 3 12)).2 = Ok /\
  (forall v, startVotingRoundId (policy_at 3 12) < v ->
     GetForVotingRound (Add store_same_start (policy_at 3 12)).1 v
     = Some (Some (policy_at 3 12))) /\
  (exists p,
     GetForVotingRound (Add store_same_start (policy_at 3 12)).1
       (startVotingRoundId (policy_at 3 12)) = Some (Some p) /\
     startVotingRoundId p = startVotingRoundId (policy_at 3 12)) /\
  (forall v, v < startVotingRoundId (policy_at 3 12) ->
     GetForVotingRound (Add store_same_start (policy_at 3 12)).1 v
     = GetForVotingRound store_same_start v).
Proof.
  assert (wf_policy (policy_at 3 12)) as Hwf.
  { apply wf_policy_at; vm_compute; split; congruence. }
  assert ((Add store_same_start (policy_at 3 12)).2 = Ok) as Hok
    by reflexivity.
  split; [apply added_store_same_start|]. split; [exact Hwf|].
  split; [exact Hok|].
  exact (Add_then_GetForVotingRound store_same_start (policy_at 3 12)
           added_store_same_start Hwf Hok).
Defined.

(** Remove, then look up.  On a reachable store, after
    [RemoveByVotingRound v] a lookup never panics; it returns the policy
    it returned before the removal if that policy starts after [v], and
    nothing otherwise -- in particular nothing for any round up to
    [v]. *)
Theorem RemoveByVotingRound_then_Get s v v' :
  reachable s ->
  is_Some (GetForVotingRound (RemoveByVotingRound s v).1 v') /\
  (v' <= v -> GetForVotingRound (RemoveByVotingRound s v).1 v' = Some None) /\
  (GetForVotingRound s v' = Some None ->
   GetForVotingRound (RemoveByVotingRound s v).1 v' = Some None) /\
  (forall p, GetForVotingRound s v' = Some (Some p) ->
     GetForVotingRound (RemoveByVotingRound s v).1 v'
     = if decide (startVotingRoundId p <= v) then Some None
       else Some (Some p)).
Proof.
  intros Hs.
  pose proof (reachable_sorted s Hs) as Hsorted.
  pose proof (reachable_sorted _ (reachable_Remove s v Hs)) as Hsorted'.
  destruct (RemoveByVotingRound_spec s v) as (gone & Hl & _ & _ & Hgone & Hhead).
  set (s' := (RemoveByVotingRound s v).1) in *.
  assert (Hleft : forall q, q ∈ spList s' -> v < startVotingRoundId q).
  { intros q Hq. destruct (spList s') as [|p0 rest] eqn:Hrest;
      [by apply elem_of_nil in Hq|].
    apply (sorted_above_head (p0 :: rest) p0); [done|done| |done].
    by apply Hhead. }
  unfold GetForVotingRound.
  destruct (findByVotingRoundId_rule _ v' Hsorted') as (r' & Hfind' & Hr').
  destruct (findByVotingRoundId_greatest _ v' Hsorted) as (r & Hfind & Hr).
  rewrite Hfind'. split; [by eexists|]. split; [|split].
  - intros Hle. destruct r' as [p'|]; [exfalso|done].
    destruct (lookup_rule_start _ _ _ Hr') as [Hin Hp'].
    specialize (Hleft p' Hin). lia.
  - rewrite Hfind. intros [= ->]. destruct r' as [p'|]; [exfalso|done].
    destruct (lookup_rule_start _ _ _ Hr') as [Hin Hp'].
    assert (p' ∈ spList s) as Hin' by (rewrite Hl; set_solver).
    specialize (Hr p' Hin'). lia.
  - rewrite Hfind. intros p [= ->]. destruct Hr as (Hp & Hpv & Hgreat).
    case_decide as Hcase.
    + destruct r' as [p'|]; [exfalso|done].
      destruct (lookup_rule_start _ _ _ Hr') as [Hin Hp'].
      assert (p' ∈ spList s) as Hin' by (rewrite Hl; set_solver).
      specialize (Hgreat p' Hin' Hp'). specialize (Hleft p' Hin). lia.
    + destruct (findByVotingRoundId_rule _ v' Hsorted) as (r2 & Hfind2 & Hr2).
      rewrite Hfind in Hfind2. injection Hfind2 as <-.
      f_equal. apply (lookup_rule_unique (spList s) v'); [done| |done].
      rewrite Hl. rewrite <- (app_nil_r (spList s')) at 1.
      apply lookup_rule_extend; [by intros ? ?%elem_of_nil| |done|].
      * intros q Hq. specialize (Hgone q Hq). lia.
      * left. destruct r' as [p'|]; [done|exfalso].
        simpl in Hr'.
        assert (p ∈ spList s') as Hps.
        { rewrite Hl in Hp. apply elem_of_app in Hp as [Hg|Hk]; [|done].
          specialize (Hgone p Hg). lia. }
        apply list_elem_of_lookup in Hps as [h Hh].
        specialize (Hr' h p Hh). lia.
Qed.

Lemma RemoveByVotingRound_then_Get_witness :
  reachable store_after_removal /\
  is_Some (GetForVotingRound (RemoveByVotingRound store_after_removal 25).1 30)
  /\
  (30 <= 25 ->
   GetForVotingRound (RemoveByVotingRound store_after_removal 25).1 30
   = Some None) /\
  (GetForVotingRound store_after_removal 30 = Some None ->
   GetForVotingRound (RemoveByVotingRound store_after_removal 25).1 30
   = Some None) /\
  (forall p, GetForVotingRound store_after_removal 30 = Some (Some p) ->
     GetForVotingRound (RemoveByVotingRound store_after_removal 25).1 30
     = if decide (startVotingRoundId p <= 25) then Some None
       else Some (Some p)).
Proof.
  split; [apply reachable_store_after_removal|].
  apply (RemoveByVotingRound_then_Get store_after_removal 25 30).
  apply reachable_store_after_removal.
Defined.

(** The loop of [Add] stops with a panic exactly when a voter address,
    at its first occurrence, has no weight at its index. *)
Lemma indexVoters_false ws vs : forall i m,
  (indexVoters ws i vs m).2 = false <->
  exists j a, vs !! j = Some a /\ m !! a = None /\
    (forall j', (j' < j)%nat -> vs !! j' <> Some a) /\
    ws !! (i + j)%nat = None.
Proof.
  induction vs as [|voter rest IH]; intros i m; simpl.
  - split; [done|]. by intros (j & a & Hj & _).
  - destruct (m !! voter) as [d|] eqn:Hvoter.
    + rewrite IH. split.
      * intros (j & a & Hj & Hm & Hfirst & Hw). exists (S j), a.
        split; [done|]. split; [done|]. split.
        { intros [|j'] Hlt; simpl; [congruence|]. apply Hfirst. lia. }
        by replace (i + S j)%nat with (S i + j)%nat by lia.
      * intros (j & a & Hj & Hm & Hfirst & Hw). destruct j as [|j].
        { simpl in Hj. congruence. }
        exists j, a. split; [done|]. split; [done|]. split.
        { intros j' Hlt. apply (Hfirst (S j')). lia. }
        by replace (S i + j)%nat with (i + S j)%nat by lia.
    + destruct (ws !! i) as [w|] eqn:Hw.
      * rewrite IH. split.
        -- intros (j & a & Hj & Hm & Hfirst & Hwj). exists (S j), a.
           apply lookup_insert_None in Hm as [Hm Hne].
           split; [done|]. split; [done|]. split.
           { intros [|j'] Hlt; simpl; [congruence|]. apply Hfirst. lia. }
           by replace (i + S j)%nat with (S i + j)%nat by lia.
        -- intros (j & a & Hj & Hm & Hfirst & Hwj). destruct j as [|j].
           { simpl in Hj. rewrite Nat.add_0_r in Hwj. congruence. }
           exists j, a. split; [done|]. split.
           { apply lookup_insert_None. split; [done|].
             intros ->. by apply (Hfirst 0%nat ltac:(lia)). }
           split.
           { intros j' Hlt. apply (Hfirst (S j')). lia. }
           by replace (S i + j)%nat with (i + S j)%nat by lia.
      * simpl. split; [|done]. intros _. exists 0%nat, voter.
        split; [done|]. split; [done|]. split; [intros j' Hlt; lia|].
        by rewrite Nat.add_0_r.
Qed.

(** [Add] does not check that the weights are as many as the voters.
    When the consistency checks pass, [Add] panics exactly when some
    voter address has, at its first occurrence, no weight at its index;
    by then the policy has been appended and its map installed.  A
    policy with at least as many weights as voters is added without
    panic. *)
Theorem Add_panics_iff s sp :
  checkConsistency (spList s) sp = None ->
  ((Add s sp).2 = Panic <->
   exists j a, voters sp !! j = Some a /\
     (forall j', (j' < j)%nat -> voters sp !! j' <> Some a) /\
     weights sp !! j = None) /\
  ((Add s sp).2 = Panic ->
   spList (Add s sp).1 = spList s ++ [sp] /\
   is_Some (voterMap (Add s sp).1 !! rewardEpochId sp)) /\
  (length (voters sp) <= length (weights sp) -> (Add s sp).2 = Ok)%nat.
Proof.
  intros Hcheck.
  pose proof (indexVoters_false (weights sp) (voters sp) 0 ∅) as Hfalse.
  unfold Add. rewrite Hcheck.
  destruct (indexVoters (weights sp) 0 (voters sp) ∅) as [vMap completed].
  simpl in *.
  assert (Hiff : (if completed then Ok else Panic) = Panic <->
                 exists j a, voters sp !! j = Some a /\
                   (forall j', (j' < j)%nat -> voters sp !! j' <> Some a) /\
                   weights sp !! j = None).
  { split.
    - destruct completed; [done|]. intros _.
      destruct (proj1 Hfalse eq_refl) as (j & a & ? & _ & ? & ?). eauto.
    - intros (j & a & Hj & Hfirst & Hw).
      assert (completed = false) as ->; [|done].
      apply Hfalse. exists j, a. by rewrite lookup_empty. }
  split; [done|]. split.
  - intros _. split; [done|]. rewrite lookup_insert_eq. eauto.
  - intros Hlen. destruct completed; [done|]. exfalso.
    destruct (proj1 Hiff eq_refl) as (j & a & Hj & _ & Hw).
    apply lookup_lt_Some in Hj. apply lookup_ge_None in Hw. lia.
Qed.

Lemma Add_panics_iff_witness :
  checkConsistency (spList newSigningPolicyStorage) policy_short_weights
    = None /\
  ((Add newSigningPolicyStorage policy_short_weights).2 = Panic <->
   exists j a, voters policy_short_weights !! j = Some a /\
     (forall j', (j' < j)%nat -> voters policy_short_weights !! j' <> Some a) /\
     weights policy_short_weights !! j = None) /\
  ((Add newSigningPolicyStorage policy_short_weights).2 = Panic ->
   spList (Add newSigningPolicyStorage policy_short_weights).1
     = spList newSigningPolicyStorage ++ [policy_short_weights] /\
   is_Some (voterMap (Add newSigningPolicyStorage policy_short_weights).1
              !! rewardEpochId policy_short_weights)) /\
  (length (voters policy_short_weights)
     <= length (weights policy_short_weights) ->
   (Add newSigningPolicyStorage policy_short_weights).2 = Ok)%nat.
Proof.
  split; [reflexivity|].
  apply (Add_panics_iff newSigningPolicyStorage policy_short_weights).
  reflexivity.
Defined.

Example Add_short_weights_panics :
  (Add newSigningPolicyStorage policy_short_weights).2 = Panic.
Proof. reflexivity. Qed.

End FinalizerMore.

(** ** More on the payload codec and the submitters *)
Module ProtocolMore.
Import GoInt GoIntFacts Shared SharedSpec SharedFacts Protocol ProtocolSpec
  ProtocolMoreSpec
  ProtocolFacts.

Lemma be_decode_Uint16toBytes x :
  0 <= x < 2 ^ 16 -> be_decode (Uint16toBytes x) = x.
Proof.
  intros Hx. unfold be_decode, Uint16toBytes. simpl.
  change (2 ^ 8) with 256. change (2 ^ 16) with 65536 in Hx.
  Z.to_euclidean_division_equations. lia.
Qed.

(** A list of known length, spelled out element by element. *)
Ltac spell_out l :=
  repeat (let x := fresh "b" in destruct l as [|x l]; [discriminate|]);
  try (destruct l; [|discriminate]).

Section Codec.

Variable Sign : list Z -> option (list Z).
Variable TextHash : list Z -> list Z.
Variable keccak256 : list Z -> list Z.

Abbreviation WritePayload := (WritePayload Sign TextHash keccak256).

(** The layout of an entry.  When the signer returns its 65 bytes
    [R || S || V] for the text hash of [keccak256 data], and the data are
    38 bytes, [WritePayload] appends to the buffer an entry of
    [111 + |additional data|] bytes: the protocol id 100 at offset 0, its
    epoch argument less 1 at offset 1 (4 bytes), [104 + |additional
    data|] at offset 5 (2 bytes), the type 0 at offset 7, the data at
    offset 8, [V + 27] at offset 46, [R] at offset 47, [S] at offset 79
    and the additional data from offset 111 on.  As long as the
    additional data are at most [65535 - 104] bytes, the length field is
    the number of bytes that follow it. *)
Theorem WritePayload_layout buffer e data signature :
  Sign (TextHash (keccak256 (Data data))) = Some signature ->
  length signature = 65%nat -> length (Data data) = 38%nat ->
  exists entry v,
    WritePayload buffer e data = (buffer ++ entry, None) /\
    signature !! 64%nat = Some v /\
    length entry = (111 + length (AdditionalData data))%nat /\
    entry !! 0%nat = Some 100 /\
    take 4 (drop 1 entry) = Uint32toBytes (uint32 (wrap64 (e - 1))) /\
    take 2 (drop 5 entry)
      = Uint16toBytes (uint16 (104 + Z.of_nat (length (AdditionalData data)))) /\
    entry !! 7%nat = Some 0 /\
    take 38 (drop 8 entry) = Data data /\
    entry !! 46%nat = Some (uint8 (v + 27)) /\
    take 32 (drop 47 entry) = take 32 signature /\
    take 32 (drop 79 entry) = take 32 (drop 32 signature) /\
    drop 111 entry = AdditionalData data /\
    (Z.of_nat (length (AdditionalData data)) <= 65535 - 104 ->
     be_decode (take 2 (drop 5 entry)) = Z.of_nat (length entry) - 7).
Proof.
  intros Hsign Hsig Hdata. unfold Protocol.WritePayload. rewrite Hsign.
  destruct data as [status d additional]. simpl in *.
  spell_out signature. spell_out d.
  eexists _, _. split; [reflexivity|]. split; [reflexivity|].
  split; [simpl; lia|].
  do 9 (split; [reflexivity|]).
  intros Hadd. unfold Uint32toBytes, Uint16toBytes. cbn [take drop app].
  match goal with
  | |- be_decode [?x / 2 ^ 8 mod 256; _] = ?rhs =>
      change (be_decode (Uint16toBytes x) = rhs)
  end.
  rewrite be_decode_Uint16toBytes.
  - unfold uint16. rewrite Z.mod_small by lia. simpl length. lia.
  - unfold uint16. apply Z.mod_pos_bound. lia.
Qed.

(** [WritePayload] does not check the length of the message.  Whatever
    that length, the entry is [73 + |data| + |additional data|] bytes
    long and its length field holds [104 + |additional data|] (modulo
    [2^16]): with additional data that fit, the field is the number of
    bytes that follow it exactly when the message is 38 bytes long. *)
Theorem WritePayload_length_field buffer e data signature :
  Sign (TextHash (keccak256 (Data data))) = Some signature ->
  length signature = 65%nat ->
  exists entry,
    WritePayload buffer e data = (buffer ++ entry, None) /\
    length entry
    = (73 + length (Data data) + length (AdditionalData data))%nat /\
    be_decode (take 2 (drop 5 entry))
    = (104 + Z.of_nat (length (AdditionalData data))) mod 2 ^ 16 /\
    (Z.of_nat (length (AdditionalData data)) <= 65535 - 104 ->
     (be_decode (take 2 (drop 5 entry)) = Z.of_nat (length entry) - 7 <->
      length (Data data) = 38%nat)).
Proof.
  intros Hsign Hsig. unfold Protocol.WritePayload. rewrite Hsign.
  eexists. split; [reflexivity|].
  assert (Hfield :
    be_decode
      (take 2 (drop 5
         ([100] ++ Uint32toBytes (uint32 (wrap64 (e - 1)))
            ++ Uint16toBytes
                 (uint16 (104 + Z.of_nat (length (AdditionalData data))))
            ++ [0] ++ Data data
            ++ [uint8 (default 0 (signature !! 64%nat) + 27)]
            ++ take 32 signature ++ take 32 (drop 32 signature)
            ++ AdditionalData data)))
    = (104 + Z.of_nat (length (AdditionalData data))) mod 2 ^ 16).
  { change (be_decode
              (Uint16toBytes
                 (uint16 (104 + Z.of_nat (length (AdditionalData data)))))
            = (104 + Z.of_nat (length (AdditionalData data))) mod 2 ^ 16).
    apply be_decode_Uint16toBytes. unfold uint16. apply Z.mod_pos_bound. lia. }
  assert (Hlen :
    length ([100] ++ Uint32toBytes (uint32 (wrap64 (e - 1)))
              ++ Uint16toBytes
                   (uint16 (104 + Z.of_nat (length (AdditionalData data))))
              ++ [0] ++ Data data
              ++ [uint8 (default 0 (signature !! 64%nat) + 27)]
              ++ take 32 signature ++ take 32 (drop 32 signature)
              ++ AdditionalData data)
    = (73 + length (Data data) + length (AdditionalData data))%nat).
  { rewrite !length_app, !length_take, length_drop, Hsig. simpl. lia. }
  split; [exact Hlen|]. split; [exact Hfield|].
  intros Hadd. rewrite Hfield, Hlen, Z.mod_small by lia. lia.
Qed.

End Codec.

Lemma WritePayload_length_field_witness :
  sign_fixed (keccak_id (Data (Value response38)))
    = Some (replicate 64 1 ++ [0]) /\
  length (replicate 64 1 ++ [0]) = 65%nat /\
  exists entry,
    Protocol.WritePayload sign_fixed keccak_id keccak_id [] 5 (Value response38)
    = ([] ++ entry, None) /\
    length entry
    = (73 + length (Data (Value response38))
         + length (AdditionalData (Value response38)))%nat /\
    be_decode (take 2 (drop 5 entry))
    = (104 + Z.of_nat (length (AdditionalData (Value response38)))) mod 2 ^ 16
    /\
    (Z.of_nat (length (AdditionalData (Value response38))) <= 65535 - 104 ->
     (be_decode (take 2 (drop 5 entry)) = Z.of_nat (length entry) - 7 <->
      length (Data (Value response38)) = 38%nat)).
Proof.
  split; [reflexivity|]. split; [reflexivity|].
  exact (WritePayload_length_field sign_fixed keccak_id keccak_id [] 5
           (Value response38) (replicate 64 1 ++ [0]) eq_refl eq_refl).
Defined.

Lemma WritePayload_layout_witness :
  sign_fixed (keccak_id (Data (Value response38)))
    = Some (replicate 64 1 ++ [0]) /\
  length (replicate 64 1 ++ [0]) = 65%nat /\
  length (Data (Value response38)) = 38%nat /\
  exists entry v,
    Protocol.WritePayload sign_fixed keccak_id keccak_id [] 5
      (Value response38) = ([] ++ entry, None) /\
    (replicate 64 1 ++ [0]) !! 64%nat = Some v /\
    length entry = (111 + length (AdditionalData (Value response38)))%nat /\
    entry !! 0%nat = Some 100 /\
    take 4 (drop 1 entry) = Uint32toBytes (uint32 (wrap64 (5 - 1))) /\
    take 2 (drop 5 entry)
      = Uint16toBytes
          (uint16 (104 + Z.of_nat (length (AdditionalData (Value response38))))) /\
    entry !! 7%nat = Some 0 /\
    take 38 (drop 8 entry) = Data (Value response38) /\
    entry !! 46%nat = Some (uint8 (v + 27)) /\
    take 32 (drop 47 entry) = take 32 (replicate 64 1 ++ [0]) /\
    take 32 (drop 79 entry) = take 32 (drop 32 (replicate 64 1 ++ [0])) /\
    drop 111 entry = AdditionalData (Value response38) /\
    (Z.of_nat (length (AdditionalData (Value response38))) <= 65535 - 104 ->
     be_decode (take 2 (drop 5 entry)) = Z.of_nat (length entry) - 7).
Proof.
  split; [reflexivity|]. split; [reflexivity|]. split; [reflexivity|].
  apply (WritePayload_layout sign_fixed keccak_id keccak_id [] 5
           (Value response38) (replicate 64 1 ++ [0]));
    reflexivity.
Defined.

Section Plain.

Context {W : Type}.
Variable SendRawTx : list Z -> W -> W * option string.
Variable getDataWithRetry :
  SubProtocol -> Z -> string -> Z -> W -> W * FetchStatus.

Abbreviation getAll := (getAll getDataWithRetry).
Abbreviation GetPayload := (GetPayload getDataWithRetry).
Abbreviation submit := (submit SendRawTx).

Lemma writeAll_spec rs : forall buffer,
  writeAll rs buffer
  = buffer ++ mjoin ((fun r => Data (Value r))
                       <$> filter (fun r => accepted r = true) rs).
Proof.
  induction rs as [|r rs IH]; intros buffer; simpl.
  - by rewrite app_nil_r.
  - unfold accepted at 1.
    destruct (fetchSuccess r) eqn:Hs;
      [destruct (bool_decide (Status (Value r) = "OK")) eqn:Hok|]; simpl.
    + rewrite IH, filter_cons_True by (unfold accepted; by rewrite Hs, Hok).
      simpl. by rewrite <- app_assoc.
    + rewrite IH, filter_cons_False; [done|].
      unfold accepted. by rewrite Hs, Hok.
    + rewrite IH, filter_cons_False; [done|].
      unfold accepted. by rewrite Hs.
Qed.

Lemma getAll_length s e ps : forall w,
  length (getAll s e ps w).2 = length ps.
Proof.
  induction ps as [|p ps IH]; intros w; simpl; [done|].
  destruct (getDataWithRetry _ _ _ _ _) as [w1 r].
  specialize (IH w1). destruct (getAll s e ps w1) as [w2 rs]. simpl in *.
  by rewrite IH.
Qed.

(** The payload of a plain submitter.  [GetPayload] reads one result per
    sub-protocol and never gives up on the batch: the payload is the
    selector followed by the data of the results that succeeded with
    status "OK", in sub-protocol order.  It always starts with the
    selector, and it is the selector alone when no result is taken. *)
Theorem GetPayload_structure (s : Submitter) (e : Z) (w : W) :
  let rs := (getAll s e (subProtocols (base s)) w).2 in
  length rs = length (subProtocols (base s)) /\
  (GetPayload s e w).2
  = selector (base s)
      ++ mjoin ((fun r => Data (Value r))
                  <$> filter (fun r => accepted r = true) rs) /\
  selector (base s) `prefix_of` (GetPayload s e w).2 /\
  (Forall (fun r => accepted r = false) rs ->
   (GetPayload s e w).2 = selector (base s)).
Proof.
  intros rs. split; [apply getAll_length|].
  assert ((GetPayload s e w).2
          = selector (base s)
              ++ mjoin ((fun r => Data (Value r))
                          <$> filter (fun r => accepted r = true) rs)) as Heq.
  { unfold Protocol.GetPayload. subst rs.
    destruct (Protocol.getAll _ s e _ w) as [w1 channels]. simpl.
    apply writeAll_spec. }
  split; [done|]. split; [rewrite Heq; by apply prefix_app_r|].
  intros Hnone. rewrite Heq.
  replace (filter (fun r => accepted r = true) rs) with (@nil FetchStatus).
  - simpl. by rewrite app_nil_r.
  - symmetry. clear Heq. induction Hnone as [|r rs' Hr _ IH]; [done|].
    rewrite filter_cons_False; [done|]. by rewrite Hr.
Qed.

(** The wrapper that [submit] hands to the harness changes the error
    text only. *)
Lemma wrapped_calls (g : string -> string) (f : W -> W * option string) :
  let f' := fun w0 => let '(w1, err) := f w0 in (w1, g <$> err) in
  forall i w,
    world_before f' i w = world_before f i w /\
    (call_result f' w i = None <-> call_result f w i = None).
Proof.
  intros f'. induction i as [|i IH]; intros w.
  - split; [done|]. unfold call_result, f'. simpl.
    destruct (f w) as [w1 [e|]]; simpl; done.
  - unfold call_result in *. simpl.
    assert ((f' w).1 = (f w).1) as ->.
    { unfold f'. by destruct (f w) as [w1 err]. }
    apply IH.
Qed.

(** [submit] reports success exactly when one of the first
    [max 0 submitRetries] sends succeeds, and it stops at the first one
    that does; otherwise it has sent the transaction [max 0 submitRetries]
    times.  The constructors set [submitRetries] to at least 1, so a
    submitter they made sends a transaction at least once, whatever the
    configured [tx_submit_retries]. *)
Theorem submit_attempts (s : SubmitterBase) (payload : list Z) (w : W) :
  let f := SendRawTx payload in
  let n := Z.to_nat (submitRetries s) in
  ((submit s payload w).2 = true ->
   exists i, (i < n)%nat /\ call_result f w i = None /\
     (forall j, (j < i)%nat -> call_result f w j <> None) /\
     (submit s payload w).1 = world_before f (S i) w) /\
  ((submit s payload w).2 = false ->
   (forall i, (i < n)%nat -> call_result f w i <> None) /\
   (submit s payload w).1 = world_before f n w) /\
  (forall cfg sel protocols offset nm,
     (0 < Z.to_nat (submitRetries
                      (base (newSubmitter cfg sel protocols offset nm))))%nat) /\
  (forall cfg sel protocols,
     (0 < Z.to_nat (submitRetries
                      (sigBase (newSignatureSubmitter cfg sel protocols))))%nat).
Proof.
  intros f n.
  set (g := fun e => "error sending submit tx for submitter " +:+ name s
                       +:+ " tx: " +:+ e).
  set (f' := fun w0 => let '(w1, err) := f w0 in (w1, g <$> err)).
  pose proof (wrapped_calls g f) as Hwrap. fold f' in Hwrap.
  assert (Hrun : Protocol.submit SendRawTx s payload w
                 = let '(w', tr) := ExecuteWithRetry f' (submitRetries s) w in
                   (w', from_option Success false (recv tr))) by done.
  unfold ExecuteWithRetry in Hrun. fold n in Hrun.
  destruct (retryLoop_trace f' n 0 w)
    as (errs & Herrs & [(Hlt & Hnone & Hloop)|(Hlen & Hloop)]);
    rewrite Hloop in Hrun; rewrite Hrun; cbn [fst snd];
    unfold recv, sends; rewrite omap_app;
    fold (sends (failed_attempts 0 errs)); rewrite sends_failed_attempts;
    simpl.
  - split.
    + intros _. exists (length errs). split; [done|].
      split; [by apply Hwrap|]. split.
      * intros j Hj Hcall. apply Hwrap in Hcall.
        destruct (lookup_lt_is_Some_2 errs j Hj) as [e' He'].
        specialize (Herrs j e' He'). congruence.
      * apply (Hwrap (S (length errs))).
    + split; [done|]. split.
      * intros. unfold newSubmitter. simpl. lia.
      * intros. unfold newSignatureSubmitter. simpl. lia.
  - split; [done|]. split.
    + intros _. split.
      * intros i Hi Hcall. apply Hwrap in Hcall.
        destruct (lookup_lt_is_Some_2 errs i ltac:(lia)) as [e' He'].
        specialize (Herrs i e' He'). congruence.
      * apply (Hwrap n).
    + split.
      * intros. unfold newSubmitter. simpl. lia.
      * intros. unfold newSignatureSubmitter. simpl. lia.
Qed.

End Plain.

(** A submitter configured with [tx_submit_retries = 0] still sends its
    transaction once. *)
Example submit1_sends_once :
  submitRetries (base submitter1_sample) = 1 /\
  Protocol.submit send_ok (base submitter1_sample) [9; 9; 9; 9] 0%nat
  = (1%nat, true) /\
  Protocol.submit send_rejected (base submitter1_sample) [9; 9; 9; 9] 0%nat
  = (1%nat, false).
Proof. split; [|split]; reflexivity. Qed.

End ProtocolMore.

(** ** client/protocol: the rounds of the signature submitter *)
Module RoundsMore.
Import GoInt GoIntFacts Shared SharedSpec SharedFacts.
Import Protocol ProtocolSpec ProtocolMoreSpec ProtocolFacts.

Section Rounds.

Context {W : Type}.
Variable SendRawTx : list Z -> W -> W * option string.
Variable getDataWithRetry :
  SubProtocol -> Z -> string -> Z -> W -> W * FetchStatus.
Variable Sign : list Z -> option (list Z).
Variable TextHash : list Z -> list Z.
Variable keccak256 : list Z -> list Z.

Abbreviation entry := (entry Sign TextHash keccak256).
Abbreviation taken := (taken Sign TextHash keccak256).
Abbreviation includeResponse := (includeResponse Sign TextHash keccak256).
Abbreviation launchFetches := (launchFetches getDataWithRetry).
Abbreviation collectPayloads := (collectPayloads Sign TextHash keccak256).
Abbreviation submit := (submit SendRawTx).
Abbreviation runRound :=
  (runRound SendRawTx getDataWithRetry Sign TextHash keccak256).
Abbreviation roundLoop :=
  (roundLoop SendRawTx getDataWithRetry Sign TextHash keccak256).
Abbreviation SignatureSubmitter_RunEpoch :=
  (SignatureSubmitter_RunEpoch SendRawTx getDataWithRetry Sign TextHash
     keccak256).

Lemma includeResponse_entry buffer e data :
  includeResponse buffer e data
  = match entry e data with
    | Some b => (buffer ++ b, None)
    | None => (buffer, Some "error signing submitSignatures data")
    end.
Proof.
  unfold ProtocolMoreSpec.entry, Protocol.includeResponse,
    Protocol.WritePayload.
  by destruct (Sign _).
Qed.

Lemma entry_nonempty e data b : entry e data = Some b -> b ≠ [].
Proof.
  unfold ProtocolMoreSpec.entry, Protocol.includeResponse,
    Protocol.WritePayload.
  destruct (Sign _); [|done]. intros [= <-]. done.
Qed.

Lemma collectPayloads_from e ps chans (P : gset nat) :
  forall i toSend buffer,
  (forall j, (i <= j)%nat -> j ∈ toSend <-> j ∈ P) ->
  collectPayloads e i ps chans toSend buffer
  = (toSend ∖ list_to_set
                (filter (fun j => is_Some (taken e chans P j))
                        (seq i (length ps))),
     buffer ++ mjoin (omap (taken e chans P) (seq i (length ps)))).
Proof.
  induction ps as [|protocol rest IH]; intros i toSend buffer Hagree.
  - simpl. rewrite app_nil_r. f_equal. set_solver.
  - cbn [Protocol.collectPayloads length seq].
    assert (Hrest : forall X, (forall j, (S i <= j)%nat -> j ∈ X <-> j ∈ P) ->
      taken e chans P i = None ->
      collectPayloads e (S i) rest chans X buffer
      = (X ∖ list_to_set
               (filter (fun j => is_Some (taken e chans P j))
                       (i :: seq (S i) (length rest))),
         buffer ++ mjoin (omap (taken e chans P)
                            (i :: seq (S i) (length rest))))).
    { intros X HX Hnone. rewrite (IH (S i) X buffer HX). simpl.
      rewrite Hnone.
      rewrite filter_cons_False; [done|].
      rewrite Hnone. by intros [? ?]. }
    assert (Hkeep : forall j, (S i <= j)%nat -> j ∈ toSend <-> j ∈ P)
      by (intros j Hj; apply Hagree; lia).
    pose proof (Hagree i ltac:(lia)) as Hi.
    destruct (decide (i ∈ toSend)) as [Hin|Hout].
    + destruct (chans !! i) as [[data|]|] eqn:Hch.
      * destruct (fetchSuccess data) eqn:Hs.
        -- rewrite includeResponse_entry.
           destruct (entry e data) as [b|] eqn:Hentry.
           ++ assert (taken e chans P i = Some b) as Htaken.
              { unfold ProtocolMoreSpec.taken.
                rewrite decide_True by by apply Hi.
                by rewrite Hch, Hs. }
              rewrite (IH (S i) (toSend ∖ {[i]}) (buffer ++ b)).
              ** rewrite filter_cons_True
                   by (cbv beta; rewrite Htaken; by eexists).
                 simpl. rewrite Htaken. simpl. rewrite <- app_assoc. f_equal. set_solver.
              ** intros j Hj. rewrite <- (Hagree j) by lia.
                 set_unfold. split; [tauto|]. intros ?. split; [done|lia].
           ++ apply Hrest; [done|]. unfold ProtocolMoreSpec.taken.
              rewrite decide_True by by apply Hi.
              by rewrite Hch, Hs.
        -- apply Hrest; [done|]. unfold ProtocolMoreSpec.taken.
           rewrite decide_True by by apply Hi.
           by rewrite Hch, Hs.
      * apply Hrest; [done|]. unfold ProtocolMoreSpec.taken.
        rewrite decide_True by by apply Hi.
        by rewrite Hch.
      * apply Hrest; [done|]. unfold ProtocolMoreSpec.taken.
        rewrite decide_True by by apply Hi.
        by rewrite Hch.
    + apply Hrest; [done|]. unfold ProtocolMoreSpec.taken.
      rewrite decide_False; [done|]. by rewrite <- Hi.
Qed.

(** The second loop of a round, in closed form.  From the outstanding
    set [P] it removes exactly the sub-protocols whose response arrived,
    is a success and could be signed, and it appends their entries to
    the buffer in ascending sub-protocol order; removing an index while
    the loop runs changes nothing for the later ones. *)
Theorem collectPayloads_closed_form e ps chans (P : gset nat) buffer :
  let take := taken e chans P in
  let indices := seq 0 (length ps) in
  collectPayloads e 0 ps chans P buffer
  = (P ∖ list_to_set (filter (fun j => is_Some (take j)) indices),
     buffer ++ mjoin (omap take indices)) /\
  (forall j, j ∈ (collectPayloads e 0 ps chans P buffer).1 <->
     j ∈ P /\ ((length ps <= j)%nat \/ take j = None)).
Proof.
  intros take indices.
  assert (collectPayloads e 0 ps chans P buffer
          = (P ∖ list_to_set (filter (fun j => is_Some (take j)) indices),
             buffer ++ mjoin (omap take indices))) as Heq
    by by apply collectPayloads_from.
  split; [done|]. intros j. rewrite Heq. cbn [fst].
  rewrite elem_of_difference, elem_of_list_to_set, list_elem_of_filter.
  subst indices. rewrite elem_of_seq.
  split.
  - intros [Hin Hnot]. split; [done|].
    destruct (decide (length ps <= j)%nat); [by left|right].
    destruct (take j) eqn:Ht; [|done]. exfalso. apply Hnot.
    split; [by eexists|lia].
  - intros [Hin Hor]. split; [done|]. intros [[b Hb] Hrange].
    destruct Hor as [?|Hnone]; [lia|congruence].
Qed.

(** *** What a round adds to the trace *)
Lemma rounds_app t1 t2 : rounds (t1 ++ t2) = (rounds t1 + rounds t2)%nat.
Proof. unfold rounds. by rewrite filter_app, length_app. Qed.

Lemma rounds_fetches P e i n : rounds (fetches_for P e i n) = 0%nat.
Proof.
  unfold rounds, fetches_for.
  induction (filter (fun j => j ∈ P) (seq i n)) as [|j l IH]; [done|].
  rewrite fmap_cons. by rewrite filter_cons_False by done.
Qed.

Lemma transactions_app t1 t2 :
  transactions (t1 ++ t2) = transactions t1 ++ transactions t2.
Proof. unfold transactions. by rewrite omap_app. Qed.

Lemma transactions_fetches P e i n : transactions (fetches_for P e i n) = [].
Proof.
  unfold transactions, fetches_for.
  induction (filter (fun j => j ∈ P) (seq i n)) as [|j l IH]; done.
Qed.

Lemma transactions_le_rounds tr :
  (length (transactions tr) <= rounds tr)%nat.
Proof.
  unfold transactions, rounds. induction tr as [|ev tr IH]; [done|].
  destruct ev.
  - rewrite filter_cons_False by done. simpl. exact IH.
  - rewrite filter_cons_True by done. simpl. apply le_n_S, IH.
  - rewrite filter_cons_True by done. simpl. apply Nat.le_le_succ_r, IH.
Qed.

Lemma fetches_ok s e P :
  Forall (event_ok s e)
    (fetches_for P e 0 (length (subProtocols (sigBase s)))).
Proof.
  unfold fetches_for. apply Forall_fmap, Forall_forall.
  intros j [_ Hj%elem_of_seq]%list_elem_of_filter. simpl. split; [lia|done].
Qed.

Lemma launchFetches_length s e ps : forall i st,
  length (channels (launchFetches s e i ps st)) = length (channels st).
Proof.
  induction ps as [|protocol rest IH]; intros i st; simpl; [done|].
  destruct (decide (i ∈ protocolsToSend st)); [|apply IH].
  destruct (getDataWithRetry _ _ _ _ _) as [w1 r].
  rewrite IH. simpl. by rewrite length_insert.
Qed.

Lemma launchFetches_frame s e ps : forall i st j,
  (j < i)%nat ->
  channels (launchFetches s e i ps st) !! j = channels st !! j.
Proof.
  induction ps as [|protocol rest IH]; intros i st j Hj; simpl; [done|].
  destruct (decide (i ∈ protocolsToSend st)); [|apply IH; lia].
  destruct (getDataWithRetry _ _ _ _ _) as [w1 r].
  rewrite IH by lia. simpl. apply list_lookup_insert_ne. lia.
Qed.

(** After the first loop, the channel of every outstanding sub-protocol
    holds a result of the provider. *)
Lemma launchFetches_channels (Q : FetchStatus -> Prop) s e ps :
  (forall p v nm n w0, Q (getDataWithRetry p v nm n w0).2) ->
  forall i st j,
  j ∈ protocolsToSend st -> (i <= j < i + length ps)%nat ->
  (j < length (channels st))%nat ->
  exists r, channels (launchFetches s e i ps st) !! j = Some (Some r) /\ Q r.
Proof.
  intros HQ.
  induction ps as [|protocol rest IH]; intros i st j Hin Hrange Hlen; simpl in *;
    [lia|].
  destruct (decide (i ∈ protocolsToSend st)) as [Hi|Hi].
  - pose proof (HQ protocol (wrap64 (e - 1)) "submitSignatures"
                  (dataFetchRetries s) (world st)) as Hr.
    destruct (getDataWithRetry _ _ _ _ _) as [w1 r]. simpl in Hr.
    destruct (decide (i = j)) as [->|Hne].
    + exists r. rewrite launchFetches_frame by lia. simpl.
      split; [|done]. by apply list_lookup_insert_eq.
    + apply IH; simpl; [done|lia|]. by rewrite length_insert.
  - destruct (decide (i = j)) as [->|Hne]; [done|].
    apply IH; [done|lia|done].
Qed.

Lemma omap_none {A B} (f : A -> option B) (l : list A) :
  (forall x, x ∈ l -> f x = None) ->
  omap f l = [] /\ filter (fun x => is_Some (f x)) l = [].
Proof.
  induction l as [|x l IH]; intros Hnone; [done|].
  destruct IH as [IH1 IH2]; [intros y Hy; apply Hnone; by right|].
  simpl. rewrite (Hnone x) by by left.
  split; [done|]. rewrite filter_cons_False; [done|].
  rewrite (Hnone x) by by left. by intros [? ?].
Qed.

Lemma omap_all {A B} (f : A -> option B) (l : list A) :
  (forall x, x ∈ l -> is_Some (f x)) ->
  length (omap f l) = length l /\ filter (fun x => is_Some (f x)) l = l.
Proof.
  induction l as [|x l IH]; intros Hall; [done|].
  destruct IH as [IH1 IH2]; [intros y Hy; apply Hall; by right|].
  destruct (Hall x ltac:(by left)) as [b Hb].
  simpl. rewrite Hb. simpl. split; [f_equal; exact IH1|].
  rewrite filter_cons_True by (rewrite Hb; by eexists). by rewrite IH2.
Qed.

Lemma taken_nonempty e chans P j b : taken e chans P j = Some b -> b ≠ [].
Proof.
  unfold ProtocolMoreSpec.taken. case_decide; [|done].
  destruct (chans !! j) as [[data|]|]; [|done..].
  destruct (fetchSuccess data); [|done]. apply entry_nonempty.
Qed.

(** A round, by what the second loop takes. *)
Lemma runRound_unfold s e st :
  let ps := subProtocols (sigBase s) in
  let P := protocolsToSend st in
  let st1 := launchFetches s e 0 ps st in
  let take := taken e (channels st1) P in
  let left := P ∖ list_to_set (filter (fun j => is_Some (take j))
                                 (seq 0 (length ps))) in
  let buffer := selector (sigBase s) ++ mjoin (omap take (seq 0 (length ps))) in
  runRound s e st
  = if decide (size left < size P)%nat
    then {| world := (submit (sigBase s) buffer (world st1)).1;
            protocolsToSend :=
              if (submit (sigBase s) buffer (world st1)).2 then left else P;
            channels := channels st1;
            trace := trace st ++ fetches_for P e 0 (length ps)
                       ++ [EvSubmit buffer
                             (submit (sigBase s) buffer (world st1)).2] |}
    else {| world := world st1;
            protocolsToSend := left;
            channels := channels st1;
            trace := trace st ++ fetches_for P e 0 (length ps)
                       ++ [EvNoNewData] |}.
Proof.
  intros ps P st1 take left buffer.
  destruct (launchFetches_spec getDataWithRetry s e ps 0 st) as [Hset Htrace].
  fold st1 in Hset, Htrace.
  unfold Protocol.runRound. fold ps. fold st1. rewrite Hset.
  rewrite (collectPayloads_from e ps (channels st1) (protocolsToSend st) 0
             (protocolsToSend st) (selector (sigBase s))) by done.
  fold P take left buffer. rewrite Htrace, <- !app_assoc.
  case_decide; [|done].
  destruct (Protocol.submit _ _ _ _) as [w1 ok]. simpl.
  by rewrite <- app_assoc.
Qed.

Lemma runRound_step s e st :
  let st' := runRound s e st in
  protocolsToSend st' ⊆ protocolsToSend st /\
  length (channels st') = length (channels st) /\
  exists tr, trace st' = trace st ++ tr /\ rounds tr = 1%nat /\
    Forall (event_ok s e) tr.
Proof.
  intros st'. subst st'. rewrite runRound_unfold.
  set (ps := subProtocols (sigBase s)).
  set (st1 := launchFetches s e 0 ps st).
  set (take := taken e (channels st1) (protocolsToSend st)).
  case_decide as Hsize; cbn [protocolsToSend channels trace].
  - split; [destruct (submit _ _ _).2; set_solver|].
    split; [apply launchFetches_length|].
    eexists. split; [done|].
    rewrite rounds_app, rounds_fetches. split; [done|].
    apply Forall_app. split; [apply fetches_ok|].
    apply Forall_singleton. simpl. eexists. split; [|done].
    destruct (omap take (seq 0 (length ps))) as [|b l] eqn:Homap.
    + exfalso.
      assert (filter (fun j => is_Some (take j)) (seq 0 (length ps)) = [])
        as Hnil.
      { apply omap_none. intros j Hj.
        destruct (take j) as [b|] eqn:Hb; [|done].
        assert (b ∈ omap take (seq 0 (length ps))) as Hin
          by (apply list_elem_of_omap; eauto).
        rewrite Homap in Hin. by apply elem_of_nil in Hin. }
      rewrite Hnil in Hsize. simpl in Hsize.
      rewrite difference_empty_L in Hsize. lia.
    + assert (b ∈ omap take (seq 0 (length ps))) as Hin
        by (rewrite Homap; by left).
      apply list_elem_of_omap in Hin as (j & _ & Hj).
      apply taken_nonempty in Hj. simpl. by destruct b.
  - split; [set_solver|]. split; [apply launchFetches_length|].
    eexists. split; [done|].
    rewrite rounds_app, rounds_fetches. split; [done|].
    apply Forall_app. split; [apply fetches_ok|]. by apply Forall_singleton.
Qed.

Lemma roundLoop_spec s e n : forall st,
  let st' := roundLoop s e n st in
  protocolsToSend st' ⊆ protocolsToSend st /\
  exists tr, trace st' = trace st ++ tr /\ (rounds tr <= n)%nat /\
    (protocolsToSend st' ≠ ∅ -> rounds tr = n) /\
    Forall (event_ok s e) tr.
Proof.
  induction n as [|n IH]; intros st; simpl.
  - split; [done|]. exists []. rewrite app_nil_r. by split_and!.
  - case_decide as Hsize.
    + destruct (runRound_step s e st) as (Hsub1 & _ & tr1 & Htr1 & Hr1 & Hok1).
      destruct (IH (runRound s e st)) as (Hsub2 & tr2 & Htr2 & Hle & Hfull & Hok2).
      split; [set_solver|]. exists (tr1 ++ tr2).
      rewrite Htr2, Htr1, <- app_assoc, rounds_app, Hr1.
      split_and!; [done|lia| |by apply Forall_app].
      intros Hne. rewrite Hfull by done. done.
    + split; [done|]. exists []. rewrite app_nil_r.
      split_and!; [done|cbn; lia| |done].
      intros Hne. exfalso. apply Hne. apply leibniz_equiv, size_empty_iff. lia.
Qed.

(** The rounds of an epoch.  [RunEpoch] makes at most [max 0 max_rounds]
    rounds, and fewer only when every sub-protocol has been sent; it
    sends at most one transaction per round.  Every fetch is for voting
    round [currentEpoch - 1] and a configured sub-protocol, and every
    transaction carries at least one entry after the selector.  With no
    sub-protocol or no round allowed, nothing is done at all. *)
Theorem RunEpoch_rounds s e w :
  let r := SignatureSubmitter_RunEpoch s e w in
  let N := length (subProtocols (sigBase s)) in
  let n := Z.to_nat (maxRounds s) in
  (forall j, j ∈ protocolsToSend r -> (j < N)%nat) /\
  (rounds (trace r) <= n)%nat /\
  (protocolsToSend r ≠ ∅ -> rounds (trace r) = n) /\
  (length (transactions (trace r)) <= rounds (trace r))%nat /\
  Forall (event_ok s e) (trace r) /\
  (N = 0%nat \/ maxRounds s <= 0 -> trace r = [] /\ world r = w).
Proof.
  intros r N n. subst r. unfold Protocol.SignatureSubmitter_RunEpoch.
  fold N n.
  set (st := {| world := w; protocolsToSend := list_to_set (seq 0 N);
                channels := replicate N None; trace := [] |}).
  destruct (roundLoop_spec s e n st) as (Hsub & tr & Htr & Hle & Hfull & Hok).
  simpl in Htr. rewrite Htr.
  split_and!; [|done|done|apply transactions_le_rounds|done|].
  - intros j Hj. apply Hsub in Hj. simpl in Hj.
    apply elem_of_list_to_set, elem_of_seq in Hj. lia.
  - rewrite <- Htr. intros [HN|Hmax].
    + destruct n; [done|]. simpl. rewrite decide_False; [done|].
      simpl. rewrite HN. intros Hlt. vm_compute in Hlt. lia.
    + replace n with 0%nat by lia. done.
Qed.

Lemma full_set_size (N : nat) :
  N ≠ 0%nat -> (0 < size (list_to_set (seq 0 N) : gset nat))%nat.
Proof.
  intros HN.
  destruct (decide (size (list_to_set (seq 0 N) : gset nat) = 0%nat))
    as [Hz|]; [|lia].
  apply size_empty_iff in Hz.
  assert (0%nat ∈ (list_to_set (seq 0 N) : gset nat)) as Hin
    by (apply elem_of_list_to_set, elem_of_seq; lia).
  rewrite Hz in Hin. set_solver.
Qed.

(** *** What takes a sub-protocol off the outstanding set *)
Lemma successes_app t1 t2 :
  successes (t1 ++ t2) = (successes t1 + successes t2)%nat.
Proof.
  unfold successes. by rewrite transactions_app, filter_app, length_app.
Qed.

Lemma successes_fetches P e i n : successes (fetches_for P e i n) = 0%nat.
Proof. unfold successes. by rewrite transactions_fetches. Qed.

Lemma successes_submit payload ok :
  successes [EvSubmit payload ok] = if ok then 1%nat else 0%nat.
Proof. by destruct ok. Qed.

Lemma runRound_success s e st :
  let st' := runRound s e st in
  exists tr, trace st' = trace st ++ tr /\
    (size (protocolsToSend st') + successes tr <= size (protocolsToSend st))%nat
    /\ (successes tr = 0%nat -> protocolsToSend st' = protocolsToSend st).
Proof.
  intros st'. subst st'. rewrite runRound_unfold.
  set (ps := subProtocols (sigBase s)).
  set (st1 := launchFetches s e 0 ps st).
  set (take := taken e (channels st1) (protocolsToSend st)).
  set (left := protocolsToSend st
                 ∖ list_to_set (filter (fun j => is_Some (take j))
                                  (seq 0 (length ps)))).
  assert (left ⊆ protocolsToSend st) as Hsub by set_solver.
  case_decide as Hsize; cbn [protocolsToSend trace].
  - eexists. split; [done|].
    rewrite successes_app, successes_fetches, successes_submit.
    destruct (submit _ _ _).2; [split; [lia|done]|split; [lia|done]].
  - eexists. split; [done|].
    rewrite successes_app, successes_fetches.
    change (successes [EvNoNewData]) with 0%nat.
    assert (left = protocolsToSend st) as ->.
    { destruct (decide (left = protocolsToSend st)) as [|Hne]; [done|].
      apply (size_lt_iff_ne _ _ Hsub) in Hne. lia. }
    split; [lia|done].
Qed.

Lemma roundLoop_success s e n : forall st,
  let st' := roundLoop s e n st in
  exists tr, trace st' = trace st ++ tr /\
    (size (protocolsToSend st') + successes tr <= size (protocolsToSend st))%nat
    /\ (successes tr = 0%nat -> protocolsToSend st' = protocolsToSend st).
Proof.
  induction n as [|n IH]; intros st; simpl.
  - exists []. rewrite app_nil_r. split; [done|].
    change (successes []) with 0%nat. split; [lia|done].
  - case_decide.
    + destruct (runRound_success s e st) as (tr1 & Htr1 & Hsize1 & Hkeep1).
      destruct (IH (runRound s e st)) as (tr2 & Htr2 & Hsize2 & Hkeep2).
      exists (tr1 ++ tr2). rewrite Htr2, Htr1, <- app_assoc, successes_app.
      split; [done|]. split; [lia|].
      intros Hzero. rewrite Hkeep2, Hkeep1 by lia. done.
    + exists []. rewrite app_nil_r. split; [done|].
      change (successes []) with 0%nat. split; [lia|done].
Qed.

(** Only a transaction that the chain accepted takes a sub-protocol off
    the outstanding set.  At the end of an epoch the sub-protocols still
    outstanding and the accepted transactions are together at most as
    many as the sub-protocols -- so at most that many transactions are
    accepted in an epoch -- and when no transaction was accepted, every
    sub-protocol is still outstanding. *)
Theorem RunEpoch_sent_by_success s e w :
  let r := SignatureSubmitter_RunEpoch s e w in
  let N := length (subProtocols (sigBase s)) in
  (size (protocolsToSend r) + successes (trace r) <= N)%nat /\
  (successes (trace r) = 0%nat ->
   protocolsToSend r = list_to_set (seq 0 N)) /\
  (protocolsToSend r ≠ list_to_set (seq 0 N) ->
   exists payload, EvSubmit payload true ∈ trace r).
Proof.
  intros r N. subst r. unfold Protocol.SignatureSubmitter_RunEpoch. fold N.
  set (st := {| world := w; protocolsToSend := list_to_set (seq 0 N);
                channels := replicate N None; trace := [] |}).
  destruct (roundLoop_success s e (Z.to_nat (maxRounds s)) st)
    as (tr & Htr & Hsize & Hkeep).
  simpl in Htr, Hsize, Hkeep. rewrite Htr.
  assert (size (list_to_set (seq 0 N) : gset nat) = N) as HN.
  { rewrite size_list_to_set by apply NoDup_seq. apply length_seq. }
  rewrite HN in Hsize. split; [done|]. split; [done|].
  intros Hne.
  destruct (decide (successes tr = 0%nat)) as [Hzero|Hpos];
    [by specialize (Hkeep Hzero)|].
  unfold successes in Hpos.
  destruct (filter _ (transactions tr)) as [|[payload ok] l] eqn:Hf; [done|].
  assert ((payload, ok) ∈ filter (fun t : list Z * bool => t.2 = true)
                            (transactions tr)) as Hin
    by (rewrite Hf; by left).
  apply list_elem_of_filter in Hin as [Hok Hin]. simpl in Hok. subst ok.
  apply list_elem_of_omap in Hin as (ev & Hev & Hsome).
  exists payload. by destruct ev; simplify_eq.
Qed.

(** *** Epochs in which nothing can be sent *)
Lemma idle_taken s e st j :
  (forall h, Sign h = None) \/
  (forall p v nm n w0, fetchSuccess (getDataWithRetry p v nm n w0).2 = false) ->
  (j < length (subProtocols (sigBase s)))%nat ->
  taken e (channels (launchFetches s e 0 (subProtocols (sigBase s)) st))
    (protocolsToSend st) j = None.
Proof.
  intros Hcause Hj. unfold ProtocolMoreSpec.taken.
  case_decide as Hin; [|done].
  destruct Hcause as [Hsign|Hfetch].
  - destruct (_ !! j) as [[data|]|]; [|done..].
    destruct (fetchSuccess data); [|done].
    unfold ProtocolMoreSpec.entry, Protocol.includeResponse,
      Protocol.WritePayload.
    by rewrite Hsign.
  - destruct (decide (j < length (channels st))%nat) as [Hlt|Hge].
    + destruct (launchFetches_channels (fun r => fetchSuccess r = false) s e
                  (subProtocols (sigBase s)) Hfetch 0 st j Hin ltac:(lia) Hlt)
        as (r & -> & ->). done.
    + rewrite lookup_ge_None_2; [done|]. rewrite launchFetches_length. lia.
Qed.

Lemma runRound_idle s e st :
  let ps := subProtocols (sigBase s) in
  let st1 := launchFetches s e 0 ps st in
  (forall j, (j < length ps)%nat ->
     taken e (channels st1) (protocolsToSend st) j = None) ->
  runRound s e st
  = {| world := world st1;
       protocolsToSend := protocolsToSend st;
       channels := channels st1;
       trace := trace st ++ fetches_for (protocolsToSend st) e 0 (length ps)
                  ++ [EvNoNewData] |}.
Proof.
  intros ps st1 Hnone. rewrite runRound_unfold. fold ps st1.
  destruct (omap_none (taken e (channels st1) (protocolsToSend st))
              (seq 0 (length ps))) as [_ ->].
  { intros j Hj%elem_of_seq. apply Hnone. lia. }
  simpl. rewrite difference_empty_L.
  rewrite decide_False by lia. done.
Qed.

Lemma roundLoop_idle s e n : forall st,
  (forall st0 j, (j < length (subProtocols (sigBase s)))%nat ->
     taken e (channels (launchFetches s e 0 (subProtocols (sigBase s)) st0))
       (protocolsToSend st0) j = None) ->
  protocolsToSend st ≠ ∅ ->
  protocolsToSend (roundLoop s e n st) = protocolsToSend st /\
  exists tr, trace (roundLoop s e n st) = trace st ++ tr /\
    transactions tr = [] /\ rounds tr = n.
Proof.
  induction n as [|n IH]; intros st Hnone Hne; simpl.
  - split; [done|]. exists []. by rewrite app_nil_r.
  - rewrite decide_True.
    2:{ destruct (decide (size (protocolsToSend st) = 0%nat)) as [Hz|]; [|lia].
        apply size_empty_iff in Hz. exfalso. apply Hne.
        by apply leibniz_equiv. }
    rewrite runRound_idle by (intros j Hj; by apply Hnone).
    match goal with |- context [roundLoop s e n ?st1] =>
      destruct (IH st1 Hnone Hne) as (Hset & tr & Htr & Htx & Hr) end.
    rewrite Hset, Htr. cbn [protocolsToSend trace]. split; [done|].
    eexists. rewrite <- !app_assoc. split; [done|].
    rewrite !transactions_app, transactions_fetches, Htx.
    rewrite !rounds_app, rounds_fetches, Hr. done.
Qed.

(** An epoch in which the signer never signs, or in which every fetch
    fails for good: no transaction is sent, every sub-protocol is still
    outstanding at the end, and all the [max_rounds] rounds are made. *)
Theorem RunEpoch_nothing_to_send s e w :
  (forall h, Sign h = None) \/
  (forall p v nm n w0, fetchSuccess (getDataWithRetry p v nm n w0).2 = false) ->
  let r := SignatureSubmitter_RunEpoch s e w in
  let N := length (subProtocols (sigBase s)) in
  protocolsToSend r = list_to_set (seq 0 N) /\
  transactions (trace r) = [] /\
  (N ≠ 0%nat -> rounds (trace r) = Z.to_nat (maxRounds s)).
Proof.
  intros Hcause r N. subst r. unfold Protocol.SignatureSubmitter_RunEpoch.
  fold N.
  set (st := {| world := w; protocolsToSend := list_to_set (seq 0 N);
                channels := replicate N None; trace := [] |}).
  destruct (decide (N = 0%nat)) as [HN|HN].
  - assert (roundLoop s e (Z.to_nat (maxRounds s)) st = st) as ->.
    { destruct (Z.to_nat (maxRounds s)); [done|]. simpl.
      rewrite decide_False; [done|]. rewrite HN. intros Hlt.
      vm_compute in Hlt. lia. }
    done.
  - destruct (roundLoop_idle s e (Z.to_nat (maxRounds s)) st)
      as (Hset & tr & Htr & Htx & Hr).
    + intros st0 j Hj. by apply idle_taken.
    + simpl. intros Hempty.
      assert (0%nat ∈ (list_to_set (seq 0 N) : gset nat)) as Hin
        by (apply elem_of_list_to_set, elem_of_seq; lia).
      rewrite Hempty in Hin. set_solver.
    + rewrite Hset, Htr. simpl. done.
Qed.

(** *** Epochs in which everything is sent at once *)
Lemma submit_first (b : SubmitterBase) payload w0 :
  0 < submitRetries b ->
  (SendRawTx payload w0).2 = None ->
  submit b payload w0 = ((SendRawTx payload w0).1, true).
Proof.
  intros Hretries Hsend. unfold Protocol.submit, ExecuteWithRetry.
  destruct (Z.to_nat (submitRetries b)) as [|k] eqn:Hk; [lia|].
  simpl. destruct (SendRawTx payload w0) as [w1 err]. simpl in *.
  by subst err.
Qed.

Lemma roundLoop_done s e n st :
  protocolsToSend st = ∅ -> roundLoop s e n st = st.
Proof.
  intros Hempty. destruct n; [done|]. simpl.
  rewrite decide_False; [done|]. rewrite Hempty, size_empty. lia.
Qed.

Lemma omap_Forall2 {A B} (f : A -> option B) (l : list A) :
  (forall x, x ∈ l -> is_Some (f x)) ->
  Forall2 (fun y x => f x = Some y) (omap f l) l.
Proof.
  induction l as [|x l IH]; intros Hall; [constructor|].
  destruct (Hall x ltac:(by left)) as [b Hb].
  simpl. rewrite Hb. simpl. constructor; [done|].
  apply IH. intros y Hy. apply Hall. by right.
Qed.

(** When every fetch succeeds, the signer signs and the chain accepts the
    transaction, one round does it all: each sub-protocol is fetched
    once, one transaction is sent, made of the selector and one entry per
    sub-protocol in order, each entry being the one of the response that
    arrived for that sub-protocol, and no sub-protocol is left. *)
Theorem RunEpoch_all_sent s e w :
  (forall p v nm n w0, fetchSuccess (getDataWithRetry p v nm n w0).2 = true) ->
  (forall h, is_Some (Sign h)) ->
  (forall payload w0, (SendRawTx payload w0).2 = None) ->
  0 < submitRetries (sigBase s) ->
  0 < maxRounds s ->
  subProtocols (sigBase s) ≠ [] ->
  let r := SignatureSubmitter_RunEpoch s e w in
  let N := length (subProtocols (sigBase s)) in
  protocolsToSend r = ∅ /\
  exists entries,
    Forall2 (fun b j => exists data,
               channels r !! j = Some (Some data) /\ entry e data = Some b)
            entries (seq 0 N) /\
    trace r = fetches_for (list_to_set (seq 0 N)) e 0 N
                ++ [EvSubmit (selector (sigBase s) ++ mjoin entries) true].
Proof.
  intros Hfetch Hsign Hsend Hretries Hmax Hps r N. subst r.
  unfold Protocol.SignatureSubmitter_RunEpoch. fold N.
  set (st := {| world := w; protocolsToSend := list_to_set (seq 0 N);
                channels := replicate N None; trace := [] |}).
  assert (N ≠ 0%nat) as HN by (subst N; by destruct (subProtocols _)).
  destruct (Z.to_nat (maxRounds s)) as [|n] eqn:Hn; [lia|].
  cbn [Protocol.roundLoop].
  rewrite decide_True.
  2:{ simpl. by apply full_set_size. }
  set (st1 := launchFetches s e 0 (subProtocols (sigBase s)) st).
  set (take := taken e (channels st1) (protocolsToSend st)).
  assert (Htake : forall j, j ∈ seq 0 N ->
            exists data b, channels st1 !! j = Some (Some data) /\
              entry e data = Some b /\ take j = Some b).
  { intros j Hj%elem_of_seq.
    destruct (launchFetches_channels (fun r => fetchSuccess r = true) s e
                (subProtocols (sigBase s)) Hfetch 0 st j) as (data & Hch & Hok).
    - simpl. apply elem_of_list_to_set, elem_of_seq. lia.
    - fold N. lia.
    - simpl. rewrite length_replicate. lia.
    - fold st1 in Hch. exists data.
      assert (is_Some (entry e data)) as [b Hb].
      { unfold ProtocolMoreSpec.entry, Protocol.includeResponse,
          Protocol.WritePayload.
        destruct (Hsign (TextHash (keccak256 (Data (Value data)))))
          as [sig ->]. by eexists. }
      exists b. split; [done|]. split; [done|].
      subst take. unfold ProtocolMoreSpec.taken.
      rewrite decide_True
        by (simpl; apply elem_of_list_to_set, elem_of_seq; lia).
      by rewrite Hch, Hok. }
  assert (Hall : forall j, j ∈ seq 0 N -> is_Some (take j)).
  { intros j Hj. destruct (Htake j Hj) as (data & b & _ & _ & ->). by eexists. }
  rewrite runRound_unfold. fold N st1 take.
  destruct (omap_all take (seq 0 N) Hall) as [_ ->].
  assert (protocolsToSend st ∖ list_to_set (seq 0 N) = (∅ : gset nat)) as ->
    by (simpl; set_solver).
  rewrite decide_True.
  2:{ rewrite size_empty. simpl. by apply full_set_size. }
  rewrite submit_first by done. cbn [fst snd].
  rewrite roundLoop_done by done. cbn [protocolsToSend channels trace].
  split; [done|]. exists (omap take (seq 0 N)). split; [|done].
  eapply Forall2_impl; [apply omap_Forall2, Hall|].
  intros b j Hj. simpl in Hj.
  subst take. unfold ProtocolMoreSpec.taken in Hj.
  case_decide; [|done].
  destruct (channels st1 !! j) as [[data|]|]; [|done..].
  destruct (fetchSuccess data); [|done]. eauto.
Qed.

End Rounds.

Lemma RunEpoch_nothing_to_send_witness :
  (forall h, sign_never h = None) /\
  let r := Protocol.SignatureSubmitter_RunEpoch send_ok always_answers
             sign_never keccak_id keccak_id submitter_S5 5 0%nat in
  protocolsToSend r = list_to_set (seq 0 3) /\
  transactions (trace r) = [] /\
  (3%nat ≠ 0%nat -> rounds (trace r) = 2%nat).
Proof.
  split; [done|].
  apply (RunEpoch_nothing_to_send send_ok always_answers sign_never keccak_id
           keccak_id submitter_S5 5 0%nat).
  left. intros h. reflexivity.
Defined.

Lemma RunEpoch_all_sent_witness :
  (0 < submitRetries (sigBase submitter_S5) /\ 0 < maxRounds submitter_S5 /\
   subProtocols (sigBase submitter_S5) ≠ []) /\
  let r := Protocol.SignatureSubmitter_RunEpoch send_ok always_answers
             sign_fixed keccak_id keccak_id submitter_S5 5 0%nat in
  protocolsToSend r = ∅ /\
  exists entries,
    Forall2 (fun b j => exists data,
               channels r !! j = Some (Some data) /\
               entry sign_fixed keccak_id keccak_id 5 data = Some b)
            entries (seq 0 3) /\
    trace r = fetches_for (list_to_set (seq 0 3)) 5 0 3
                ++ [EvSubmit (selector (sigBase submitter_S5) ++ mjoin entries)
                      true].
Proof.
  split; [split; [reflexivity|split; [reflexivity|discriminate]]|].
  apply (RunEpoch_all_sent send_ok always_answers sign_fixed keccak_id
           keccak_id submitter_S5 5 0%nat).
  - intros. reflexivity.
  - intros. eexists. reflexivity.
  - intros. reflexivity.
  - reflexivity.
  - reflexivity.
  - discriminate.
Defined.

(** *** The run loop, for any sequence of ticks and stop requests *)
Section RunLoop.

Context {R W : Type} `{!EpochRunner R W}.

(** The run loop on any sequence of ticks and stop requests.  The epochs
    it runs are the ticks it received, in their order and each once, up
    to the tick at which it leaves; the world at the end is the one the
    runs of these epochs produce in turn.  Every value sent on
    [last_epoch] is the epoch run last before it (0 before the first
    tick).  A loop that has not left has run every tick and answered
    every stop request; a loop that has left ends with the epoch it ran
    last and does nothing after. *)
Theorem Run_any_inputs (r : R) (inputs : list RunInput) (w : W) :
  let result := Run r inputs w in
  let out := result.1.2 in
  ran out `prefix_of` ticks inputs /\
  result.1.1 = foldl (fun w0 e => RunEpoch r e w0) w (ran out) /\
  (forall i e, out !! i = Some (SentLastEpoch e) ->
     e = default 0 (last (ran (take i out)))) /\
  (result.2 = false ->
     ran out = ticks inputs /\
     length (published out) = length (stops inputs) /\
     Stopped ∉ out) /\
  (result.2 = true ->
     exists out',
       out = out' ++ [SentLastEpoch (default 0 (last (ran out))); Stopped]
       /\ Stopped ∉ out').
Proof.
  unfold Run. generalize max_int64 as stopAfter. generalize 0 as epoch.
  revert w.
  induction inputs as [|input rest IH]; intros w epoch stopAfter;
    cbn [runLoop].
  - case_decide; cbn [fst snd].
    + split_and!; [done|done| |done|].
      * intros [|[|i]] e Hi; simpl in Hi; [|done..].
        by injection Hi as <-.
      * intros _. exists []. split; [done|]. apply not_elem_of_nil.
    + split_and!; [done|done|done| |done].
      intros _. split_and!; [done|done|apply not_elem_of_nil].
  - case_decide; cbn [fst snd].
    + split_and!; [apply prefix_nil|done| |done|].
      * intros [|[|i]] e Hi; simpl in Hi; [|done..].
        by injection Hi as <-.
      * intros _. exists []. split; [done|]. apply not_elem_of_nil.
    + destruct input as [k|e0].
      * specialize (IH w epoch k). cbn zeta in IH.
        destruct (runLoop r rest epoch k w) as [[w1 out] exited].
        cbn [fst snd] in *.
        destruct IH as (Hpre & Hworld & Hsent & Hopen & Hclosed).
        split_and!; [done|done| | |].
        -- intros [|i] e Hi; simpl in Hi.
           ++ by injection Hi as <-.
           ++ by apply Hsent.
        -- intros Hex. destruct (Hopen Hex) as (Hran & Hlen & Hno).
           split_and!; [done|simpl; by rewrite Hlen|].
           rewrite elem_of_cons. intros [?|?]; [done|by apply Hno].
        -- intros Hex. destruct (Hclosed Hex) as (out' & Hout & Hno).
           exists (SentLastEpoch epoch :: out'). split.
           ++ rewrite Hout at 1. done.
           ++ rewrite elem_of_cons. intros [?|?]; [done|by apply Hno].
      * specialize (IH (RunEpoch r e0 w) e0 stopAfter). cbn zeta in IH.
        destruct (runLoop r rest e0 stopAfter (RunEpoch r e0 w))
          as [[w1 out] exited].
        cbn [fst snd] in *.
        destruct IH as (Hpre & Hworld & Hsent & Hopen & Hclosed).
        split_and!.
        -- by apply prefix_cons.
        -- done.
        -- intros [|i] e Hi; simpl in Hi; [done|].
           change (ran (take (S i) (RanEpoch e0 :: out)))
             with (e0 :: ran (take i out)).
           rewrite default_last_cons. by apply Hsent.
        -- intros Hex. destruct (Hopen Hex) as (Hran & Hlen & Hno).
           split_and!; [simpl; by rewrite Hran|done|].
           rewrite elem_of_cons. intros [?|?]; [done|by apply Hno].
        -- intros Hex. destruct (Hclosed Hex) as (out' & Hout & Hno).
           exists (RanEpoch e0 :: out'). split.
           ++ change (ran (RanEpoch e0 :: out)) with (e0 :: ran out).
              rewrite default_last_cons. rewrite Hout at 1. done.
           ++ rewrite elem_of_cons. intros [?|?]; [done|by apply Hno].
Qed.

End RunLoop.

(** Three providers that never answer: three rounds of fetches and no
    transaction. *)
Example RunEpoch_never_answers :
  let r := Protocol.SignatureSubmitter_RunEpoch send_ok never_answers
             sign_fixed keccak_id keccak_id
             (newSignatureSubmitter
                {| SigStartOffset := 30; SigTxSubmitRetries := 1;
                   DataFetchRetries := 5; MaxRounds := 2 |}
                [1; 2; 3; 4] three_protocols) 5 0%nat in
  trace r = [EvFetch 0 4; EvFetch 1 4; EvFetch 2 4; EvNoNewData;
             EvFetch 0 4; EvFetch 1 4; EvFetch 2 4; EvNoNewData] /\
  world r = 0%nat.
Proof. split; reflexivity. Qed.

End RoundsMore.

(** ** client/finalizer: [signingPolicy.Encode] *)
Module EncodingFacts.
Import GoInt GoIntFacts Finalizer Protocol ProtocolFacts ProtocolMore.
Import Encoding EncodingSpec FinalizerMoreSpec.

Lemma be_decode_app a b :
  be_decode (a ++ b) = be_decode a * 256 ^ Z.of_nat (length b) + be_decode b.
Proof.
  unfold be_decode. revert a. induction b as [|x b IH] using rev_ind; intros a.
  - rewrite app_nil_r. simpl. lia.
  - rewrite app_assoc, (foldl_app _ (a ++ b)), (foldl_app _ b). simpl.
    rewrite IH.
    rewrite length_app. simpl.
    replace (Z.of_nat (length b + 1)) with (Z.of_nat (length b) + 1) by lia.
    rewrite Z.pow_add_r by lia. lia.
Qed.

Lemma length_be_bytes n : forall x, length (be_bytes n x) = n.
Proof.
  induction n as [|n IH]; intros x; simpl; [done|].
  rewrite length_app, IH. simpl. lia.
Qed.

Lemma be_decode_be_bytes n : forall x,
  0 <= x -> be_decode (be_bytes n x) = x mod 256 ^ Z.of_nat n.
Proof.
  induction n as [|n IH]; intros x Hx.
  - simpl. by rewrite Z.mod_1_r.
  - cbn [be_bytes]. rewrite be_decode_app, IH by (apply Z.div_pos; lia).
    cbn [length]. change (be_decode [x mod 256]) with (0 * 256 + x mod 256).
    replace (Z.of_nat (S n)) with (1 + Z.of_nat n) by lia.
    rewrite Z.pow_add_r by lia. change (256 ^ 1) with 256.
    change (256 ^ Z.of_nat 1) with 256.
    rewrite (Z.rem_mul_r x 256 (256 ^ Z.of_nat n)) by lia. lia.
Qed.

(** The number of bytes that [big.Int.Bytes] returns is the least that
    holds the absolute value. *)
Lemma byteLen_bounds x :
  Z.abs x < 256 ^ Z.of_nat (byteLen x) /\
  (x <> 0 -> 256 ^ (Z.of_nat (byteLen x) - 1) <= Z.abs x).
Proof.
  unfold byteLen. case_decide as Hx.
  - subst x. split; [done|]. done.
  - assert (0 < Z.abs x) as Hpos by lia.
    pose proof (Z.log2_spec (Z.abs x) Hpos) as [Hlow Hhigh].
    pose proof (Z.log2_nonneg (Z.abs x)) as Hlog.
    set (k := Z.log2 (Z.abs x)) in *.
    rewrite Z2Nat.id by (pose proof (Z.div_pos k 8); lia).
    replace 256 with (2 ^ 8) by done.
    rewrite <- !Z.pow_mul_r by (pose proof (Z.div_pos k 8); lia).
    pose proof (Z.div_mod k 8 ltac:(lia)) as Hdiv.
    pose proof (Z.mod_pos_bound k 8 ltac:(lia)) as Hmod.
    split.
    + eapply Z.lt_le_trans; [exact Hhigh|].
      apply Z.pow_le_mono_r; lia.
    + intros _. etrans; [|exact Hlow].
      apply Z.pow_le_mono_r; lia.
Qed.

Lemma be_decode_BigIntBytes x : be_decode (BigIntBytes x) = Z.abs x.
Proof.
  unfold BigIntBytes. rewrite be_decode_be_bytes by lia.
  apply Z.mod_small. pose proof (byteLen_bounds x). lia.
Qed.

Lemma Uint16toBytes_length x : length (Uint16toBytes x) = 2%nat.
Proof. done. Qed.

Lemma length_AddressBytes a : length (AddressBytes a) = 20%nat.
Proof. apply length_be_bytes. Qed.

Lemma be_decode_AddressBytes a :
  Z.of_N a < 2 ^ 160 -> be_decode (AddressBytes a) = Z.of_N a.
Proof.
  intros Ha. unfold AddressBytes. rewrite be_decode_be_bytes by lia.
  apply Z.mod_small. change (256 ^ Z.of_nat 20) with (2 ^ 160). lia.
Qed.

#[local] Opaque AddressBytes.
#[local] Arguments Uint16toBytes : simpl never.
#[local] Arguments Uint32toBytes : simpl never.
#[local] Arguments BigIntBytes : simpl never.

(** The loop writes one 22-byte record per voter, or panics. *)
Lemma encodeVoters_spec ws vs : forall i buffer,
  encodeVoters ws i vs buffer
  = if decide (i + length vs <= length ws ∨ vs = [])%nat
    then Some (buffer
                 ++ mjoin (zip_with (fun a w => AddressBytes a ++ Uint16toBytes w)
                             vs (drop i ws)))
    else None.
Proof.
  induction vs as [|a vs IH]; intros i buffer; simpl.
  - rewrite decide_True by by right. by rewrite app_nil_r.
  - destruct (ws !! i) as [w|] eqn:Hw.
    + rewrite IH. pose proof (lookup_lt_Some _ _ _ Hw) as Hlt.
      rewrite (drop_S ws w i Hw).
      destruct (decide ((S i + length vs <= length ws)%nat ∨ vs = []))
        as [HA|HA],
        (decide ((i + S (length vs) <= length ws)%nat ∨ a :: vs = []))
        as [HB|HB].
      * simpl. by rewrite <- !app_assoc.
      * exfalso. apply HB. left. destruct HA as [?|Hnil]; [lia|].
        rewrite Hnil. simpl. lia.
      * exfalso. apply HA. left. destruct HB as [?|?]; [lia|done].
      * done.
    + apply lookup_ge_None in Hw. rewrite decide_False; [done|].
      intros [?|?]; [lia|done].
Qed.

Lemma chunk_lookup {A} (k : nat) (chunks : list (list A)) :
  Forall (fun c => length c = k) chunks ->
  forall j c, chunks !! j = Some c ->
    take k (drop (k * j) (mjoin chunks)) = c.
Proof.
  induction 1 as [|c0 chunks Hc0 _ IH]; intros j c Hj; [done|].
  change (mjoin (c0 :: chunks)) with (c0 ++ mjoin chunks).
  destruct j as [|j].
  - injection Hj as <-. rewrite Nat.mul_0_r, drop_0.
    by rewrite take_app_length' by done.
  - replace (k * S j)%nat with (length c0 + k * j)%nat by lia.
    rewrite drop_app_add. by apply IH.
Qed.

(** [Encode] does not check that the weights are as many as the voters:
    it panics exactly when they are fewer. *)
Theorem Encode_panics_iff (s : signingPolicy) :
  Encode s = None <-> (length (weights s) < length (voters s))%nat.
Proof.
  unfold Encode. rewrite encodeVoters_spec. case_decide as Hlen.
  - split; [done|]. intros Hlt. destruct Hlen as [?|Hnil]; [lia|].
    rewrite Hnil in Hlt. simpl in Hlt. lia.
  - split; [|done]. intros _.
    destruct (decide (length (weights s) < length (voters s))%nat); [done|].
    exfalso. apply Hlen. left. lia.
Qed.

(** The layout of an encoded policy with [n] voters and at least as many
    weights.  The seed is written with the length [big.Int.Bytes] gives
    it, [L] bytes with no leading zero (none for a zero seed), so the
    encoding is [12 + L + 22 n] bytes long: the voter count (modulo
    [2^16]) at 0..1, the reward epoch id cut to 32 bits at 2..5, the
    start voting round at 6..9, the threshold at 10..11, the absolute
    value of the seed from 12 on, and for the voter [j] its address at
    [12 + L + 22 j] and its weight 20 bytes later. *)
Theorem Encode_layout (s : signingPolicy) :
  fields_in_range s ->
  (length (voters s) <= length (weights s))%nat ->
  let n := length (voters s) in
  let L := byteLen (seed s) in
  exists enc,
    Encode s = Some enc /\
    length enc = (12 + L + 22 * n)%nat /\
    be_decode (take 2 enc) = Z.of_nat n mod 2 ^ 16 /\
    be_decode (take 4 (drop 2 enc)) = rewardEpochId s mod 2 ^ 32 /\
    be_decode (take 4 (drop 6 enc)) = startVotingRoundId s /\
    be_decode (take 2 (drop 10 enc)) = threshold s /\
    be_decode (take L (drop 12 enc)) = Z.abs (seed s) /\
    Z.abs (seed s) < 256 ^ Z.of_nat L /\
    (seed s <> 0 -> 256 ^ (Z.of_nat L - 1) <= Z.abs (seed s)) /\
    (forall j a, voters s !! j = Some a ->
       exists w, weights s !! j = Some w /\
         be_decode (take 20 (drop (12 + L + 22 * j) enc)) = Z.of_N a /\
         be_decode (take 2 (drop (12 + L + 22 * j + 20) enc)) = w).
Proof.
  intros (Hstart & Hthreshold & Hweights & Hvoters) Hlen n L.
  unfold Encode. rewrite encodeVoters_spec, decide_True by (left; simpl; lia).
  rewrite drop_0. fold n.
  set (records := zip_with (fun a w => AddressBytes a ++ Uint16toBytes w)
                    (voters s) (weights s)).
  set (seedBytes := BigIntBytes (seed s)).
  assert (length seedBytes = L) as HL by apply length_be_bytes.
  assert (Forall (fun c => length c = 22%nat) records) as Hrec.
  { subst records. apply Forall_forall. intros c Hc.
    apply elem_of_lookup_zip_with in Hc as (j & a & w & -> & _ & _).
    by rewrite length_app, length_AddressBytes. }
  assert (length records = n) as Hn.
  { subst records. rewrite length_zip_with. fold n. lia. }
  assert (length (mjoin records) = (22 * n)%nat) as Hbody.
  { rewrite <- Hn. clear -Hrec. induction Hrec as [|c l Hc _ IH]; [done|].
    simpl. rewrite length_app, IH, Hc. lia. }
  pose proof (byteLen_bounds (seed s)) as [Hupper Hlower]. fold L in Hupper, Hlower.
  eexists. split; [done|].
  set (h1 := Uint16toBytes (uint16 (Z.of_nat n))).
  set (h2 := Uint32toBytes (uint32 (rewardEpochId s))).
  set (h3 := Uint32toBytes (startVotingRoundId s)).
  set (h4 := Uint16toBytes (threshold s)).
  assert (length h1 = 2%nat /\ length h2 = 4%nat /\ length h3 = 4%nat /\
          length h4 = 2%nat) as (Hh1 & Hh2 & Hh3 & Hh4) by done.
  split_and!.
  - rewrite !length_app, Hh1, Hh2, Hh3, Hh4, HL, Hbody. lia.
  - rewrite <- !app_assoc, take_app_length' by done.
    subst h1. rewrite be_decode_Uint16toBytes; [done|].
    unfold uint16. apply Z.mod_pos_bound. lia.
  - rewrite <- !app_assoc, drop_app_length' by done.
    rewrite take_app_length' by done.
    subst h2. apply be_decode_Uint32toBytes, uint32_range.
  - rewrite <- !app_assoc.
    rewrite (app_assoc h1 h2), drop_app_length' by (by rewrite length_app, Hh1, Hh2).
    rewrite take_app_length' by done.
    subst h3. by apply be_decode_Uint32toBytes.
  - rewrite <- !app_assoc.
    rewrite (app_assoc h1 h2), (app_assoc (h1 ++ h2) h3), drop_app_length'
      by (by rewrite !length_app, Hh1, Hh2, Hh3).
    rewrite take_app_length' by done.
    subst h4. by apply be_decode_Uint16toBytes.
  - rewrite <- !app_assoc.
    rewrite (app_assoc h1 h2), (app_assoc (h1 ++ h2) h3),
      (app_assoc ((h1 ++ h2) ++ h3) h4), drop_app_length'
      by (by rewrite !length_app, Hh1, Hh2, Hh3, Hh4).
    rewrite take_app_length' by done.
    apply be_decode_BigIntBytes.
  - done.
  - done.
  - intros j a Ha.
    destruct (lookup_lt_is_Some_2 (weights s) j) as [w Hw].
    { apply lookup_lt_Some in Ha.
      eapply Nat.lt_le_trans; [exact Ha|exact Hlen]. }
    exists w. split; [done|].
    assert (records !! j = Some (AddressBytes a ++ Uint16toBytes w)) as Hj.
    { subst records. apply lookup_zip_with_Some. by exists a, w. }
    pose proof (chunk_lookup 22 records Hrec j _ Hj) as Hchunk.
    assert (forall k,
      drop (12 + L + k) ((h1 ++ h2 ++ h3 ++ h4 ++ seedBytes) ++ mjoin records)
      = drop k (mjoin records)) as Hdrop.
    { intros k. rewrite drop_app_add'; [done|].
      rewrite !length_app, Hh1, Hh2, Hh3, Hh4, HL. lia. }
    split.
    + replace (12 + L + 22 * j)%nat with (12 + L + (22 * j))%nat by lia.
      rewrite Hdrop.
      assert (take 20 (drop (22 * j) (mjoin records)) = AddressBytes a) as ->.
      { transitivity (take 20 (take 22 (drop (22 * j) (mjoin records))));
          [by rewrite take_take|].
        rewrite Hchunk.
        by rewrite take_app_length' by by rewrite length_AddressBytes. }
      apply be_decode_AddressBytes.
      rewrite Forall_forall in Hvoters.
      apply (Hvoters a (list_elem_of_lookup_2 _ _ _ Ha)).
    + replace (12 + L + 22 * j + 20)%nat with (12 + L + (22 * j + 20))%nat
        by lia.
      rewrite Hdrop.
      assert (take 2 (drop (22 * j + 20) (mjoin records)) = Uint16toBytes w)
        as ->.
      { transitivity (drop 20 (take 22 (drop (22 * j) (mjoin records)))).
        { rewrite List.skipn_firstn_comm, drop_drop.
          by change (22 - 20)%nat with 2%nat. }
        rewrite Hchunk.
        by rewrite drop_app_length' by by rewrite length_AddressBytes. }
      apply be_decode_Uint16toBytes.
      rewrite Forall_forall in Hweights.
      apply (Hweights w (list_elem_of_lookup_2 _ _ _ Hw)).
Qed.

Lemma Encode_layout_witness :
  let s := policy_two_voters in
  fields_in_range s /\
  (length (voters s) <= length (weights s))%nat /\
  let n := length (voters s) in
  let L := byteLen (seed s) in
  exists enc,
    Encode s = Some enc /\
    length enc = (12 + L + 22 * n)%nat /\
    be_decode (take 2 enc) = Z.of_nat n mod 2 ^ 16 /\
    be_decode (take 4 (drop 2 enc)) = rewardEpochId s mod 2 ^ 32 /\
    be_decode (take 4 (drop 6 enc)) = startVotingRoundId s /\
    be_decode (take 2 (drop 10 enc)) = threshold s /\
    be_decode (take L (drop 12 enc)) = Z.abs (seed s) /\
    Z.abs (seed s) < 256 ^ Z.of_nat L /\
    (seed s <> 0 -> 256 ^ (Z.of_nat L - 1) <= Z.abs (seed s)) /\
    (forall j a, voters s !! j = Some a ->
       exists w, weights s !! j = Some w /\
         be_decode (take 20 (drop (12 + L + 22 * j) enc)) = Z.of_N a /\
         be_decode (take 2 (drop (12 + L + 22 * j + 20) enc)) = w).
Proof.
  intros s.
  assert (fields_in_range s) as Hrange.
  { unfold fields_in_range, in_uint32, in_uint16. simpl.
    split_and!; [lia..| |]; repeat constructor; lia. }
  assert (length (voters s) <= length (weights s))%nat as Hlen
    by (simpl; lia).
  split; [exact Hrange|]. split; [exact Hlen|].
  exact (Encode_layout s Hrange Hlen).
Defined.

(** A policy of two voters, encoded. *)
Example Encode_two_voters :
  Encode policy_two_voters
  = Some ([0; 2] ++ [0; 0; 0; 3] ++ [0; 0; 3; 232] ++ [1; 244] ++ [1; 2]
            ++ (replicate 19 0 ++ [7]) ++ [2; 88]
            ++ (replicate 19 0 ++ [9]) ++ [1; 144]) /\
  Encode policy_short_weights = None.
Proof. split; reflexivity. Qed.

End EncodingFacts.

(** ** More on [SigningPolicyHash] *)
Module RegistrationMore.
Import GoSlice GoSliceFacts Registration RegistrationSpec RegistrationFacts.
Import RegistrationMoreSpec.

Section Hash.

Variable keccak256 : list Z -> list Z.
Variable grow : nat -> nat -> nat.

Abbreviation SigningPolicyHash := (SigningPolicyHash keccak256 grow).
Abbreviation tiled_hash_spec := (tiled_hash_spec keccak256).

Lemma zero_pad_aligned policy :
  (length policy mod 32 = 0)%nat -> zero_pad policy = policy.
Proof.
  intros Hmod. unfold zero_pad. rewrite Hmod. simpl. apply app_nil_r.
Qed.

Lemma length_zero_pad policy :
  (length (zero_pad policy) mod 32 = 0)%nat /\
  (length policy <= length (zero_pad policy) < length policy + 32)%nat.
Proof.
  unfold zero_pad. rewrite length_app, length_replicate.
  pose proof (Nat.mod_upper_bound (length policy) 32 ltac:(lia)).
  destruct (decide ((length policy mod 32)%nat = 0%nat)) as [Hz|Hnz].
  - rewrite Hz. simpl. rewrite Nat.add_0_r. split; [done|lia].
  - destruct (pad_amount _ Hnz) as [-> ->]. split; [done|lia].
Qed.

Lemma tile_app_l p q i :
  ((i + 1) * 32 <= length p)%nat -> tile (p ++ q) i = tile p i.
Proof.
  intros Hlen. unfold tile.
  rewrite drop_app_le by lia. rewrite take_app_le; [done|].
  rewrite length_drop. lia.
Qed.

Lemma tile_app_r p q k :
  length p = (k * 32)%nat -> length q = 32%nat -> tile (p ++ q) k = q.
Proof.
  intros Hp Hq. unfold tile. rewrite <- Hp, drop_app_length.
  by rewrite <- Hq, firstn_all.
Qed.

Lemma foldl_tiles_ext (p p' : list Z) n : forall i h,
  (forall j, (i <= j < i + n)%nat -> tile p j = tile p' j) ->
  foldl (fun h j => keccak256 (h ++ tile p j)) h (seq i n)
  = foldl (fun h j => keccak256 (h ++ tile p' j)) h (seq i n).
Proof.
  induction n as [|n IH]; intros i h Hext; [done|].
  simpl. rewrite (Hext i) by lia. apply IH. intros j Hj. apply Hext. lia.
Qed.

(** The hash is built tile by tile.  For a policy of 33 to 64 bytes it
    is [keccak256] of the policy zero-padded to 64 bytes.  For a policy
    of 64 bytes or more whose length is a multiple of 32, the hash of the
    policy followed by one more 32-byte tile is [keccak256] of the hash
    of the policy followed by that tile. *)
Theorem SigningPolicyHash_chain s :
  slice_ok s ->
  ((32 < len s <= 64)%nat ->
   length (zero_pad (bytes s)) = 64%nat /\
   SigningPolicyHash s = Some (keccak256 (zero_pad (bytes s)))) /\
  (forall t tile32,
     slice_ok t -> (64 <= len s)%nat -> (len s mod 32 = 0)%nat ->
     length tile32 = 32%nat -> bytes t = bytes s ++ tile32 ->
     SigningPolicyHash t
     = (fun h => keccak256 (h ++ tile32)) <$> SigningPolicyHash s).
Proof.
  intros Hok. pose proof (length_bytes s Hok) as Hlen. split.
  - intros Hrange.
    rewrite (SigningPolicyHash_spec keccak256 grow s Hok) by lia.
    destruct (length_zero_pad (bytes s)) as [Hmod Hbounds].
    rewrite Hlen in Hbounds.
    assert (length (zero_pad (bytes s)) = 64%nat) as H64.
    { pose proof (Nat.div_mod_eq (length (zero_pad (bytes s))) 32). lia. }
    split; [done|]. unfold Registration.tiled_hash_spec.
    rewrite H64. simpl. unfold tile. do 2 f_equal.
    rewrite drop_0. simpl.
    rewrite <- (take_drop 32 (zero_pad (bytes s))) at 3. f_equal.
    apply take_ge. rewrite length_drop. lia.
  - intros t tile32 Hokt H64 Hmod Htile Hbytes.
    pose proof (length_bytes t Hokt) as Hlent.
    rewrite Hbytes, length_app, Hlen, Htile in Hlent.
    rewrite (SigningPolicyHash_spec keccak256 grow s Hok) by lia.
    rewrite (SigningPolicyHash_spec keccak256 grow t Hokt) by lia.
    simpl. f_equal. unfold Registration.tiled_hash_spec.
    pose proof (Nat.div_mod_eq (len s) 32) as Hdiv.
    set (k := (len s / 32)%nat) in *.
    assert (len s = (k * 32)%nat) as Hk by lia.
    rewrite Hbytes.
    rewrite (zero_pad_aligned (bytes s)) by by rewrite Hlen.
    rewrite (zero_pad_aligned (bytes s ++ tile32)).
    2:{ rewrite length_app, Hlen, Htile, Hk.
        replace (k * 32 + 32)%nat with ((k + 1) * 32)%nat by lia.
        apply Nat.Div0.mod_mul. }
    rewrite length_app, Hlen, Htile.
    replace ((len s + 32) / 32 - 2)%nat with (S (k - 2)).
    2:{ rewrite Hk. replace (k * 32 + 32)%nat with ((k + 1) * 32)%nat by lia.
        rewrite Nat.div_mul by lia. lia. }
    fold k. rewrite seq_S, foldl_app. cbn [foldl].
    replace (2 + (k - 2))%nat with k by lia.
    rewrite (tile_app_r (bytes s) tile32 k) by (by rewrite ?Hlen).
    do 2 f_equal.
    rewrite !(tile_app_l (bytes s) tile32) by (rewrite Hlen; lia).
    apply foldl_tiles_ext. intros j Hj. apply tile_app_l. rewrite Hlen. lia.
Qed.

End Hash.

Lemma SigningPolicyHash_chain_witness :
  let hash := Registration.SigningPolicyHash (fun b => b) (fun _ n => n) in
  slice_ok policy64 /\
  ((32 < len policy64 <= 64)%nat ->
   length (zero_pad (bytes policy64)) = 64%nat /\
   hash policy64 = Some (zero_pad (bytes policy64))) /\
  (forall t tile32,
     slice_ok t -> (64 <= len policy64)%nat -> (len policy64 mod 32 = 0)%nat ->
     length tile32 = 32%nat -> bytes t = bytes policy64 ++ tile32 ->
     hash t = (fun h => h ++ tile32) <$> hash policy64).
Proof.
  intros hash.
  assert (slice_ok policy64) as Hok by (vm_compute; lia).
  split; [exact Hok|].
  exact (SigningPolicyHash_chain (fun b => b) (fun _ n => n) policy64 Hok).
Defined.

(** Three tiles, with the bytes themselves for a hash: the third tile is
    chained to the hash of the first two. *)
Example SigningPolicyHash_three_tiles :
  Registration.SigningPolicyHash (fun b => b) (fun _ n => n)
    (of_bytes (replicate 64 1 ++ replicate 32 2))
  = Some (replicate 64 1 ++ replicate 32 2).
Proof. reflexivity. Qed.

End RegistrationMore.

(** ** package clients: [ExistsAsSubstring] *)
Module ClientsFacts.
Import Clients.

Lemma prefix_occurs p : forall s,
  String.prefix p s = true <-> exists post, s = p +:+ post.
Proof.
  induction p as [|a p IH]; intros s.
  - split; [|by destruct s]. intros _. by exists s.
  - destruct s as [|b s]; simpl.
    + split; [done|]. by intros [post ?].
    + destruct (Ascii.ascii_dec a b) as [->|Hne].
      * rewrite IH. split; intros [post Hpost]; exists post.
        -- by rewrite Hpost.
        -- by injection Hpost.
      * split; [done|]. intros [post Hpost]. by injection Hpost.
Qed.

Lemma Contains_occurs s substr :
  Contains s substr = true <->
  exists pre post, s = pre +:+ substr +:+ post.
Proof.
  induction s as [|c s IH]; cbn [Contains].
  - rewrite orb_false_r, prefix_occurs. split.
    + intros [post Hpost]. by exists "", post.
    + intros (pre & post & Heq). exists post.
      destruct pre; [done|discriminate Heq].
  - rewrite orb_true_iff, prefix_occurs, IH. split.
    + intros [[post Hpost]|(pre & post & Hpost)].
      * by exists "", post.
      * exists (String c pre), post. simpl. by rewrite Hpost.
    + intros (pre & post & Heq). destruct pre as [|c' pre].
      * left. by exists post.
      * right. exists pre, post. simpl in Heq. by injection Heq.
Qed.

Lemma ExistsAsSubstring_iff (slice : list string) (s : string) :
  ExistsAsSubstring slice s = true <->
  exists item pre post, item ∈ slice /\ s = pre +:+ item +:+ post.
Proof.
  induction slice as [|item slice IH]; simpl.
  - split; [done|]. intros (item & _ & _ & Hin & _).
    by apply elem_of_nil in Hin.
  - destruct (Contains s item) eqn:Hc.
    + split; [|done]. intros _.
      apply Contains_occurs in Hc as (pre & post & ?).
      exists item, pre, post. split; [by left|done].
    + rewrite IH. split.
      * intros (item' & pre & post & Hin & Heq).
        exists item', pre, post. split; [by right|done].
      * intros (item' & pre & post & Hin & Heq).
        apply elem_of_cons in Hin as [->|Hin].
        -- assert (Contains s item = true) as Htrue
             by (apply Contains_occurs; by exists pre, post).
           congruence.
        -- by exists item', pre, post.
Qed.

(** [ExistsAsSubstring slice s] tells whether some element of [slice]
    occurs in [s] (not whether [s] occurs in an element).  So it is false
    for the empty slice, true for every [s] as soon as the slice holds
    the empty string, and it does not depend on the order of the
    slice. *)
Theorem ExistsAsSubstring_occurs (slice : list string) (s : string) :
  (ExistsAsSubstring slice s = true <->
   exists item pre post, item ∈ slice /\ s = pre +:+ item +:+ post) /\
  ("" ∈ slice -> ExistsAsSubstring slice s = true) /\
  ExistsAsSubstring [] s = false /\
  (forall slice', slice' ≡ₚ slice ->
     ExistsAsSubstring slice' s = ExistsAsSubstring slice s).
Proof.
  split; [apply ExistsAsSubstring_iff|]. split; [|split; [done|]].
  - intros Hin. apply ExistsAsSubstring_iff. by exists "", "", s.
  - intros slice' Hperm.
    destruct (ExistsAsSubstring slice s) eqn:Hs.
    + apply ExistsAsSubstring_iff in Hs as (item & pre & post & Hin & Heq).
      apply ExistsAsSubstring_iff. exists item, pre, post.
      split; [by rewrite Hperm|done].
    + destruct (ExistsAsSubstring slice' s) eqn:Hs'; [|done].
      apply ExistsAsSubstring_iff in Hs' as (item & pre & post & Hin & Heq).
      rewrite <- Hs. symmetry. apply ExistsAsSubstring_iff.
      exists item, pre, post. split; [by rewrite <- Hperm|done].
Qed.

End ClientsFacts.

(** ** The registration client's [sendSignNewSigningPolicy] *)
Module SystemsManagerFacts.
Import GoInt GoSlice GoSliceFacts Registration RegistrationSpec.
Import RegistrationFacts Clients ClientsFacts SystemsManager SystemsManagerSpec.

Section Send.

Context {W Tx : Type}.
Variable keccak256 : list Z -> list Z.
Variable grow : nat -> nat -> nat.
Variable Sign : list Z -> list Z + string.
Variable TextHash : list Z -> list Z.
Variable ContractSignNewSigningPolicy :
  Z -> list Z -> Signature -> W -> W * (Tx + string).
Variable WaitUntilMined : Tx -> W -> W * option string.

Abbreviation sendSignNewSigningPolicy :=
  (sendSignNewSigningPolicy keccak256 grow Sign TextHash
     ContractSignNewSigningPolicy WaitUntilMined).

(** [sendSignNewSigningPolicy] panics exactly when the hash of the policy
    does, and then before the signer or the chain is used.  For a policy
    of more than 32 bytes it does not panic: the message signed is the
    text hash of the tiled hash of the policy, and the contract is called
    once, with that tiled hash and the signature [R, S, V + 27].  When
    the call is rejected, the rejection counts as success exactly when
    its text contains "new signing policy already signed", and the
    transaction is waited for only when the call was accepted. *)
Theorem sendSignNewSigningPolicy_outcome (rewardEpochId : Z)
    (signingPolicy : slice) (w : W) :
  slice_ok signingPolicy ->
  let run := sendSignNewSigningPolicy rewardEpochId signingPolicy w in
  (run.2 = Panicked <->
   SigningPolicyHash keccak256 grow signingPolicy = None) /\
  (run.2 = Panicked -> run.1 = w) /\
  ((32 < len signingPolicy)%nat ->
   let hash := tiled_hash_spec keccak256 (bytes signingPolicy) in
   run.2 <> Panicked /\
   (forall err, Sign (TextHash hash) = inr err ->
      run = (w, Returned (Some err))) /\
   (forall signature, Sign (TextHash hash) = inl signature ->
      let call :=
        ContractSignNewSigningPolicy rewardEpochId hash
          {| sigR := take 32 signature;
             sigS := take 32 (drop 32 signature);
             sigV := (default 0 (signature !! 64%nat) + 27) mod 256 |} w in
      (forall tx, call.2 = inl tx ->
         run = (let '(w2, err) := WaitUntilMined tx call.1 in
                (w2, Returned err))) /\
      (forall err, call.2 = inr err ->
         run.1 = call.1 /\
         (run.2 = Returned None <->
          exists pre post,
            err = pre +:+ "new signing policy already signed" +:+ post) /\
         (run.2 <> Returned None -> run.2 = Returned (Some err))))).
Proof.
  intros Hok run. subst run. unfold SystemsManager.sendSignNewSigningPolicy.
  split; [|split].
  - destruct (SigningPolicyHash _ _ _) as [h|]; [|done].
    split; [|done].
    destruct (Sign _) as [sig|err]; [|done].
    destruct (ContractSignNewSigningPolicy _ _ _ _) as [w1 [tx|err]].
    + by destruct (WaitUntilMined tx w1).
    + by destruct (ExistsAsSubstring _ _).
  - destruct (SigningPolicyHash _ _ _) as [h|]; [|done].
    destruct (Sign _) as [sig|err]; [|done].
    destruct (ContractSignNewSigningPolicy _ _ _ _) as [w1 [tx|err]].
    + by destruct (WaitUntilMined tx w1).
    + by destruct (ExistsAsSubstring _ _).
  - intros Hlen.
    rewrite (SigningPolicyHash_spec keccak256 grow signingPolicy Hok Hlen).
    set (hash := tiled_hash_spec keccak256 (bytes signingPolicy)).
    split; [|split].
    + destruct (Sign _) as [sig|err]; [|done].
      destruct (ContractSignNewSigningPolicy _ _ _ _) as [w1 [tx|err]].
      * by destruct (WaitUntilMined tx w1).
      * by destruct (ExistsAsSubstring _ _).
    + by intros err ->.
    + intros signature ->. unfold uint8.
      change (2 ^ 8) with 256.
      destruct (ContractSignNewSigningPolicy _ _ _ _) as [w1 [tx|err]];
        cbn [fst snd].
      * split; [by intros ? [= <-]|done].
      * split; [done|]. intros ? [= <-].
        pose proof (ExistsAsSubstring_iff
                      nonFatalSignNewSigningPolicyErrors err) as Hocc.
        destruct (ExistsAsSubstring _ _) eqn:Hex; cbn [fst snd].
        -- split; [done|]. split; [|done]. split; [|done]. intros _.
           destruct (proj1 Hocc eq_refl) as (item & pre & post & Hin & Heq).
           apply list_elem_of_singleton in Hin as ->. by exists pre, post.
        -- split; [done|]. split; [|done]. split; [done|].
           intros (pre & post & Heq). exfalso.
           assert (false = true) as Habs; [|done]. apply Hocc.
           exists "new signing policy already signed", pre, post.
           split; [by left|done].
Qed.

End Send.

Lemma sendSignNewSigningPolicy_outcome_witness :
  let send :=
    SystemsManager.sendSignNewSigningPolicy (fun b => b) (fun _ n => n)
      signer_fixed (fun b => b) already_signed mined in
  slice_ok policy33 /\
  let run := send 8 policy33 0%nat in
  (run.2 = Panicked <->
   SigningPolicyHash (fun b => b) (fun _ n => n) policy33 = None) /\
  (run.2 = Panicked -> run.1 = 0%nat) /\
  ((32 < len policy33)%nat ->
   let hash := tiled_hash_spec (fun b => b) (bytes policy33) in
   run.2 <> Panicked /\
   (forall err, signer_fixed hash = inr err ->
      run = (0%nat, Returned (Some err))) /\
   (forall signature, signer_fixed hash = inl signature ->
      let call :=
        already_signed 8 hash
          {| sigR := take 32 signature;
             sigS := take 32 (drop 32 signature);
             sigV := (default 0 (signature !! 64%nat) + 27) mod 256 |}
          0%nat in
      (forall tx, call.2 = inl tx ->
         run = (let '(w2, err) := mined tx call.1 in (w2, Returned err))) /\
      (forall err, call.2 = inr err ->
         run.1 = call.1 /\
         (run.2 = Returned None <->
          exists pre post,
            err = pre +:+ "new signing policy already signed" +:+ post) /\
         (run.2 <> Returned None -> run.2 = Returned (Some err))))).
Proof.
  intros send.
  assert (slice_ok policy33) as Hok by (vm_compute; lia).
  split; [exact Hok|].
  exact (sendSignNewSigningPolicy_outcome (fun b => b) (fun _ n => n)
           signer_fixed (fun b => b) already_signed mined 8 policy33 0%nat
           Hok).
Defined.

(** A policy that the contract reports as already signed: the call
    returns no error, and the transaction is not waited for. *)
Example sendSignNewSigningPolicy_already_signed :
  SystemsManager.sendSignNewSigningPolicy (fun b => b) (fun _ n => n)
    signer_fixed (fun b => b) already_signed mined 8 policy33 0%nat
  = (1%nat, Returned None).
Proof. reflexivity. Qed.

End SystemsManagerFacts.

(** ** client/registration: the loop of the registration client *)
Module RegistrationClientFacts.
Import Finalizer RegistrationClient RegistrationClientSpec.

Section Run.

Context {W : Type}.
Variable RewardEpochFromChain : W -> W * option string.
Variable GetCurrentRewardEpochId : W -> W * option Z.
Variable RegisterVoter : Z -> Address -> W -> W * bool.
Variable SigningPolicyInitializedListener :
  Z -> W -> W * option SigningPolicyInitialized.
Variable SignNewSigningPolicy : Z -> list Z -> W -> W * bool.
Variable identityAddress : Address.

Abbreviation verifyEpoch := (verifyEpoch GetCurrentRewardEpochId).
Abbreviation registrationLoop :=
  (registrationLoop GetCurrentRewardEpochId RegisterVoter
     SigningPolicyInitializedListener SignNewSigningPolicy identityAddress).
Abbreviation RunContext :=
  (RunContext RewardEpochFromChain GetCurrentRewardEpochId RegisterVoter
     SigningPolicyInitializedListener SignNewSigningPolicy identityAddress).

(** [verifyEpoch] lets an epoch through only when the current epoch was
    read and is below it. *)
Lemma verifyEpoch_true epochId w w1 current :
  verifyEpoch epochId w = (w1, current, true) ->
  exists c, current = Some c /\ c < epochId.
Proof.
  unfold RegistrationClient.verifyEpoch.
  destruct (GetCurrentRewardEpochId w) as [w' [c|]]; [|done].
  case_decide; [done|]. intros [= _ <-]. exists c. split; [done|lia].
Qed.

Lemma all_in_order_head prev e current tr :
  all_in_order identityAddress None (DidGetCurrentRewardEpochId e current :: tr)
  -> all_in_order identityAddress prev
       (DidGetCurrentRewardEpochId e current :: tr).
Proof. simpl. tauto. Qed.

(** One pass through the loop body, as the model has it. *)
Ltac step_loop IH :=
  cbn [RegistrationClient.registrationLoop];
  match goal with
  | |- context [verifyEpoch ?e ?w] =>
      let Hv := fresh "Hv" in
      destruct (verifyEpoch e w) as [[?w1 ?current] [|]] eqn:Hv;
      cbn [negb]
  end.

Lemma registrationLoop_head inputs w :
  (registrationLoop inputs w).1.2 = [] \/
  exists e current tr,
    (registrationLoop inputs w).1.2 = DidGetCurrentRewardEpochId e current :: tr.
Proof.
  destruct inputs as [|[powerBlockData|] rest]; [by left|..|by left].
  right. step_loop idtac.
  - destruct (RegisterVoter _ _ _) as [w2 [|]]; cbn [negb].
    + destruct (SigningPolicyInitializedListener _ _) as [w3 [sp|]].
      * destruct (SignNewSigningPolicy _ _ _) as [w4 signed].
        destruct (registrationLoop rest w4) as [[w' tr] exit]. by eexists _, _, _.
      * by eexists _, _, _.
    + destruct (registrationLoop rest w2) as [[w' tr] exit]. by eexists _, _, _.
  - destruct (registrationLoop rest w1) as [[w' tr] exit]. by eexists _, _, _.
Qed.

Lemma registrationLoop_after prev inputs w :
  all_in_order identityAddress None (registrationLoop inputs w).1.2 ->
  all_in_order identityAddress prev (registrationLoop inputs w).1.2.
Proof.
  destruct (registrationLoop_head inputs w) as [->|(e & current & tr & ->)];
    [done|apply all_in_order_head].
Qed.

Lemma registrationLoop_order inputs : forall w,
  all_in_order identityAddress None (registrationLoop inputs w).1.2.
Proof.
  induction inputs as [|[powerBlockData|] rest IH]; intros w; [done| |done].
  step_loop IH.
  - apply verifyEpoch_true in Hv as (c & -> & Hc).
    destruct (RegisterVoter _ _ _) as [w2 [|]]; cbn [negb].
    + destruct (SigningPolicyInitializedListener _ _) as [w3 [sp|]].
      * destruct (SignNewSigningPolicy _ _ _) as [w4 signed].
        pose proof (registrationLoop_after
                      (Some (DidSignNewSigningPolicy (PolicyRewardEpochId sp)
                               (SigningPolicyBytes sp) signed))
                      rest w4 (IH w4)) as Hrest.
        destruct (registrationLoop rest w4) as [[w' tr] exit].
        cbn [fst snd all_in_order in_order] in *.
        split_and!; [done|done|by exists c|by eexists| |done].
        exists (Timestamp powerBlockData). by destruct sp.
      * cbn [fst snd all_in_order in_order].
        split_and!; [done|done|by exists c|by eexists|done].
    + pose proof (registrationLoop_after
                    (Some (DidRegisterVoter (RewardEpochId powerBlockData)
                             identityAddress false))
                    rest w2 (IH w2)) as Hrest.
      destruct (registrationLoop rest w2) as [[w' tr] exit].
      cbn [fst snd all_in_order in_order] in *.
      split_and!; [done|done|by exists c|done].
  - pose proof (registrationLoop_after
                  (Some (DidGetCurrentRewardEpochId
                           (RewardEpochId powerBlockData) current))
                  rest w1 (IH w1)) as Hrest.
    destruct (registrationLoop rest w1) as [[w' tr] exit].
    cbn [fst snd all_in_order in_order] in *. done.
Qed.

(** The order of the calls of the registration client.  It registers the
    voter only for an epoch above the current epoch it has just read,
    and only with its identity address; it waits for the signing policy
    only after a registration that succeeded; and it signs only the
    policy whose arrival it has just seen, for the epoch named in that
    policy. *)
Theorem RunContext_order (inputs : list LoopInput) (w : W) :
  all_in_order identityAddress None (RunContext inputs w).1.2.
Proof.
  unfold RegistrationClient.RunContext.
  destruct (RewardEpochFromChain w) as [w1 [err|]]; [done|].
  apply registrationLoop_order.
Qed.

Lemma registrationLoop_exit inputs : forall w,
  let run := registrationLoop inputs w in
  (forall err, run.2 <> ExitError err) /\
  examined run.1.2 `prefix_of` (RewardEpochId <$> before_done inputs) /\
  (run.2 = ExitCancelled ->
   CtxDone ∈ inputs /\
   examined run.1.2 = RewardEpochId <$> before_done inputs) /\
  (run.2 = WaitingForEvent ->
   (CtxDone ∉ inputs) /\
   examined run.1.2 = RewardEpochId <$> before_done inputs) /\
  (run.2 = WaitingForSigningPolicy ->
   exists timestamp, last run.1.2 = Some (DidAwaitSigningPolicy timestamp None)).
Proof.
  induction inputs as [|[powerBlockData|] rest IH]; intros w.
  - cbn. split_and!; [done|done|done| |done].
    intros _. split; [apply not_elem_of_nil|done].
  - assert (Hcons : forall w0 pre,
      examined pre = [RewardEpochId powerBlockData] ->
      last pre <> None ->
      let run := registrationLoop rest w0 in
      (forall err, run.2 <> ExitError err) /\
      examined (pre ++ run.1.2)
        `prefix_of` (RewardEpochId <$> before_done (Selected powerBlockData :: rest)) /\
      (run.2 = ExitCancelled ->
       CtxDone ∈ Selected powerBlockData :: rest /\
       examined (pre ++ run.1.2)
       = RewardEpochId <$> before_done (Selected powerBlockData :: rest)) /\
      (run.2 = WaitingForEvent ->
       (CtxDone ∉ Selected powerBlockData :: rest) /\
       examined (pre ++ run.1.2)
       = RewardEpochId <$> before_done (Selected powerBlockData :: rest)) /\
      (run.2 = WaitingForSigningPolicy ->
       exists timestamp,
         last (pre ++ run.1.2) = Some (DidAwaitSigningPolicy timestamp None))).
    { intros w0 pre Hpre Hlast run.
      destruct (IH w0) as (Herr & Hprefix & Hcancel & Hwait & Hstuck).
      fold run in Herr, Hprefix, Hcancel, Hwait, Hstuck.
      unfold examined in *. rewrite omap_app, Hpre. cbn [before_done fmap list_fmap app].
      split_and!.
      - done.
      - by apply prefix_cons.
      - intros Hex. destruct (Hcancel Hex) as [Hin ->]. split; [by right|done].
      - intros Hex. destruct (Hwait Hex) as [Hnin ->]. split; [|done].
        rewrite elem_of_cons. intros [?|?]; done.
      - intros Hex. destruct (Hstuck Hex) as [ts Hts]. exists ts.
        destruct (run.1.2) as [|a tr] eqn:Htr; [done|].
        by rewrite last_app, Hts. }
    step_loop IH.
    + destruct (RegisterVoter _ _ _) as [w2 [|]]; cbn [negb].
      * destruct (SigningPolicyInitializedListener _ _) as [w3 [sp|]].
        -- destruct (SignNewSigningPolicy _ _ _) as [w4 signed].
           specialize (Hcons w4
             [DidGetCurrentRewardEpochId (RewardEpochId powerBlockData) current;
              DidRegisterVoter (RewardEpochId powerBlockData) identityAddress true;
              DidAwaitSigningPolicy (Timestamp powerBlockData) (Some sp);
              DidSignNewSigningPolicy (PolicyRewardEpochId sp)
                (SigningPolicyBytes sp) signed] eq_refl ltac:(done)).
           cbn zeta in Hcons.
           by destruct (registrationLoop rest w4) as [[w' tr] exit].
        -- cbn [fst snd]. split_and!; [done| |done|done|].
           ++ cbn. by apply prefix_cons, prefix_nil.
           ++ intros _. by eexists.
      * specialize (Hcons w2
          [DidGetCurrentRewardEpochId (RewardEpochId powerBlockData) current;
           DidRegisterVoter (RewardEpochId powerBlockData) identityAddress false]
          eq_refl ltac:(done)).
        cbn zeta in Hcons.
        by destruct (registrationLoop rest w2) as [[w' tr] exit].
    + specialize (Hcons w1
        [DidGetCurrentRewardEpochId (RewardEpochId powerBlockData) current]
        eq_refl ltac:(done)).
      cbn zeta in Hcons.
      by destruct (registrationLoop rest w1) as [[w' tr] exit].
  - cbn. split_and!; [done|apply prefix_nil| |done|done].
    intros _. split; [by left|done].
Qed.

(** How a run of the registration client can end.  If the reward epoch
    cannot be read at the start, the error is returned and nothing is
    done.  After that no failure ends the loop: it examines every
    [VotePowerBlockSelected] event it receives, in order and once, and is
    left only when the context is done at the [select].  It neither
    returns nor takes another event while a [SigningPolicyInitialized]
    event it waits for does not come. *)
Theorem RunContext_exit (inputs : list LoopInput) (w : W) :
  let run := RunContext inputs w in
  (forall err, (RewardEpochFromChain w).2 = Some err ->
     run = ((RewardEpochFromChain w).1, [], ExitError err)) /\
  ((RewardEpochFromChain w).2 = None ->
   (forall err, run.2 <> ExitError err) /\
   examined run.1.2 `prefix_of` (RewardEpochId <$> before_done inputs) /\
   (run.2 = ExitCancelled ->
    CtxDone ∈ inputs /\
    examined run.1.2 = RewardEpochId <$> before_done inputs) /\
   (run.2 = WaitingForEvent ->
    (CtxDone ∉ inputs) /\
    examined run.1.2 = RewardEpochId <$> before_done inputs) /\
   (run.2 = WaitingForSigningPolicy ->
    exists timestamp,
      last run.1.2 = Some (DidAwaitSigningPolicy timestamp None))).
Proof.
  intros run. subst run. unfold RegistrationClient.RunContext.
  destruct (RewardEpochFromChain w) as [w1 [err|]]; cbn [fst snd].
  - split; [by intros ? [= <-]|done].
  - split; [done|]. intros _. apply registrationLoop_exit.
Qed.

End Run.

(** Two events at reward epoch 7: the one for epoch 7 is skipped, the one
    for epoch 8 is registered for and signed, and the run ends when the
    context does. *)
Example RunContext_two_events :
  RegistrationClient.RunContext epoch_ok current_is_7 registers
    policy_arrives signs 5%N two_events tt
  = (tt,
     [DidGetCurrentRewardEpochId 7 (Some 7);
      DidGetCurrentRewardEpochId 8 (Some 7);
      DidRegisterVoter 8 5%N true;
      DidAwaitSigningPolicy 200
        (Some {| PolicyRewardEpochId := 8; SigningPolicyBytes := [1; 2; 3] |});
      DidSignNewSigningPolicy 8 [1; 2; 3] true],
     ExitCancelled).
Proof. reflexivity. Qed.

End RegistrationClientFacts.

(** ** client/protocol: the outcome of [NewProtocolClient] *)
Module ClientMore.
Import Protocol Client ClientSpec ClientMoreSpec.

(** What [NewProtocolClient] returns.  With protocol voting disabled it
    returns neither a client nor an error.  Otherwise the five steps that
    reach outside are taken in order -- dialling the node, binding the
    system manager, reading the voting epoch, the credentials, the
    addresses -- and the error returned is the one of the first step
    that fails (wrapped for the second and the third); a client is
    returned exactly when there is no error. *)
Theorem NewProtocolClient_outcome
    (DialETH NewFlareSystemManager VotingEpochFromChain
       newProtocolCredentials newProtocolAddresses
       : ClientConfig -> option string)
    (selectors : contractSelectors) (cfg : ClientConfig) :
  let made :=
    NewProtocolClient DialETH NewFlareSystemManager VotingEpochFromChain
      newProtocolCredentials newProtocolAddresses selectors cfg in
  let steps :=
    [ DialETH cfg;
      String.append "error creating system manager contract: "
        <$> NewFlareSystemManager cfg;
      String.append "error getting voting epoch: "
        <$> VotingEpochFromChain cfg;
      newProtocolCredentials cfg;
      newProtocolAddresses cfg ] in
  (EnabledProtocolVoting cfg = false -> made = (None, None)) /\
  (EnabledProtocolVoting cfg = true ->
   made.2 = first_error steps /\ (is_Some made.1 <-> made.2 = None)) /\
  (made.1 = None \/ made.2 = None).
Proof.
  intros made steps. subst made steps. unfold NewProtocolClient, first_error.
  destruct (EnabledProtocolVoting cfg); cbn [negb].
  2:{ split; [done|]. split; [done|by left]. }
  split; [done|].
  destruct (DialETH cfg) as [e1|]; cbn.
  { split; [|by left]. intros _. split; [done|].
    split; [by intros [? ?]|done]. }
  destruct (NewFlareSystemManager cfg) as [e2|]; cbn.
  { split; [|by left]. intros _. split; [done|].
    split; [by intros [? ?]|done]. }
  destruct (VotingEpochFromChain cfg) as [e3|]; cbn.
  { split; [|by left]. intros _. split; [done|].
    split; [by intros [? ?]|done]. }
  destruct (newProtocolCredentials cfg) as [e4|]; cbn.
  { split; [|by left]. intros _. split; [done|].
    split; [by intros [? ?]|done]. }
  destruct (newProtocolAddresses cfg) as [e5|]; cbn.
  { split; [|by left]. intros _. split; [done|].
    split; [by intros [? ?]|done]. }
  split; [|by right]. intros _. split; [done|]. split; [done|by eexists].
Qed.

End ClientMore.
